(** * HTML-to-Markdown conversion: a shallow embedding

    The development follows the TypeScript module (the backend selector
    [parseMarkdown], the singleton bridge [GoMarkdownConverter], the custom
    image rule of the fallback renderer and the two post-processing passes)
    and the Go module behind the bridge (its [processWechatLazyImages]).

    Strings are sequences of code units, written as Rocq [string]s.  Every
    comparison the two sources make is against an ASCII character, so the
    transforms below act the same way on the UTF-16 units of a JavaScript
    string and on the UTF-8 bytes of a Go string.  The one exception is
    [trim], which looks for white space beyond ASCII: there a text is its
    UTF-8 encoding. *)

From Stdlib Require Import String Ascii List Bool Arith ZArith Lia.
Import ListNotations.
Open Scope string_scope.

(* ================================================================== *)
(** * Part I: definitions                                              *)
(* ================================================================== *)

(** ** Characters and string helpers *)

Definition LF : ascii := "010"%char.
Definition BACKSLASH : ascii := "\"%char.
Definition DQUOTE : ascii := "034"%char.
Definition SQUOTE : ascii := "'"%char.

Definition str1 (c : ascii) : string := String c EmptyString.

(** [s.startsWith(p)] and Go's [strings.HasPrefix(s, p)]. *)
Fixpoint startsWith (s p : string) {struct p} : bool :=
  match p, s with
  | EmptyString, _ => true
  | String a p', String b s' => Ascii.eqb a b && startsWith s' p'
  | String _ _, EmptyString => false
  end.

(** [s.includes(p)]. *)
Fixpoint includes (s p : string) : bool :=
  startsWith s p ||
  match s with
  | EmptyString => false
  | String _ s' => includes s' p
  end.

(** [s.slice(n)]: the string without its first [n] code units. *)
Fixpoint drop (n : nat) (s : string) : string :=
  match n, s with
  | O, _ => s
  | S n', String _ s' => drop n' s'
  | S _, EmptyString => EmptyString
  end.

(** The first [n] code units of [s]. *)
Fixpoint take (n : nat) (s : string) : string :=
  match n, s with
  | O, _ => EmptyString
  | S n', String c s' => String c (take n' s')
  | S _, EmptyString => EmptyString
  end.

(** ** Markdown post-processor: multi-line links *)

(** The two mutable variables of the loop of [processMultiLineLinks] that
    survive an iteration ([insideLinkContent] is recomputed on each one). *)
Record LinkBracketState : Type := mkLinkBracketState
  { linkOpenCount : Z;
    newMarkdownContent : string }.

(** One iteration of [for (let i = 0; i < markdownContent.length; i++)]. *)
Definition processMultiLineLinks_body (markdownContent : string)
    (st : LinkBracketState) (i : nat) : LinkBracketState :=
  match String.get i markdownContent with
  | None => st (* not reached: the loop keeps [i < markdownContent.length] *)
  | Some char =>
      let linkOpenCount :=
        if Ascii.eqb char "[" then (linkOpenCount st + 1)%Z
        else if Ascii.eqb char "]" then Z.max 0 (linkOpenCount st - 1)
        else linkOpenCount st in
      let insideLinkContent := (0 <? linkOpenCount)%Z in
      if insideLinkContent && Ascii.eqb char LF
      then mkLinkBracketState linkOpenCount
             (newMarkdownContent st ++ str1 BACKSLASH ++ str1 LF)
      else mkLinkBracketState linkOpenCount
             (newMarkdownContent st ++ str1 char)
  end.

Definition processMultiLineLinks (markdownContent : string) : string :=
  newMarkdownContent
    (fold_left (processMultiLineLinks_body markdownContent)
               (seq 0 (String.length markdownContent))
               (mkLinkBracketState 0 EmptyString)).

(** The scan as the specification words it: a bracket depth that goes up on
    an opening bracket and down, floored at zero, on a closing one; a newline
    met while the depth is positive becomes backslash, newline. *)
Definition depth_step (depth : Z) (c : ascii) : Z :=
  if Ascii.eqb c "[" then (depth + 1)%Z
  else if Ascii.eqb c "]" then Z.max 0 (depth - 1)
  else depth.

Fixpoint escape_scan (depth : Z) (s : string) : string :=
  match s with
  | EmptyString => EmptyString
  | String c s' =>
      let depth' := depth_step depth c in
      if (0 <? depth')%Z && Ascii.eqb c LF
      then String BACKSLASH (String LF (escape_scan depth' s'))
      else String c (escape_scan depth' s')
  end.

(** The depth in force at position [i]: the brackets of the first [i + 1]
    characters counted from zero. *)
Definition depth_at (s : string) (i : nat) : Z :=
  fold_left depth_step (list_ascii_of_string (take (S i) s)) 0%Z.

(** What the transform puts in place of the character at position [i]. *)
Definition rewritten (s : string) (i : nat) : string :=
  match String.get i s with
  | Some c =>
      if (0 <? depth_at s i)%Z && Ascii.eqb c LF
      then String BACKSLASH (str1 LF)
      else str1 c
  | None => EmptyString
  end.

(** A string with neither kind of square bracket. *)
Fixpoint no_brackets (s : string) : bool :=
  match s with
  | EmptyString => true
  | String c s' =>
      negb (Ascii.eqb c "[") && negb (Ascii.eqb c "]") && no_brackets s'
  end.

(** ** Regular expressions

    The fragment of the JavaScript [RegExp] and Go [regexp] syntax that the two
    sources use: literal characters, character classes, a greedy star or plus
    over a class, concatenation and capturing groups.  The matcher backtracks
    with the priorities of both engines (a greedy repetition tries the longest
    run first); on this fragment Go's leftmost-first rule picks the match a
    backtracking search finds first. *)

Inductive regex : Type :=
| Eps : regex
| Chr (p : ascii -> bool) : regex          (* one character of a class *)
| Rep (p : ascii -> bool) : regex          (* class*, greedy *)
| Cat (r1 r2 : regex) : regex
| Cap (n : nat) (r : regex) : regex.       (* capturing group number n *)

(** Captured groups, most recent binding first. *)
Definition captures : Type := list (nat * string).

Fixpoint group (n : nat) (cs : captures) : option string :=
  match cs with
  | [] => None
  | (m, s) :: cs' => if Nat.eqb m n then Some s else group n cs'
  end.

(** Greedy repetition: take a character of the class when there is one and the
    rest of the pattern still matches afterwards, otherwise stop here. *)
Fixpoint rep_match {R : Type} (p : ascii -> bool) (k : string -> option R)
    (s : string) : option R :=
  match s with
  | String c s' =>
      if p c
      then match rep_match p k s' with
           | Some r => Some r
           | None => k s
           end
      else k s
  | EmptyString => k s
  end.

(** [re_match r s cs k]: match [r] at the start of [s], then hand the rest of
    the input and the captures to the continuation [k]. *)
Fixpoint re_match {R : Type} (r : regex) (s : string) (cs : captures)
    (k : string -> captures -> option R) : option R :=
  match r with
  | Eps => k s cs
  | Chr p =>
      match s with
      | String c s' => if p c then k s' cs else None
      | EmptyString => None
      end
  | Rep p => rep_match p (fun s' => k s' cs) s
  | Cat r1 r2 => re_match r1 s cs (fun s' cs' => re_match r2 s' cs' k)
  | Cap n r1 =>
      re_match r1 s cs
        (fun s' cs' =>
           k s' ((n, take (String.length s - String.length s') s) :: cs'))
  end.

(** A match anchored at the start of [s]: its length and its groups. *)
Definition match_here (r : regex) (s : string) : option (nat * captures) :=
  re_match r s []
    (fun rest cs => Some (String.length s - String.length rest, cs)).

(** The leftmost match: the text before it, the match, its groups and the
    text after it. *)
Fixpoint search (r : regex) (s : string)
    : option (string * string * captures * string) :=
  match match_here r s with
  | Some (n, cs) => Some (EmptyString, take n s, cs, drop n s)
  | None =>
      match s with
      | EmptyString => None
      | String c s' =>
          match search r s' with
          | Some (before, m, cs, after) => Some (String c before, m, cs, after)
          | None => None
          end
      end
  end.

(** All non-overlapping matches, left to right, each replaced by [f] of the
    matched text; [skip] counts the characters of the current match that are
    still to be passed over.  (No pattern of the sources matches the empty
    string; on an empty match the scan copies a character and moves on.) *)
Fixpoint replace_scan (r : regex) (f : string -> string) (s : string)
    (skip : nat) {struct s} : string :=
  match s with
  | EmptyString =>
      match skip, match_here r EmptyString with
      | O, Some _ => f EmptyString
      | _, _ => EmptyString
      end
  | String c s' =>
      match skip with
      | S k => replace_scan r f s' k
      | O =>
          match match_here r s with
          | Some (O, _) => f EmptyString ++ String c (replace_scan r f s' 0)
          | Some (S k, _) => f (take (S k) s) ++ replace_scan r f s' k
          | None => String c (replace_scan r f s' 0)
          end
      end
  end.

(** Go's [re.ReplaceAllStringFunc(s, f)]. *)
Definition ReplaceAllStringFunc (r : regex) (s : string)
    (f : string -> string) : string :=
  replace_scan r f s 0.

(** JavaScript's [s.replace(re, repl)] for a regular expression with the [g]
    flag and a replacement text without dollar signs. *)
Definition js_replace_global (r : regex) (repl : string) (s : string) : string :=
  replace_scan r (fun _ => repl) s 0.

(** JavaScript's [s.replace(re, repl)] for a regular expression without the
    [g] flag: only the leftmost match is replaced. *)
Definition js_replace_first (r : regex) (repl : string) (s : string) : string :=
  match search r s with
  | Some (before, _, _, after) => before ++ repl ++ after
  | None => s
  end.

(** Go's [re.MatchString(s)], [re.FindString(s)], [re.FindStringSubmatch(s)]
    (for a pattern with [ngroups] groups; [nil] when there is no match, the
    empty string for a group that took no part). *)
Definition MatchString (r : regex) (s : string) : bool :=
  match search r s with Some _ => true | None => false end.

Definition FindString (r : regex) (s : string) : string :=
  match search r s with
  | Some (_, m, _, _) => m
  | None => EmptyString
  end.

Definition FindStringSubmatch (r : regex) (ngroups : nat) (s : string)
    : list string :=
  match search r s with
  | Some (_, m, cs, _) =>
      m :: map (fun n => match group n cs with
                         | Some g => g
                         | None => EmptyString
                         end) (seq 1 ngroups)
  | None => []
  end.

(** *** Building patterns *)

Definition only (c : ascii) : ascii -> bool := Ascii.eqb c.
Definition except (c : ascii) : ascii -> bool := fun x => negb (Ascii.eqb c x).
Definition is_quote : ascii -> bool :=
  fun x => Ascii.eqb x DQUOTE || Ascii.eqb x SQUOTE.
Definition not_quote : ascii -> bool := fun x => negb (is_quote x).
Definition is_digit : ascii -> bool :=
  fun x => ((48 <=? nat_of_ascii x) && (nat_of_ascii x <=? 57))%nat.

(** A literal text ([regexp.QuoteMeta] in a Go pattern). *)
Fixpoint lit (s : string) : regex :=
  match s with
  | EmptyString => Eps
  | String c s' => Cat (Chr (only c)) (lit s')
  end.

(** class+ *)
Definition plus (p : ascii -> bool) : regex := Cat (Chr p) (Rep p).

(** The canonical form of a code unit under the [i] flag (without [u]): its
    upper case, except that a unit from 128 upwards never folds to one below
    128.  The patterns compared under [i] are ASCII, so only the ASCII part of
    the table matters; higher units are left as they are. *)
Definition canonicalize (c : ascii) : ascii :=
  let n := nat_of_ascii c in
  if ((97 <=? n) && (n <=? 122))%nat then ascii_of_nat (n - 32) else c.

Definition only_i (c : ascii) : ascii -> bool :=
  fun x => Ascii.eqb (canonicalize x) (canonicalize c).

(** A literal text under the [i] flag. *)
Fixpoint lit_i (s : string) : regex :=
  match s with
  | EmptyString => Eps
  | String c s' => Cat (Chr (only_i c)) (lit_i s')
  end.

(** ** Markdown post-processor: skip-to-content links *)

(** [/\[Skip to Content\]\(#[^\)]*\)/gi] *)
Definition skipToContentRegex : regex :=
  Cat (lit_i "[Skip to Content](#") (Cat (Rep (except ")")) (Chr (only ")"))).

Definition removeSkipToContentLinks (markdownContent : string) : string :=
  let newMarkdownContent :=
    js_replace_global skipToContentRegex EmptyString markdownContent in
  newMarkdownContent.

(** Equality of two texts up to the case of their letters. *)
Fixpoint eqb_nocase (a b : string) : bool :=
  match a, b with
  | EmptyString, EmptyString => true
  | String x a', String y b' =>
      Ascii.eqb (canonicalize x) (canonicalize y) && eqb_nocase a' b'
  | _, _ => false
  end.

Fixpoint has_char (c : ascii) (s : string) : bool :=
  match s with
  | EmptyString => false
  | String x s' => Ascii.eqb c x || has_char c s'
  end.

(** What the pattern takes for a skip link: an opening bracket, the text
    Skip to Content in any letter case, [](#], any characters other than a
    closing parenthesis, and the first closing parenthesis. *)
Definition SkipLink (l : string) : Prop :=
  exists text target : string,
    l = "[" ++ text ++ "](#" ++ target ++ ")"
    /\ eqb_nocase text "Skip to Content" = true
    /\ has_char ")" target = false.

(** [removes_skip_links s out]: reading [s] from the left, [out] keeps a
    character where no skip link begins and leaves out a skip link where one
    begins. *)
Inductive removes_skip_links : string -> string -> Prop :=
| rsl_end : removes_skip_links EmptyString EmptyString
| rsl_keep (c : ascii) (s out : string) :
    (forall l rest, String c s = l ++ rest -> ~ SkipLink l) ->
    removes_skip_links s out ->
    removes_skip_links (String c s) (String c out)
| rsl_drop (l rest out : string) :
    SkipLink l ->
    removes_skip_links rest out ->
    removes_skip_links (l ++ rest) out.

(** The same match computed directly: the fixed part in any letter case, then
    everything up to the first closing parenthesis. *)
Fixpoint starts_nocase (s p : string) {struct p} : bool :=
  match p, s with
  | EmptyString, _ => true
  | String c p', String x s' =>
      Ascii.eqb (canonicalize x) (canonicalize c) && starts_nocase s' p'
  | String _ _, EmptyString => false
  end.

Fixpoint after_close (s : string) : option string :=
  match s with
  | EmptyString => None
  | String c s' => if Ascii.eqb ")" c then Some s' else after_close s'
  end.

Definition skip_link_at (s : string) : option nat :=
  if starts_nocase s "[Skip to Content](#" then
    match after_close (drop 19 s) with
    | Some rest => Some (String.length s - String.length rest)
    | None => None
    end
  else None.

(** ** Fallback renderer: the custom image rule [wechatImages] *)

(** What the rule reads of a DOM node.  [getAttribute] gives [None] for the
    [null] of an absent attribute. *)
Record Node : Type := mkNode
  { nodeName : string;
    className : string;
    getAttribute : string -> option string }.

(** JavaScript truthiness of [string | null]: [null] and the empty string are
    falsy. *)
Definition truthy (v : option string) : bool :=
  match v with
  | Some (String _ _) => true
  | _ => false
  end.

(** [v || d] for [v : string | null]. *)
Definition or_else (v : option string) (d : string) : string :=
  match v with
  | Some (String c s) => String c s
  | _ => d
  end.

Definition wechatImages_filter (node : Node) : bool :=
  if negb (String.eqb (nodeName node) "IMG") then false
  else
    let hasDataSrc :=
      match getAttribute node "data-src" with Some _ => true | None => false end in
    let className := className node in
    let hasWechatClass :=
      includes className "rich_pages" || includes className "wxw-img" in
    let src := or_else (getAttribute node "src") "" in
    let hasWechatSrc := includes src "wx_fmt=" || includes src "mmbiz.qpic.cn" in
    hasDataSrc || hasWechatClass || hasWechatSrc.

Definition possibleAttrs : list string :=
  ["data-backsrc"; "data-fail-src"; "data-original"; "data-backupSrc"].

(** [for (const attr of possibleAttrs) { ... break; }]: the value of the first
    attribute that is set and starts with [http], else [src] as it was. *)
Fixpoint scanPossibleAttrs (node : Node) (attrs : list string) (src : string)
    : string :=
  match attrs with
  | [] => src
  | attr :: rest =>
      let attrValue := getAttribute node attr in
      if truthy attrValue && startsWith (or_else attrValue "") "http"
      then or_else attrValue ""
      else scanPossibleAttrs node rest src
  end.

(** [/&wx_lazy=\d+/] and [/&wx_co=\d+/] (no flags). *)
Definition wxLazyRegex : regex := Cat (lit "&wx_lazy=") (plus is_digit).
Definition wxCoRegex : regex := Cat (lit "&wx_co=") (plus is_digit).

(** Both patterns are a key followed by one or more digits. *)
Definition fragmentRegex (key : string) : regex := Cat (lit key) (plus is_digit).

(** The longest run of characters of a class at the head of a text, and what
    follows it. *)
Fixpoint take_run (p : ascii -> bool) (s : string) : string :=
  match s with
  | String c s' => if p c then String c (take_run p s') else EmptyString
  | EmptyString => EmptyString
  end.

Fixpoint skip_run (p : ascii -> bool) (s : string) : string :=
  match s with
  | String c s' => if p c then skip_run p s' else s
  | EmptyString => EmptyString
  end.

Fixpoint all_digits (s : string) : bool :=
  match s with
  | String c s' => is_digit c && all_digits s'
  | EmptyString => true
  end.

Definition starts_with_digit (s : string) : bool :=
  match s with
  | String c _ => is_digit c
  | EmptyString => false
  end.

(** The variable [src] of the replacement function when the Markdown is
    assembled. *)
Definition wechatImages_src (node : Node) : string :=
  let src :=
    or_else (getAttribute node "data-src")
            (or_else (getAttribute node "src") "") in
  let src :=
    if includes src "data:image/svg" && negb (truthy (getAttribute node "data-src"))
    then scanPossibleAttrs node possibleAttrs src
    else src in
  js_replace_first wxCoRegex "" (js_replace_first wxLazyRegex "" src).

(** The placeholder for a missing [alt], as UTF-8. *)
Definition defaultAlt : string :=
  String "229" (String "155" (String "190"
    (String "231" (String "137" (String "135" EmptyString))))).

Definition wechatImages_replacement (content : string) (node : Node) : string :=
  let src := wechatImages_src node in
  let alt := or_else (getAttribute node "alt") defaultAlt in
  let title := or_else (getAttribute node "title") "" in
  if truthy (Some title)
  then "![" ++ alt ++ "](" ++ src ++ " " ++ str1 DQUOTE ++ title ++ str1 DQUOTE ++ ")"
  else "![" ++ alt ++ "](" ++ src ++ ")".

(** The resolution as the specification orders it. *)
Definition is_svg_placeholder (src : string) : bool :=
  includes src "data:image/svg".

Definition begins_with_http (v : string) : bool := startsWith v "http".

Fixpoint first_http_attribute (node : Node) (attrs : list string)
    : option string :=
  match attrs with
  | [] => None
  | a :: rest =>
      match getAttribute node a with
      | Some v =>
          if negb (String.eqb v "") && begins_with_http v then Some v
          else first_http_attribute node rest
      | None => first_http_attribute node rest
      end
  end.

Definition resolve_spec (node : Node) : string :=
  match getAttribute node "data-src" with
  | Some (String c s) => String c s                                  (* (a) *)
  | _ =>
      let src := match getAttribute node "src" with
                 | Some v => v
                 | None => ""
                 end in
      if is_svg_placeholder src then
        match first_http_attribute node possibleAttrs with
        | Some v => v                                                (* (b) *)
        | None => src
        end
      else src                                                       (* (c) *)
  end.

(** A node given by its attribute list (first occurrence wins). *)
(** [s.toLowerCase()] on ASCII letters.  That is all of it for an attribute
    name, which the HTML parser and [getAttribute] put in ASCII lower case,
    and all that a comparison with an ASCII name in lower case can tell: no
    character beyond ASCII becomes one of the letters of [content-type]. *)
Definition toLowerCase_unit (c : ascii) : ascii :=
  let n := nat_of_ascii c in
  if ((65 <=? n) && (n <=? 90))%nat then ascii_of_nat (n + 32) else c.

Fixpoint toLowerCase (s : string) : string :=
  match s with
  | EmptyString => EmptyString
  | String c s' => String (toLowerCase_unit c) (toLowerCase s')
  end.

Fixpoint lookup_attr (attrs : list (string * string)) (name : string)
    : option string :=
  match attrs with
  | [] => None
  | (n, v) :: rest => if String.eqb n name then Some v else lookup_attr rest name
  end.

(** The [<img>] element parsed from markup with these attributes: the names
    are in lower case in the element, [getAttribute] puts the name it is asked
    for in lower case too, and [className] reflects the [class] attribute. *)
Definition img (attrs : list (string * string)) : Node :=
  let parsed := map (fun nv => (toLowerCase (fst nv), snd nv)) attrs in
  mkNode "IMG" (or_else (lookup_attr parsed "class") "")
    (fun name => lookup_attr parsed (toLowerCase name)).

(** Its markup, each value in single quotes. *)
Definition img_markup (attrs : list (string * string)) : string :=
  "<img"
  ++ String.concat ""
       (map (fun nv => " " ++ fst nv ++ "='" ++ snd nv ++ "'") attrs)
  ++ ">".

(** The node with its [src] attribute set to [v]. *)
Definition setSrc (node : Node) (v : string) : Node :=
  mkNode (nodeName node) (className node)
    (fun name => if String.eqb name "src" then Some v else getAttribute node name).

(** Whether a pattern matches somewhere in a string. *)
Definition contains_match (r : regex) (s : string) : bool :=
  match search r s with Some _ => true | None => false end.

(** ** Native side: [processWechatLazyImages] *)

Definition cat_all (rs : list regex) : regex := fold_right Cat Eps rs.

Definition dq (s : string) : string := str1 DQUOTE ++ s ++ str1 DQUOTE.

(** Go's [strings.Replace(s, old, new, n)]: the first [n] non-overlapping
    occurrences of [old], all of them when [n] is negative. *)
Fixpoint strings_Replace_scan (old new s : string) (n : Z) (skip : nat)
    {struct s} : string :=
  match s with
  | EmptyString =>
      match old, skip with
      | EmptyString, O => if (n =? 0)%Z then EmptyString else new
      | _, _ => EmptyString
      end
  | String c s' =>
      match skip with
      | S k => strings_Replace_scan old new s' n k
      | O =>
          if (n =? 0)%Z then s
          else
            match old with
            | EmptyString =>
                new ++ String c (strings_Replace_scan old new s' (n - 1) 0)
            | String _ old' =>
                if startsWith s old
                then new ++ strings_Replace_scan old new s' (n - 1)
                              (String.length old')
                else String c (strings_Replace_scan old new s' n 0)
            end
      end
  end.

Definition strings_Replace (s old new : string) (n : Z) : string :=
  strings_Replace_scan old new s n 0.

(** The name after a dollar sign in a replacement template: a run of ASCII
    letters, digits and underscores, in braces or not; [None] when the
    reference is malformed.  The result is the name and the number of
    characters read.  (Go also reads letters and digits beyond ASCII into the
    name; a template in which such a character follows a dollar sign is
    outside this model.) *)
Definition is_name_char (c : ascii) : bool :=
  let n := nat_of_ascii c in
  (((48 <=? n) && (n <=? 57)) || ((65 <=? n) && (n <=? 90))
   || ((97 <=? n) && (n <=? 122)) || (n =? 95))%nat.

Fixpoint name_run (s : string) : string :=
  match s with
  | String c s' => if is_name_char c then String c (name_run s') else EmptyString
  | EmptyString => EmptyString
  end.

Definition extract (str : string) : option (string * nat) :=
  match str with
  | EmptyString => None
  | String "{" str' =>
      let name := name_run str' in
      match name with
      | EmptyString => None
      | _ =>
          if startsWith (drop (String.length name) str') "}"
          then Some (name, String.length name + 2)
          else None
      end
  | _ =>
      let name := name_run str in
      match name with
      | EmptyString => None
      | _ => Some (name, String.length name)
      end
  end.

(** Go's template expansion for a pattern without groups: [$$] is a dollar
    sign, [$0] and [${0}] are the whole match, every other reference is
    empty, a malformed reference leaves its dollar sign. *)
Fixpoint expand (template m : string) (skip : nat) {struct template} : string :=
  match template with
  | EmptyString => EmptyString
  | String c t' =>
      match skip with
      | S k => expand t' m k
      | O =>
          if Ascii.eqb c "$" then
            if startsWith t' "$" then String "$" (expand t' m 1)
            else
              match extract t' with
              | Some (name, len) =>
                  (if String.eqb name "0" then m else EmptyString)
                  ++ expand t' m len
              | None => String "$" (expand t' m 0)
              end
          else String c (expand t' m 0)
      end
  end.

(** Go's [re.ReplaceAllString(src, repl)] for a pattern without groups. *)
Definition ReplaceAllString (r : regex) (src repl : string) : string :=
  replace_scan r (fun m => expand repl m 0) src 0.

(** The pattern [<img[^>]*(data-src=Q([^Q]+)Q)[^>]*>], where [Q] stands for
    the class of the two quote characters. *)
Definition dataSrcRegex : regex :=
  cat_all [lit "<img"; Rep (except ">");
           Cap 1 (cat_all [lit "data-src="; Chr is_quote;
                           Cap 2 (plus not_quote); Chr is_quote]);
           Rep (except ">"); Chr (only ">")].

(** [src=Q[^Q]+Q] *)
Definition srcRegex : regex :=
  cat_all [lit "src="; Chr is_quote; plus not_quote; Chr is_quote].

(** [src=Qdata:image/svg[^Q]+Q] *)
Definition svgPlaceholderRegex : regex :=
  cat_all [lit "src="; Chr is_quote; lit "data:image/svg";
           plus not_quote; Chr is_quote].

(** The function passed to the first [ReplaceAllStringFunc]. *)
Definition copyDataSrc (match_ : string) : string :=
  let submatch := FindStringSubmatch dataSrcRegex 2 match_ in
  if (3 <=? List.length submatch)%nat then
    let dataSrc := nth 2 submatch EmptyString in
    let dataSrc := strings_Replace dataSrc "&wx_lazy=1" "" (-1) in
    let dataSrc := strings_Replace dataSrc "&wx_co=1" "" (-1) in
    if MatchString srcRegex match_
    then ReplaceAllString srcRegex match_ ("src=" ++ dq dataSrc)
    else strings_Replace match_ "<img " ("<img src=" ++ dq dataSrc ++ " ") 1
  else match_.

Definition goPossibleAttrs : list string :=
  ["data-src"; "data-backsrc"; "data-original"; "data-failsrc"].

(** [for _, attr := range possibleAttrs { ... return ... }] *)
Fixpoint scanGoAttrs (imgTag : string) (attrs : list string) (match_ : string)
    : string :=
  match attrs with
  | [] => match_
  | attr :: rest =>
      let attrRegex :=
        cat_all [lit attr; lit "="; Chr is_quote;
                 Cap 1 (plus not_quote); Chr is_quote] in
      let attrMatch := FindStringSubmatch attrRegex 1 imgTag in
      if (2 <=? List.length attrMatch)%nat
         && startsWith (nth 1 attrMatch EmptyString) "http"
      then "src=" ++ dq (nth 1 attrMatch EmptyString)
      else scanGoAttrs imgTag rest match_
  end.

(** The function passed to the second [ReplaceAllStringFunc]; [html] is the
    variable it closes over, the text the second pass runs on. *)
Definition replaceSvgPlaceholder (html : string) (match_ : string) : string :=
  let imgTag :=
    FindString (cat_all [lit "<img"; Rep (except ">"); lit match_;
                         Rep (except ">"); Chr (only ">")]) html in
  if negb (String.eqb imgTag "")
  then scanGoAttrs imgTag goPossibleAttrs match_
  else match_.

Definition processWechatLazyImages (html : string) : string :=
  let html := ReplaceAllStringFunc dataSrcRegex html copyDataSrc in
  let html := ReplaceAllStringFunc svgPlaceholderRegex html
                (replaceSvgPlaceholder html) in
  html.

(** ** Backend selector and native bridge

    [parseMarkdown] runs in a process whose state is the static field
    [GoMarkdownConverter.instance] and, for the proofs, the record of what the
    call did to its collaborators (file system, native library, fallback
    renderer, telemetry, logger).  The collaborators are given by an
    environment; a computation returns a value or throws. *)

(** A thrown value: an [Error] with its message, or anything else. *)
Inductive Thrown : Type :=
| ErrorObject (message : string)
| OtherValue (shown : string).

Inductive Outcome (A : Type) : Type :=
| Return (a : A)
| Throw (e : Thrown).
Arguments Return {A} a.
Arguments Throw {A} e.

Inductive Event : Type :=
| Stat                              (* stat(goExecutablePath) *)
| Load                              (* koffi.load(goExecutablePath) *)
| NativeCall (html : string)        (* this.convert.async(html, ...) *)
| Turndown (html : string)          (* turndownService.turndown(html) *)
| SentryCapture (error : Thrown)    (* Sentry.captureException(error) *)
| LoggerError (message : string)    (* logger.error(...) *)
| LoggerWarn (message : string).    (* logger.warn(...) *)

(** A converter object, told apart by the order of its creation. *)
Definition Handle : Type := nat.

Record Process : Type := mkProcess
  { instance : option Handle;       (* GoMarkdownConverter.instance *)
    created : nat;                  (* converter objects constructed so far *)
    log : list Event }.

Record Environment : Type := mkEnvironment
  { USE_GO_MARKDOWN_PARSER : option string;      (* process.env entry *)
    stat_ok : bool;                              (* the library file exists *)
    koffi_load : option Thrown;                  (* Some e: loading throws e *)
    convert_async : string -> Outcome string;    (* the native conversion *)
    turndown : string -> Outcome string }.       (* the fallback tree walk *)

Definition M (A : Type) : Type := Process -> Outcome A * Process.

Definition ret {A : Type} (a : A) : M A := fun p => (Return a, p).

Definition throw {A : Type} (e : Thrown) : M A := fun p => (Throw e, p).

Definition bind {A B : Type} (m : M A) (f : A -> M B) : M B :=
  fun p =>
    match m p with
    | (Return a, p') => f a p'
    | (Throw e, p') => (Throw e, p')
    end.

Definition try_catch {A : Type} (body : M A) (handler : Thrown -> M A) : M A :=
  fun p =>
    match body p with
    | (Return a, p') => (Return a, p')
    | (Throw e, p') => handler e p'
    end.

Declare Scope js_scope.
Delimit Scope js_scope with js.
Notation "x <- m ;; k" := (bind m (fun x => k))
  (at level 61, m at next level, right associativity) : js_scope.
Notation "m ;;; k" := (bind m (fun _ => k))
  (at level 61, right associativity) : js_scope.

Definition record (evs : list Event) (p : Process) : Process :=
  mkProcess (instance p) (created p) (log p ++ evs).

Definition emit (ev : Event) : M unit := fun p => (Return tt, record [ev] p).

Definition lift {A : Type} (o : Outcome A) : M A := fun p => (o, p).

(** *** [GoMarkdownConverter] *)

(** [new GoMarkdownConverter()]: the library is loaded; a new object exists
    when that did not throw. *)
Definition new_GoMarkdownConverter (env : Environment) : M Handle :=
  fun p =>
    let p := record [Load] p in
    match koffi_load env with
    | Some e => (Throw e, p)
    | None =>
        (Return (S (created p)), mkProcess (instance p) (S (created p)) (log p))
    end.

(** [getInstance] up to its [await]: the test of the static field and, when
    it is unset, the call of [stat]. *)
Definition getInstance_enter : M (option Handle) :=
  fun p =>
    match instance p with
    | Some h => (Return (Some h), p)
    | None => (Return None, record [Stat] p)
    end.

(** [getInstance] from the [await] on: the outcome of [stat] is looked at, the
    converter is built and stored, and the static field is returned. *)
Definition getInstance_resume (env : Environment) : M Handle :=
  fun p =>
    if stat_ok env then
      match new_GoMarkdownConverter env p with
      | (Return h, p') =>
          (Return h, mkProcess (Some h) (created p') (log p'))
      | (Throw e, p') => (Throw e, p')
      end
    else (Throw (ErrorObject "Go shared library not found"), p).

(** A call of [getInstance] that nothing else interleaves with. *)
Definition getInstance (env : Environment) : M Handle :=
  (found <- getInstance_enter ;;
   match found with
   | Some h => ret h
   | None => getInstance_resume env
   end)%js.

Definition convertHTMLToMarkdown (env : Environment) (converter : Handle)
    (html : string) : M string :=
  (emit (NativeCall html) ;;; lift (convert_async env html))%js.

(** *** [parseMarkdown] *)

Inductive HtmlInput : Type :=
| Null
| Undefined
| Html (s : string).

(** [!html] *)
Definition falsy (html : HtmlInput) : bool :=
  match html with
  | Html (String _ _) => false
  | _ => true
  end.

Definition isError (error : Thrown) : bool :=
  match error with
  | ErrorObject _ => true
  | OtherValue _ => false
  end.

Definition message_of (error : Thrown) : string :=
  match error with
  | ErrorObject m => m
  | OtherValue _ => EmptyString
  end.

(** The text an interpolated error shows, for an [Error] of the base class;
    an error of a subclass shows the name of its class in place of [Error],
    which changes the text of the logged message and nothing else. *)
Definition show (error : Thrown) : string :=
  match error with
  | ErrorObject EmptyString => "Error"
  | ErrorObject m => "Error: " ++ m
  | OtherValue s => s
  end.

Definition go_enabled (env : Environment) : bool :=
  match USE_GO_MARKDOWN_PARSER env with
  | Some v => String.eqb v "true"
  | None => false
  end.

(** The statements of the first [try] block under the test of the
    environment variable. *)
Definition nativeAttempt (env : Environment) (html : string) : M string :=
  (converter <- getInstance env ;;
   markdownContent <- convertHTMLToMarkdown env converter html ;;
   let markdownContent := processMultiLineLinks markdownContent in
   let markdownContent := removeSkipToContentLinks markdownContent in
   ret markdownContent)%js.

(** The first [catch] block. *)
Definition nativeFailure (error : Thrown) : M unit :=
  if negb (isError error)
     || negb (String.eqb (message_of error) "Go shared library not found")
  then
    (emit (SentryCapture error) ;;;
     emit (LoggerError
             ("Error converting HTML to Markdown with Go parser: " ++ show error)))%js
  else
    emit (LoggerWarn
            "Tried to use Go parser, but it doesn't exist in the file system.").

(** The second [try] statement, on the configured Turndown service. *)
Definition fallbackRenderer (env : Environment) (html : string) : M string :=
  try_catch
    (markdownContent <- (emit (Turndown html) ;;; lift (turndown env html)) ;;
     let markdownContent := processMultiLineLinks markdownContent in
     let markdownContent := removeSkipToContentLinks markdownContent in
     ret markdownContent)%js
    (fun error =>
       (emit (LoggerError "Error converting HTML to Markdown") ;;;
        ret EmptyString)%js).

(** [parseMarkdown]; the first [try] yields [Some] of the value it returns,
    or [None] when control leaves it for the fallback. *)
Definition parseMarkdown (env : Environment) (html : HtmlInput) : M string :=
  match html with
  | Html (String c s) =>
      let html := String c s in
      (returned <-
         try_catch
           (if go_enabled env
            then (markdownContent <- nativeAttempt env html ;;
                  ret (Some markdownContent))
            else ret None)
           (fun error => nativeFailure error ;;; ret None) ;;
       match returned with
       | Some markdownContent => ret markdownContent
       | None => fallbackRenderer env html
       end)%js
  | _ => ret EmptyString
  end.

(** Counting what a call left in the log. *)
Definition is_native_event (ev : Event) : bool :=
  match ev with
  | Stat | Load | NativeCall _ => true
  | _ => false
  end.

Definition is_telemetry (ev : Event) : bool :=
  match ev with SentryCapture _ => true | _ => false end.

Definition is_error_log (ev : Event) : bool :=
  match ev with LoggerError _ => true | _ => false end.

Definition is_warn_log (ev : Event) : bool :=
  match ev with LoggerWarn _ => true | _ => false end.

Definition is_turndown (ev : Event) : bool :=
  match ev with Turndown _ => true | _ => false end.

Definition is_load (ev : Event) : bool :=
  match ev with Load => true | _ => false end.

Definition count (f : Event -> bool) (evs : list Event) : nat :=
  List.length (filter f evs).

(** The distinguished condition: an [Error] whose message is the one
    [getInstance] throws when the library file is missing. *)
Definition componentUnavailable (error : Thrown) : bool :=
  isError error && String.eqb (message_of error) "Go shared library not found".

(** What the first [catch] block leaves in the log for the error it is
    given. *)
Definition failure_events (error : Thrown) : list Event :=
  if componentUnavailable error
  then [LoggerWarn
          "Tried to use Go parser, but it doesn't exist in the file system."]
  else [SentryCapture error;
        LoggerError
          ("Error converting HTML to Markdown with Go parser: " ++ show error)].

(** What the fallback renderer alone produces for [html]: its result and the
    trace it leaves. *)
Definition fallback_result (env : Environment) (html : string) : string :=
  match turndown env html with
  | Return markdownContent =>
      removeSkipToContentLinks (processMultiLineLinks markdownContent)
  | Throw _ => EmptyString
  end.

Definition fallback_events (env : Environment) (html : string) : list Event :=
  match turndown env html with
  | Return _ => [Turndown html]
  | Throw _ => [Turndown html; LoggerError "Error converting HTML to Markdown"]
  end.

(** The environment with the native backend switched off. *)
Definition fallback_only (env : Environment) : Environment :=
  mkEnvironment None (stat_ok env) (koffi_load env) (convert_async env)
    (turndown env).

(** ** Concurrent first use of [getInstance]

    Calls run on one thread and give way to each other only at an [await].  A
    call of [getInstance] is therefore two indivisible steps: up to the
    [await] of [stat], and from there to its [return]. *)

Inductive Pc : Type :=
| Entry                    (* called, not yet run *)
| AwaitingStat             (* suspended at [await stat(...)] *)
| Resolved (h : Handle)    (* returned the converter [h] *)
| Rejected (e : Thrown).   (* threw [e] *)

Definition step_call (env : Environment) (pc : Pc) (p : Process) : Pc * Process :=
  match pc with
  | Entry =>
      match getInstance_enter p with
      | (Return (Some h), p') => (Resolved h, p')
      | (Return None, p') => (AwaitingStat, p')
      | (Throw e, p') => (Rejected e, p')
      end
  | AwaitingStat =>
      match getInstance_resume env p with
      | (Return h, p') => (Resolved h, p')
      | (Throw e, p') => (Rejected e, p')
      end
  | Resolved h => (Resolved h, p)
  | Rejected e => (Rejected e, p)
  end.

Record System : Type := mkSystem
  { calls : list Pc;
    process : Process }.

Fixpoint set_nth {A : Type} (i : nat) (x : A) (l : list A) : list A :=
  match l, i with
  | [], _ => []
  | _ :: l', O => x :: l'
  | y :: l', S i' => y :: set_nth i' x l'
  end.

(** The event loop runs the next step of call [i]. *)
Definition run_call (env : Environment) (i : nat) (sys : System) : System :=
  match nth_error (calls sys) i with
  | Some pc =>
      let (pc', p') := step_call env pc (process sys) in
      mkSystem (set_nth i pc' (calls sys)) p'
  | None => sys
  end.

Definition run_schedule (env : Environment) (schedule : list nat)
    (sys : System) : System :=
  fold_left (fun s i => run_call env i s) schedule sys.

Inductive step (env : Environment) : System -> System -> Prop :=
| step_run (i : nat) (sys : System) :
    i < List.length (calls sys) -> step env sys (run_call env i sys).

Inductive reachable (env : Environment) (init : System) : System -> Prop :=
| reach_init : reachable env init init
| reach_step (s s' : System) :
    reachable env init s -> step env s s' -> reachable env init s'.

Definition fresh_process : Process := mkProcess None 0 [].

(** ** Environments for the examples *)

(** The native backend is enabled and the library file is missing. *)
Definition missing_library_env : Environment :=
  mkEnvironment (Some "true") false None
    (fun html => Return html)
    (fun html => Return ("[Skip to content](#main)" ++ html)).

(** The native backend is enabled, the library loads, and both the native
    conversion and the fallback renderer fail. *)
Definition failing_env : Environment :=
  mkEnvironment (Some "true") true None
    (fun _ => Throw (OtherValue "native conversion failed"))
    (fun _ => Throw (ErrorObject "tree walk failed")).

(** The native backend is enabled and works. *)
Definition library_present_env : Environment :=
  mkEnvironment (Some "true") true None
    (fun html => Return html)
    (fun html => Return html).

(** ** Further models

    What follows covers the rest of the two modules and the scraping service
    around them. *)

(** *** Undoing the multi-line-link escape *)

(** One pass that takes out the backslash in front of a newline met at a
    positive bracket depth. *)
Fixpoint unescape_scan (depth : Z) (s : string) : string :=
  match s with
  | EmptyString => EmptyString
  | String c s' =>
      match s' with
      | String c' s'' =>
          if Ascii.eqb c BACKSLASH && Ascii.eqb c' LF && (0 <? depth)%Z
          then String LF (unescape_scan depth s'')
          else String c (unescape_scan (depth_step depth c) s')
      | EmptyString => String c EmptyString
      end
  end.

(** The number of newlines that stand at a positive bracket depth. *)
Fixpoint escaped_newlines (depth : Z) (s : string) : nat :=
  match s with
  | EmptyString => 0
  | String c s' =>
      let depth' := depth_step depth c in
      (if (0 <? depth')%Z && Ascii.eqb c LF then 1 else 0)
      + escaped_newlines depth' s'
  end.

(** *** Declarative matching

    [matches r s s']: the pattern [r] matches a prefix of [s] and leaves
    [s'], whatever the priorities of the engine. *)
Inductive run (p : ascii -> bool) : string -> string -> Prop :=
| run_stop (s : string) : run p s s
| run_step (c : ascii) (s s' : string) :
    p c = true -> run p s s' -> run p (String c s) s'.

Fixpoint matches (r : regex) (s s' : string) : Prop :=
  match r with
  | Eps => s = s'
  | Chr p => exists c, s = String c s' /\ p c = true
  | Rep p => run p s s'
  | Cat r1 r2 => exists s1, matches r1 s s1 /\ matches r2 s1 s'
  | Cap _ r1 => matches r1 s s'
  end.

(** *** More event classes *)

Definition is_stat (ev : Event) : bool :=
  match ev with Stat => true | _ => false end.

Definition is_native_call (ev : Event) : bool :=
  match ev with NativeCall _ => true | _ => false end.

(** *** The scraping service: request interception *)

Definition AD_SERVING_DOMAINS : list string :=
  ["doubleclick.net";
   "adservice.google.com";
   "googlesyndication.com";
   "googletagservices.com";
   "googletagmanager.com";
   "google-analytics.com";
   "adsystem.com";
   "adservice.com";
   "adnxs.com";
   "ads-twitter.com";
   "facebook.net";
   "fbcdn.net";
   "amazon-adsystem.com"].

Inductive RouteDecision : Type :=
| RouteAbort       (* route.abort() *)
| RouteContinue.   (* route.continue() *)

(** The handler that [initializeBrowser] registers for every request, on the
    host name of the request URL. *)
Definition interceptRequest (hostname : string) : RouteDecision :=
  if existsb (fun domain => includes hostname domain) AD_SERVING_DOMAINS
  then RouteAbort
  else RouteContinue.

(** *** The scraping service: the scripts run in the page

    Each script walks the images a selector picks and sets their [src].
    The class selectors are left to the browser: [hasClass] says whether an
    element carries a class. *)







(** *** The scraping service: scrolling to the bottom

    The interval callback of [autoScrollPage], run until it resolves;
    [scrollHeightAt k] is [document.body.scrollHeight] as the run number [k]
    reads it.  The result is the number of runs and [totalHeight]. *)
Fixpoint autoScroll (scrollHeightAt : nat -> Z) (fuel k : nat) (totalHeight : Z)
    : option (nat * Z) :=
  match fuel with
  | O => None
  | S fuel' =>
      let distance := 100%Z in
      let scrollHeight := scrollHeightAt k in
      let totalHeight := (totalHeight + distance)%Z in
      if (totalHeight >=? scrollHeight)%Z
      then Some (S k, totalHeight)
      else autoScroll scrollHeightAt fuel' (S k) totalHeight
  end.

(** *** The fallback renderer: the custom link rule [inlineLink] *)

(** [String.prototype.trim] compares with characters beyond ASCII, so here
    the encoding matters: a text is its UTF-8 encoding, as [defaultAlt] is.
    The white space and line terminators of JavaScript are U+0009 to U+000D,
    U+0020, U+00A0, U+1680, U+2000 to U+200A, U+2028, U+2029, U+202F, U+205F,
    U+3000 and U+FEFF; below, each with its bytes. *)
Definition bytes (l : list nat) : string :=
  fold_right (fun n s => String (ascii_of_nat n) s) EmptyString l.

Definition js_whitespace : list string :=
  map bytes
    [ [9]; [10]; [11]; [12]; [13]; [32];
      [194; 160];
      [225; 154; 128];
      [226; 128; 128]; [226; 128; 129]; [226; 128; 130]; [226; 128; 131];
      [226; 128; 132]; [226; 128; 133]; [226; 128; 134]; [226; 128; 135];
      [226; 128; 136]; [226; 128; 137]; [226; 128; 138];
      [226; 128; 168]; [226; 128; 169]; [226; 128; 175];
      [226; 129; 159];
      [227; 128; 128];
      [239; 187; 191] ].

(** The number of bytes of the white-space character [s] begins with; zero
    when it begins with none. *)
Fixpoint whitespace_at (chars : list string) (s : string) : nat :=
  match chars with
  | [] => 0
  | ch :: rest =>
      if startsWith s ch then String.length ch else whitespace_at rest s
  end.

(** [skip] counts the bytes of the current white-space character that are
    still to be passed over. *)
Fixpoint trimStart_scan (s : string) (skip : nat) {struct s} : string :=
  match s with
  | EmptyString => EmptyString
  | String c s' =>
      match skip with
      | S k => trimStart_scan s' k
      | O =>
          match whitespace_at js_whitespace s with
          | O => s
          | S k => trimStart_scan s' k
          end
      end
  end.

Definition trimStart (s : string) : string := trimStart_scan s 0.

(** Whether [s] is white space from end to end. *)
Fixpoint all_whitespace (s : string) (skip : nat) {struct s} : bool :=
  match s with
  | EmptyString => Nat.eqb skip 0
  | String c s' =>
      match skip with
      | S k => all_whitespace s' k
      | O =>
          match whitespace_at js_whitespace s with
          | O => false
          | S k => all_whitespace s' k
          end
      end
  end.

(** The text up to where only white space follows. *)
Fixpoint trimEnd (s : string) : string :=
  match s with
  | String c s' =>
      if all_whitespace s 0 then EmptyString else String c (trimEnd s')
  | EmptyString => EmptyString
  end.

(** [s.trim()] *)
Definition trim (s : string) : string := trimEnd (trimStart s).

(** [node.title]: the [title] attribute, empty when there is none. *)
Definition title_of (node : Node) : string :=
  match getAttribute node "title" with
  | Some v => v
  | None => EmptyString
  end.

Definition inlineLink_filter (node : Node) (linkStyle : string) : bool :=
  String.eqb linkStyle "inlined"
  && String.eqb (nodeName node) "A"
  && truthy (getAttribute node "href").

(** The replacement function; a [null] from [getAttribute] makes [.trim()]
    throw. *)
Definition inlineLink_replacement (content : string) (node : Node)
    : Outcome string :=
  match getAttribute node "href" with
  | None => Throw (ErrorObject "Cannot read properties of null (reading 'trim')")
  | Some h =>
      let href := trim h in
      let title :=
        if truthy (Some (title_of node))
        then " " ++ str1 DQUOTE ++ title_of node ++ str1 DQUOTE
        else "" in
      Return ("[" ++ trim content ++ "](" ++ href ++ title ++ ")" ++ str1 LF)
  end.

(** Every newline of a text with a backslash put in front of it. *)
Fixpoint escape_newlines (s : string) : string :=
  match s with
  | String c s' =>
      if Ascii.eqb c LF
      then String BACKSLASH (String LF (escape_newlines s'))
      else String c (escape_newlines s')
  | EmptyString => EmptyString
  end.

(** *** The scraping service: the browser, [scrapePage] and the handler

    The service drives a browser.  What the browser answers is not the
    service's to decide: every operation is an event, and an environment
    says, from the events so far (the operation asked for last), what
    awaiting the operation gives: a value, an error, or nothing at all, when
    the promise never settles. *)

Inductive Awaited (A : Type) : Type :=
| Yields (a : A)          (* the promise is fulfilled *)
| Throws (e : Thrown)     (* the promise is rejected, or the call throws *)
| Hangs.                  (* the promise stays pending for ever *)
Arguments Yields {A} a.
Arguments Throws {A} e.
Arguments Hangs {A}.

Record ProxyOptions : Type := mkProxyOptions
  { proxy_server : string;
    proxy_credentials : option (string * string) }.

Inductive PageScript : Type :=
| AutoScrollScript              (* the script of autoScrollPage *)
| SetLazySrcScript              (* handleWechatLazyImages, first script *)
| ReplacePlaceholderScript      (* handleWechatLazyImages, second script *)
| CleanWxImageScript            (* scrapePage, the WeChat image script *)
| ImgStatusScript.              (* scrapePage, the image statistics *)

Inductive JsonBody : Type :=
| ErrorBody (error : string)
| ScrapeBody (content : string) (pageStatusCode : option Z)
             (pageError : option string).

Inductive ApiEvent : Type :=
| Launch                                            (* chromium.launch *)
| NewContext (proxy : option ProxyOptions)          (* browser.newContext *)
| RouteMedia                                        (* context.route, media *)
| RouteAll                                          (* context.route, all *)
| NewPage                                           (* context.newPage *)
| SetExtraHTTPHeaders (headers : list (string * string))
| ClosePage                                         (* page.close *)
| Goto (url waitUntil : string) (timeout : Z)       (* page.goto *)
| WaitForTimeout (ms : Z)                           (* page.waitForTimeout *)
| Evaluate (script : PageScript)                    (* page.evaluate *)
| Click (selector : string)                         (* page.click *)
| WaitForSelector (selector : string) (timeout : Z)
| PageContent                                       (* page.content *)
| AllHeaders                                        (* response.allHeaders *)
| ResponseBody                                      (* response.body *)
| Respond (statusCode : Z) (body : JsonBody).       (* res.status(..).json(..) *)

Record ApiState : Type := mkApiState
  { browser : bool;                 (* the module variable is set *)
    context : bool;
    history : list ApiEvent }.

Record ApiEnv : Type := mkApiEnv
  { BLOCK_MEDIA : bool;
    PROXY_SERVER : option string;
    PROXY_USERNAME : option string;
    PROXY_PASSWORD : option string;
    isValidUrl : string -> bool;                          (* new URL(..) parses *)
    getError : option Z -> option string;                 (* ./helpers/get_error *)
    does : list ApiEvent -> Awaited unit;                 (* operations without a value *)
    goes : list ApiEvent -> Awaited (option Z);           (* page.goto: the status, or no response *)
    reads : list ApiEvent -> Awaited string;              (* page.content, response.body *)
    lists : list ApiEvent -> Awaited (list (string * string)) }.

Definition Api (A : Type) : Type := ApiState -> Awaited A * ApiState.

Definition api_ret {A : Type} (a : A) : Api A := fun st => (Yields a, st).

Definition api_throw {A : Type} (e : Thrown) : Api A := fun st => (Throws e, st).

Definition api_bind {A B : Type} (m : Api A) (f : A -> Api B) : Api B :=
  fun st =>
    match m st with
    | (Yields a, st') => f a st'
    | (Throws e, st') => (Throws e, st')
    | (Hangs, st') => (Hangs, st')
    end.

Definition api_try {A : Type} (body : Api A) (handler : Thrown -> Api A) : Api A :=
  fun st =>
    match body st with
    | (Yields a, st') => (Yields a, st')
    | (Throws e, st') => handler e st'
    | (Hangs, st') => (Hangs, st')
    end.

Declare Scope api_scope.
Delimit Scope api_scope with api.
Notation "x <- m ;; k" := (api_bind m (fun x => k))
  (at level 61, m at next level, right associativity) : api_scope.
Notation "m ;;; k" := (api_bind m (fun _ => k))
  (at level 61, right associativity) : api_scope.

(** An operation of the browser: the event is recorded and the environment
    gives the outcome. *)
Definition perform {A : Type} (ev : ApiEvent)
    (oracle : list ApiEvent -> Awaited A) : Api A :=
  fun st =>
    let h := (history st ++ [ev])%list in
    (oracle h, mkApiState (browser st) (context st) h).

Definition set_browser : Api unit :=
  fun st => (Yields tt, mkApiState true (context st) (history st)).

Definition set_context : Api unit :=
  fun st => (Yields tt, mkApiState (browser st) true (history st)).

(** [contextOptions.proxy] *)
Definition proxyOptions (env : ApiEnv) : option ProxyOptions :=
  if truthy (PROXY_SERVER env) && truthy (PROXY_USERNAME env)
     && truthy (PROXY_PASSWORD env)
  then Some (mkProxyOptions (or_else (PROXY_SERVER env) "")
               (Some (or_else (PROXY_USERNAME env) "",
                      or_else (PROXY_PASSWORD env) "")))
  else if truthy (PROXY_SERVER env)
  then Some (mkProxyOptions (or_else (PROXY_SERVER env) "") None)
  else None.

Definition initializeBrowser (env : ApiEnv) : Api unit :=
  (perform Launch (does env) ;;;
   set_browser ;;;
   perform (NewContext (proxyOptions env)) (does env) ;;;
   set_context ;;;
   (if BLOCK_MEDIA env then perform RouteMedia (does env) else api_ret tt) ;;;
   perform RouteAll (does env))%api.

(** [autoScrollPage]: an error of the script is caught; a script that never
    settles (nothing bounds its run) keeps the function waiting. *)
Definition autoScrollPage (env : ApiEnv) : Api unit :=
  api_try (perform (Evaluate AutoScrollScript) (does env))
          (fun error => api_ret tt).

(** [handleWechatLazyImages]: its errors are caught likewise. *)
Definition handleWechatLazyImages (env : ApiEnv) : Api unit :=
  api_try
    (perform (Evaluate SetLazySrcScript) (does env) ;;;
     perform (WaitForTimeout 2000) (does env) ;;;
     perform (Evaluate ReplacePlaceholderScript) (does env) ;;;
     perform (WaitForTimeout 2000) (does env))%api
    (fun error => api_ret tt).

(** [Object.entries(headers).find(x => x[0].toLowerCase() === "content-type")] *)
Fixpoint findContentType (headers : list (string * string))
    : option (string * string) :=
  match headers with
  | [] => None
  | (name, value) :: rest =>
      if String.eqb (toLowerCase name) "content-type"
      then Some (name, value)
      else findContentType rest
  end.

Record ScrapeResult : Type := mkScrapeResult
  { result_content : string;
    result_status : option Z;
    result_headers : option (list (string * string)) }.

Definition scrapePage (env : ApiEnv) (url waitUntil : string)
    (waitAfterLoad timeout : Z) (checkSelector : option string)
    : Api ScrapeResult :=
  (response <- perform (Goto url waitUntil timeout) (goes env) ;;
   perform (WaitForTimeout 1000) (does env) ;;;
   autoScrollPage env ;;;
   handleWechatLazyImages env ;;;
   api_try (perform (Click "body") (does env)) (fun error => api_ret tt) ;;;
   api_try (perform (Evaluate CleanWxImageScript) (does env))
           (fun error => api_ret tt) ;;;
   (if (0 <? waitAfterLoad)%Z
    then perform (WaitForTimeout waitAfterLoad) (does env)
    else api_ret tt) ;;;
   (if truthy checkSelector
    then api_try
           (perform (WaitForSelector (or_else checkSelector "") timeout) (does env))
           (fun error => api_throw (ErrorObject "Required selector not found"))
    else api_ret tt) ;;;
   api_try (perform (Evaluate ImgStatusScript) (does env))
           (fun error => api_ret tt) ;;;
   content <- perform PageContent (reads env) ;;
   match response with
   | Some status =>
       headers <- perform AllHeaders (lists env) ;;
       let ct := findContentType headers in
       match ct with
       | Some (_, value) =>
           if includes value "application/json" || includes value "text/plain"
           then (content <- perform ResponseBody (reads env) ;;
                 api_ret (mkScrapeResult content (Some status) (Some headers)))
           else api_ret (mkScrapeResult content (Some status) (Some headers))
       | None => api_ret (mkScrapeResult content (Some status) (Some headers))
       end
   | None => api_ret (mkScrapeResult content None None)
   end)%api.

(** The body of a request to [/scrape]; an absent field is [None]. *)
Record UrlModel : Type := mkUrlModel
  { url : option string;
    wait_after_load : option Z;
    timeout : option Z;
    headers : option (list (string * string));
    check_selector : option string }.

Definition or_default (v : option Z) (d : Z) : Z :=
  match v with Some x => x | None => d end.

Definition respond (statusCode : Z) (body : JsonBody) : Api unit :=
  fun st =>
    (Yields tt,
     mkApiState (browser st) (context st)
       (history st ++ [Respond statusCode body])%list).

(** The handler of [POST /scrape]. *)
Definition scrapeHandler (env : ApiEnv) (req : UrlModel) : Api unit :=
  let wait_after_load := or_default (wait_after_load req) 2000 in
  let timeout := or_default (timeout req) 30000 in
  if negb (truthy (url req)) then respond 400 (ErrorBody "URL is required")
  else
    let url := or_else (url req) "" in
    if negb (isValidUrl env url) then respond 400 (ErrorBody "Invalid URL")
    else
      ((fun st =>
          if negb (browser st) || negb (context st)
          then initializeBrowser env st
          else (Yields tt, st)) ;;;
       perform NewPage (does env) ;;;
       match headers req with
       | Some hs => perform (SetExtraHTTPHeaders hs) (does env)
       | None => api_ret tt
       end ;;;
       scraped <-
         api_try
           (result <- scrapePage env url "networkidle" wait_after_load timeout
                        (check_selector req) ;;
            api_ret (Some result))
           (fun error =>
              perform ClosePage (does env) ;;;
              respond 500 (ErrorBody "An error occurred while fetching the page.") ;;;
              api_ret None) ;;
       match scraped with
       | None => api_ret tt
       | Some result =>
           let pageError :=
             if negb (match result_status result with
                      | Some 200%Z => true
                      | _ => false
                      end)
             then getError env (result_status result)
             else None in
           perform ClosePage (does env) ;;;
           respond 200
             (ScrapeBody (result_content result) (result_status result)
                (if truthy pageError then pageError else None))
       end)%api.

(** Classes of events. *)
Definition is_page_work (ev : ApiEvent) : bool :=
  match ev with
  | Goto _ _ _ | WaitForTimeout _ | Evaluate _ | Click _ | WaitForSelector _ _
  | PageContent | AllHeaders | ResponseBody => true
  | _ => false
  end.

Definition is_respond (ev : ApiEvent) : bool :=
  match ev with Respond _ _ => true | _ => false end.

Definition is_new_page (ev : ApiEvent) : bool :=
  match ev with NewPage => true | _ => false end.

Definition is_close_page (ev : ApiEvent) : bool :=
  match ev with ClosePage => true | _ => false end.

Definition tally (f : ApiEvent -> bool) (evs : list ApiEvent) : nat :=
  List.length (filter f evs).

(** [emits P m]: whatever [m] does, it only adds events of the class [P] to
    the history. *)
Definition emits {A : Type} (P : ApiEvent -> bool) (m : Api A) : Prop :=
  forall st o st',
    m st = (o, st') ->
    exists evs, history st' = (history st ++ evs)%list
                /\ forallb P evs = true.

(** [returns m]: [m] always comes back with a value. *)
Definition returns {A : Type} (m : Api A) : Prop :=
  forall st, exists a st', m st = (Yields a, st').

(** [succeeds oracle ev]: the environment never makes the operation [ev]
    throw. *)
Definition succeeds {A : Type} (oracle : list ApiEvent -> Awaited A)
    (ev : ApiEvent) : Prop :=
  forall h, exists a, oracle (h ++ [ev])%list = Yields a.


(** [settles oracle ev]: the operation [ev] always comes back, with a value
    or with an error. *)
Definition settles {A : Type} (oracle : list ApiEvent -> Awaited A)
    (ev : ApiEvent) : Prop :=
  forall h, oracle (h ++ [ev])%list <> Hangs.

(** [hangs m]: [m] never comes back. *)
Definition hangs {A : Type} (m : Api A) : Prop :=
  forall st, exists st', m st = (Hangs, st').

(** [comes_back m]: [m] always comes back, with a value or with an error. *)
Definition comes_back {A : Type} (m : Api A) : Prop :=
  forall st, fst (m st) <> Hangs.



(** [throws_only E m]: what [m] throws is in [E]. *)
Definition throws_only {A : Type} (E : Thrown -> Prop) (m : Api A) : Prop :=
  forall st e st', m st = (Throws e, st') -> E e.

Definition error_of {A : Type} (o : Awaited A) : option Thrown :=
  match o with
  | Throws e => Some e
  | _ => None
  end.

(** The error, if any, the environment answers the operation [ev] with after
    the history [h]. *)
Definition answer_error (env : ApiEnv) (h : list ApiEvent) (ev : ApiEvent)
    : option Thrown :=
  match ev with
  | Goto _ _ _ => error_of (goes env (h ++ [ev])%list)
  | PageContent | ResponseBody => error_of (reads env (h ++ [ev])%list)
  | AllHeaders => error_of (lists env (h ++ [ev])%list)
  | _ => error_of (does env (h ++ [ev])%list)
  end.

(** The operations [scrapePage] runs outside every [try]. *)
Definition is_unguarded (ev : ApiEvent) : bool :=
  match ev with
  | Goto _ _ _ | WaitForTimeout _ | PageContent | AllHeaders | ResponseBody =>
      true
  | _ => false
  end.

Definition is_setup (ev : ApiEvent) : bool :=
  match ev with
  | Launch | NewContext _ | RouteMedia | RouteAll => true
  | _ => false
  end.

(** A browser in which every script and every click fails, and everything
    else works. *)
Definition brittle_page : ApiEnv :=
  mkApiEnv false None None None
    (fun _ => true)
    (fun status => match status with Some 200%Z => None | _ => Some "Error" end)
    (fun h => match last h Launch with
              | Evaluate _ | Click _ => Throws (ErrorObject "page crashed")
              | _ => Yields tt
              end)
    (fun _ => Yields (Some 200%Z))
    (fun h => match last h Launch with
              | ResponseBody => Yields "{}"
              | _ => Yields "<html></html>"
              end)
    (fun _ => Yields [("Content-Type", "application/json")]).


(** A browser that cannot reach the site. *)
Definition unreachable_site : ApiEnv :=
  mkApiEnv false None None None
    (fun _ => true)
    (fun status => match status with Some 200%Z => None | _ => Some "Error" end)
    (fun _ => Yields tt)
    (fun _ => Throws (ErrorObject "net::ERR_NAME_NOT_RESOLVED"))
    (fun _ => Yields "<html></html>")
    (fun _ => Yields []).

Definition fresh_service : ApiState := mkApiState false false [].

(** A browser whose context cannot open a page. *)
Definition browser_without_pages : ApiEnv :=
  mkApiEnv false None None None
    (fun _ => true)
    (fun status => match status with Some 200%Z => None | _ => Some "Error" end)
    (fun h => match last h Launch with
              | NewPage => Throws (ErrorObject "Target closed")
              | _ => Yields tt
              end)
    (fun _ => Yields (Some 200%Z))
    (fun _ => Yields "<html></html>")
    (fun _ => Yields []).

Definition plain_request : UrlModel :=
  mkUrlModel (Some "https://example.com") None None None None.

(** *** The native pre-pass on a lazy image tag

    Character classes over a whole text, and the tag
    [<img src=Q...Q data-src=Q...Q>] with double quotes. *)

(** Every character of [s] is in the class [p]. *)
Fixpoint every (p : ascii -> bool) (s : string) : bool :=
  match s with
  | EmptyString => true
  | String c s' => p c && every p s'
  end.

(** The number of characters of [s] in the class [p]. *)
Fixpoint count_chars (p : ascii -> bool) (s : string) : nat :=
  match s with
  | EmptyString => 0
  | String c s' => (if p c then 1 else 0) + count_chars p s'
  end.

(** Somewhere in [s] a character of the class [p] is directly followed by
    one of the class [q]. *)
Fixpoint followed (p q : ascii -> bool) (s : string) : bool :=
  match s with
  | String c s' =>
      match s' with
      | String d _ => (p c && q d) || followed p q s'
      | EmptyString => false
      end
  | EmptyString => false
  end.

(** A character that is neither a quote nor the end of a tag. *)
Definition attr_char (c : ascii) : bool :=
  negb (is_quote c) && negb (Ascii.eqb c ">").

Definition not_dollar (c : ascii) : bool := negb (Ascii.eqb c "$").

Definition lazy_img (src dataSrc : string) : string :=
  "<img src=" ++ dq src ++ " data-src=" ++ dq dataSrc ++ ">".

(** The two [strings.Replace] calls on the value of [data-src]. *)
Definition cleanDataSrc (dataSrc : string) : string :=
  strings_Replace (strings_Replace dataSrc "&wx_lazy=1" "" (-1))
    "&wx_co=1" "" (-1).

(** *** Skip links as Markdown has them

    The reading of the specification: a Markdown link [[text](target)] whose
    visible text is Skip to Content, in any letter case, and whose target
    begins with a hash sign.  A link target holds no space and no control
    character, and its parentheses are in balance. *)
Fixpoint balanced (depth : nat) (s : string) : bool :=
  match s with
  | EmptyString => Nat.eqb depth 0
  | String c s' =>
      if Ascii.eqb c "(" then balanced (S depth) s'
      else if Ascii.eqb c ")" then
        match depth with
        | O => false
        | S d => balanced d s'
        end
      else balanced depth s'
  end.

Definition target_char (c : ascii) : bool :=
  ((32 <? nat_of_ascii c) && negb (nat_of_ascii c =? 127))%nat.

Definition is_markdown_skip_link (l : string) : bool :=
  let rest := drop 18 l in                      (* from the hash sign on *)
  let target := take (String.length rest - 1) rest in
  starts_nocase l "[Skip to Content](#"
  && String.eqb (drop (String.length rest - 1) rest) ")"
  && every target_char target
  && balanced 0 target.

Definition MarkdownSkipLink (l : string) : Prop :=
  is_markdown_skip_link l = true.

(** Whether some substring of [s] is such a link. *)
Definition holds_markdown_skip_link (s : string) : bool :=
  existsb
    (fun i =>
       existsb (fun n => is_markdown_skip_link (take n (drop i s)))
         (seq 0 (S (String.length s - i))))
    (seq 0 (S (String.length s))).

(** ** Proof automation *)

(** A fact about one character, settled on each of the 256 code units. *)
Ltac by_cases_on_ascii x H :=
  destruct x as [[] [] [] [] [] [] [] []]; first [reflexivity | discriminate H].

(* ================================================================== *)
(** * Part II: theorems                                                *)
(* ================================================================== *)

(** ** Strings *)

Lemma append_nil_r (s : string) : s ++ "" = s.
Proof. induction s as [|c s IH]; simpl; [reflexivity | now rewrite IH]. Qed.

Lemma append_assoc (a b c : string) : (a ++ b) ++ c = a ++ (b ++ c).
Proof. induction a as [|x a IH]; simpl; [reflexivity | now rewrite IH]. Qed.

Lemma length_append (a b : string) :
  String.length (a ++ b) = String.length a + String.length b.
Proof. induction a as [|x a IH]; simpl; [reflexivity | now rewrite IH]. Qed.

Lemma get_append_at (pre : string) (c : ascii) (suf : string) :
  String.get (String.length pre) (pre ++ String c suf) = Some c.
Proof. induction pre as [|x pre IH]; simpl; [reflexivity | exact IH]. Qed.

(** ** Multi-line links *)

Lemma seq_after_prefix (pre : string) (c : ascii) :
  String.length (pre ++ str1 c) = S (String.length pre).
Proof. rewrite length_append; simpl; lia. Qed.

Lemma body_at_prefix (pre : string) (c : ascii) (suf : string) (d : Z) (acc : string) :
  processMultiLineLinks_body (pre ++ String c suf)
    (mkLinkBracketState d acc) (String.length pre)
  = mkLinkBracketState (depth_step d c)
      (acc ++ (if (0 <? depth_step d c)%Z && Ascii.eqb c LF
               then String BACKSLASH (str1 LF) else str1 c)).
Proof.
  unfold processMultiLineLinks_body.
  rewrite get_append_at. cbn [linkOpenCount newMarkdownContent].
  fold (depth_step d c).
  destruct ((0 <? depth_step d c)%Z && Ascii.eqb c LF); reflexivity.
Qed.

(** The index loop, started at position [length pre] in state [(d, acc)],
    appends to [acc] what the scan makes of the rest of the string. *)
Lemma processMultiLineLinks_loop (suf : string) :
  forall (pre : string) (d : Z) (acc : string),
    newMarkdownContent
      (fold_left (processMultiLineLinks_body (pre ++ suf))
                 (seq (String.length pre) (String.length suf))
                 (mkLinkBracketState d acc))
    = acc ++ escape_scan d suf.
Proof.
  induction suf as [|c suf IH]; intros pre d acc.
  - simpl. now rewrite append_nil_r.
  - cbn [String.length seq fold_left].
    rewrite body_at_prefix.
    rewrite <- (seq_after_prefix pre c).
    replace (pre ++ String c suf) with ((pre ++ str1 c) ++ suf)
      by (rewrite append_assoc; reflexivity).
    rewrite IH. cbn [escape_scan].
    destruct ((0 <? depth_step d c)%Z && Ascii.eqb c LF);
      rewrite append_assoc; reflexivity.
Qed.

Lemma processMultiLineLinks_scan (s : string) :
  processMultiLineLinks s = escape_scan 0 s.
Proof.
  unfold processMultiLineLinks.
  exact (processMultiLineLinks_loop s EmptyString 0%Z EmptyString).
Qed.

Lemma escape_scan_no_brackets (s : string) :
  no_brackets s = true -> escape_scan 0 s = s.
Proof.
  induction s as [|c s IH]; simpl; intros H; [reflexivity|].
  apply andb_true_iff in H as [H Hs].
  apply andb_true_iff in H as [Ho Hc].
  apply negb_true_iff in Ho, Hc.
  unfold depth_step. rewrite Ho, Hc. simpl.
  now rewrite IH.
Qed.

(** The depth never goes below zero. *)
Lemma depth_step_nonneg (d : Z) (c : ascii) :
  (0 <= d)%Z -> (0 <= depth_step d c)%Z.
Proof.
  unfold depth_step; intros H.
  destruct (Ascii.eqb c "["); [lia|].
  destruct (Ascii.eqb c "]"); lia.
Qed.

Lemma concat_empty_cons (x : string) (l : list string) :
  String.concat "" (x :: l) = x ++ String.concat "" l.
Proof.
  destruct l as [|y l]; cbn [String.concat].
  - now rewrite append_nil_r.
  - reflexivity.
Qed.

Lemma take_append_one (pre : string) (c : ascii) (suf : string) :
  take (S (String.length pre)) (pre ++ String c suf) = pre ++ str1 c.
Proof.
  induction pre as [|x pre IH]; [reflexivity|].
  simpl. f_equal. exact IH.
Qed.

Lemma depth_of_append_one (pre : string) (c : ascii) (d : Z) :
  fold_left depth_step (list_ascii_of_string (pre ++ str1 c)) d
  = depth_step (fold_left depth_step (list_ascii_of_string pre) d) c.
Proof.
  revert d; induction pre as [|x pre IH]; intros d; [reflexivity|].
  simpl. apply IH.
Qed.

(** Position by position: the pieces [rewritten] gives for the positions of
    [suf] inside [pre ++ suf] are what the scan makes of [suf], started at the
    depth [pre] leaves. *)
Lemma rewritten_pieces (suf : string) :
  forall pre : string,
    String.concat "" (map (rewritten (pre ++ suf))
                          (seq (String.length pre) (String.length suf)))
    = escape_scan (fold_left depth_step (list_ascii_of_string pre) 0%Z) suf.
Proof.
  induction suf as [|c suf IH]; intros pre; [reflexivity|].
  cbn [String.length seq map].
  assert (Hhead : rewritten (pre ++ String c suf) (String.length pre)
                  = if (0 <? depth_step (fold_left depth_step (list_ascii_of_string pre) 0%Z) c)%Z
                       && Ascii.eqb c LF
                    then String BACKSLASH (str1 LF) else str1 c).
  { unfold rewritten, depth_at.
    now rewrite get_append_at, take_append_one, depth_of_append_one. }
  assert (Htail : String.concat "" (map (rewritten (pre ++ String c suf))
                     (seq (S (String.length pre)) (String.length suf)))
                  = escape_scan (depth_step (fold_left depth_step (list_ascii_of_string pre) 0%Z) c) suf).
  { rewrite <- (seq_after_prefix pre c).
    replace (pre ++ String c suf) with ((pre ++ str1 c) ++ suf)
      by (rewrite append_assoc; reflexivity).
    rewrite IH. now rewrite depth_of_append_one. }
  rewrite concat_empty_cons, Hhead, Htail. cbn [escape_scan].
  destruct ((0 <? depth_step _ c)%Z && Ascii.eqb c LF); reflexivity.
Qed.

Lemma depth_fold_nonneg (l : list ascii) (d : Z) :
  (0 <= d)%Z -> (0 <= fold_left depth_step l d)%Z.
Proof.
  revert d; induction l as [|c l IH]; intros d Hd; simpl; [exact Hd|].
  apply IH, depth_step_nonneg, Hd.
Qed.

(** C3. [processMultiLineLinks] is a single left-to-right scan that keeps a
    bracket depth (up on an opening bracket, down but never below zero on a
    closing one) and puts backslash, newline for every newline met at a
    positive depth, leaving every other character as it is.  The transform
    turns [[a<LF>b](http://x)] into [[a\<LF>b](http://x)], and it is the identity
    on a text without square brackets. *)
Theorem processMultiLineLinks_bracket_scan :
  (forall s, processMultiLineLinks s = escape_scan 0 s)
  /\ (forall s,
        processMultiLineLinks s
        = String.concat "" (map (rewritten s) (seq 0 (String.length s))))
  /\ (forall s i, (0 <= depth_at s i)%Z)
  /\ processMultiLineLinks ("[a" ++ str1 LF ++ "b](http://x)")
     = "[a" ++ str1 BACKSLASH ++ str1 LF ++ "b](http://x)"
  /\ (forall s, no_brackets s = true -> processMultiLineLinks s = s).
Proof.
  split; [exact processMultiLineLinks_scan|].
  split.
  { intros s. rewrite processMultiLineLinks_scan.
    symmetry. exact (rewritten_pieces s EmptyString). }
  split.
  { intros s i. unfold depth_at. apply depth_fold_nonneg. lia. }
  split.
  { rewrite processMultiLineLinks_scan. reflexivity. }
  intros s H. rewrite processMultiLineLinks_scan.
  now apply escape_scan_no_brackets.
Qed.

Lemma processMultiLineLinks_bracket_scan_witness :
  no_brackets ("plain" ++ str1 LF ++ "text") = true
  /\ processMultiLineLinks ("plain" ++ str1 LF ++ "text")
     = "plain" ++ str1 LF ++ "text".
Proof.
  split; [reflexivity|].
  apply (proj2 (proj2 (proj2 (proj2 processMultiLineLinks_bracket_scan)))).
  reflexivity.
Defined.

(** C10. [processMultiLineLinks] is not idempotent: on [[a<LF>b](x)] the first
    pass gives [[a\<LF>b](x)], and the second pass escapes the same newline
    again, which leaves two backslashes before it. *)
Theorem processMultiLineLinks_not_idempotent :
  exists s : string,
    s = "[a" ++ str1 LF ++ "b](x)"
    /\ processMultiLineLinks s = "[a" ++ str1 BACKSLASH ++ str1 LF ++ "b](x)"
    /\ processMultiLineLinks (processMultiLineLinks s)
       = "[a" ++ str1 BACKSLASH ++ str1 BACKSLASH ++ str1 LF ++ "b](x)"
    /\ processMultiLineLinks (processMultiLineLinks s) <> processMultiLineLinks s.
Proof.
  exists ("[a" ++ str1 LF ++ "b](x)").
  split; [reflexivity|].
  assert (H1 : processMultiLineLinks ("[a" ++ str1 LF ++ "b](x)")
               = "[a" ++ str1 BACKSLASH ++ str1 LF ++ "b](x)").
  { rewrite processMultiLineLinks_scan. reflexivity. }
  assert (H2 : processMultiLineLinks ("[a" ++ str1 BACKSLASH ++ str1 LF ++ "b](x)")
               = "[a" ++ str1 BACKSLASH ++ str1 BACKSLASH ++ str1 LF ++ "b](x)").
  { rewrite processMultiLineLinks_scan. reflexivity. }
  split; [exact H1|].
  rewrite H1. split; [exact H2|].
  rewrite H2. discriminate.
Qed.

(** ** Regular expressions: what the matcher computes *)

Lemma length_take_drop (n : nat) (s : string) :
  take n s ++ drop n s = s.
Proof.
  revert s; induction n as [|n IH]; intros [|c s]; simpl; try reflexivity.
  now rewrite IH.
Qed.

Lemma length_drop (n : nat) (s : string) :
  String.length (drop n s) = String.length s - n.
Proof.
  revert s; induction n as [|n IH]; intros [|c s]; simpl; try reflexivity.
  apply IH.
Qed.

Lemma drop_append_length (a b : string) : drop (String.length a) (a ++ b) = b.
Proof. induction a as [|x a IH]; simpl; [reflexivity | exact IH]. Qed.

Lemma take_append_length (a b : string) : take (String.length a) (a ++ b) = a.
Proof. induction a as [|x a IH]; simpl; [reflexivity | now rewrite IH]. Qed.

(** Passing over [n] characters and then scanning is scanning what is left. *)
Lemma replace_scan_skip (r : regex) (f : string -> string) (s : string) :
  forall n, n <= String.length s ->
    replace_scan r f s n = replace_scan r f (drop n s) 0.
Proof.
  induction s as [|c s IH]; intros n Hn.
  - simpl in Hn. assert (n = 0) by lia. subst n. reflexivity.
  - destruct n as [|n]; [reflexivity|].
    cbn [replace_scan drop]. apply IH. simpl in Hn. lia.
Qed.

Lemma re_match_lit_i {R : Type} (p : string) :
  forall (s : string) (cs : captures) (k : string -> captures -> option R),
    re_match (lit_i p) s cs k
    = if starts_nocase s p then k (drop (String.length p) s) cs else None.
Proof.
  induction p as [|c p IH]; intros s cs k.
  - reflexivity.
  - cbn [lit_i re_match]. destruct s as [|x s]; [reflexivity|].
    cbn [starts_nocase String.length drop]. unfold only_i.
    destruct (Ascii.eqb (canonicalize x) (canonicalize c)); [|reflexivity].
    apply IH.
Qed.

Lemma re_match_lit {R : Type} (p : string) :
  forall (s : string) (cs : captures) (k : string -> captures -> option R),
    re_match (lit p) s cs k
    = if startsWith s p then k (drop (String.length p) s) cs else None.
Proof.
  induction p as [|c p IH]; intros s cs k.
  - reflexivity.
  - cbn [lit re_match]. destruct s as [|x s]; [reflexivity|].
    cbn [startsWith String.length drop]. unfold only.
    destruct (Ascii.eqb c x); [|reflexivity].
    apply IH.
Qed.

(** A greedy run of characters other than the closing parenthesis, followed
    by that parenthesis, ends at the first closing parenthesis. *)
Lemma rep_match_close {R : Type} (k : string -> option R) (s : string) :
  rep_match (except ")")
    (fun s' => match s' with
               | String c s'' => if only ")" c then k s'' else None
               | EmptyString => None
               end) s
  = match after_close s with
    | Some rest => k rest
    | None => None
    end.
Proof.
  induction s as [|c s IH]; [reflexivity|].
  cbn [rep_match after_close]. unfold except, only.
  destruct (Ascii.eqb ")" c) eqn:E; cbn [negb]; [reflexivity|].
  unfold except, only in IH. rewrite IH.
  destruct (after_close s) as [rest|]; [|reflexivity].
  destruct (k rest); reflexivity.
Qed.

Lemma match_here_skipToContentRegex (s : string) :
  match_here skipToContentRegex s
  = match skip_link_at s with
    | Some n => Some (n, [])
    | None => None
    end.
Proof.
  unfold match_here, skipToContentRegex, skip_link_at.
  cbn [re_match]. rewrite re_match_lit_i.
  destruct (starts_nocase s "[Skip to Content](#"); [|reflexivity].
  change (String.length "[Skip to Content](#") with 19.
  rewrite (rep_match_close
             (fun rest => Some (String.length s - String.length rest,
                                @nil (nat * string)))).
  destruct (after_close (drop 19 s)); reflexivity.
Qed.

(** ** Skip-to-content links *)

Lemma after_close_split (t rest : string) :
  after_close t = Some rest ->
  exists target, t = target ++ String ")" rest /\ has_char ")" target = false.
Proof.
  revert rest; induction t as [|c t IH]; intros rest H; [discriminate|].
  cbn [after_close] in H. destruct (Ascii.eqb ")" c) eqn:E.
  - apply Ascii.eqb_eq in E. subst c. injection H as ->.
    exists EmptyString. split; reflexivity.
  - destruct (IH rest H) as [target [-> Hno]].
    exists (String c target). split; [reflexivity|].
    cbn [has_char]. now rewrite E, Hno.
Qed.

Lemma after_close_append (target rest : string) :
  has_char ")" target = false ->
  after_close (target ++ String ")" rest) = Some rest.
Proof.
  induction target as [|c target IH]; intros H; [reflexivity|].
  cbn [has_char] in H. apply orb_false_iff in H as [Hc Ht].
  cbn [append after_close]. rewrite Hc. now apply IH.
Qed.

Lemma eqb_nocase_length (a b : string) :
  eqb_nocase a b = true -> String.length a = String.length b.
Proof.
  revert b; induction a as [|x a IH]; intros [|y b] H; try discriminate; [reflexivity|].
  cbn [eqb_nocase] in H. apply andb_true_iff in H as [_ H].
  simpl. f_equal. now apply IH.
Qed.

Lemma starts_nocase_take (p s : string) :
  starts_nocase s p = true -> eqb_nocase (take (String.length p) s) p = true.
Proof.
  revert s; induction p as [|c p IH]; intros s H; [reflexivity|].
  destruct s as [|x s]; [discriminate|].
  cbn [starts_nocase] in H. apply andb_true_iff in H as [Hx H].
  cbn [String.length take eqb_nocase]. rewrite Hx. now apply IH.
Qed.

Lemma starts_nocase_append (a p rest : string) :
  eqb_nocase a p = true -> starts_nocase (a ++ rest) p = true.
Proof.
  revert a; induction p as [|c p IH]; intros a H; [reflexivity|].
  destruct a as [|x a]; [discriminate|].
  cbn [eqb_nocase] in H. apply andb_true_iff in H as [Hx H].
  cbn [append starts_nocase]. rewrite Hx. now apply IH.
Qed.

Lemma eqb_nocase_append (sa a sb b : string) :
  eqb_nocase sa a = true -> eqb_nocase sb b = true ->
  eqb_nocase (sa ++ sb) (a ++ b) = true.
Proof.
  revert a; induction sa as [|x sa IH]; intros [|y a] Ha Hb; try discriminate;
    [exact Hb|].
  cbn [eqb_nocase] in Ha. apply andb_true_iff in Ha as [Hx Ha].
  cbn [append eqb_nocase]. rewrite Hx. now apply IH.
Qed.

Lemma eqb_nocase_append_inv (a b s : string) :
  eqb_nocase s (a ++ b) = true ->
  exists sa sb, s = sa ++ sb /\ eqb_nocase sa a = true /\ eqb_nocase sb b = true.
Proof.
  revert s; induction a as [|y a IH]; intros s H.
  - exists EmptyString, s. repeat split; assumption.
  - destruct s as [|x s]; [discriminate|].
    cbn [append eqb_nocase] in H. apply andb_true_iff in H as [Hx H].
    destruct (IH s H) as [sa [sb [-> [Ha Hb]]]].
    exists (String x sa), sb. repeat split; [|exact Hb].
    cbn [eqb_nocase]. now rewrite Hx, Ha.
Qed.

(** The four punctuation marks of the pattern have no other case. *)
Lemma canonical_open_bracket (x : ascii) :
  Ascii.eqb (canonicalize x) (canonicalize "[") = true -> x = "["%char.
Proof. intros H. by_cases_on_ascii x H. Qed.

Lemma canonical_close_bracket (x : ascii) :
  Ascii.eqb (canonicalize x) (canonicalize "]") = true -> x = "]"%char.
Proof. intros H. by_cases_on_ascii x H. Qed.

Lemma canonical_open_paren (x : ascii) :
  Ascii.eqb (canonicalize x) (canonicalize "(") = true -> x = "("%char.
Proof. intros H. by_cases_on_ascii x H. Qed.

Lemma canonical_hash (x : ascii) :
  Ascii.eqb (canonicalize x) (canonicalize "#") = true -> x = "#"%char.
Proof. intros H. by_cases_on_ascii x H. Qed.

Lemma eqb_nocase_open (s : string) : eqb_nocase s "[" = true -> s = "[".
Proof.
  destruct s as [|x [|y s]]; try discriminate.
  - cbn [eqb_nocase]. rewrite andb_true_r. intros H.
    now rewrite (canonical_open_bracket x H).
  - cbn [eqb_nocase]. rewrite andb_false_r. discriminate.
Qed.

Lemma eqb_nocase_middle (s : string) : eqb_nocase s "](#" = true -> s = "](#".
Proof.
  destruct s as [|x [|y [|z [|w s]]]]; try discriminate.
  - cbn [eqb_nocase]. rewrite !andb_false_r. discriminate.
  - cbn [eqb_nocase]. rewrite !andb_false_r. discriminate.
  - cbn [eqb_nocase]. rewrite andb_true_r. intros H.
    apply andb_true_iff in H as [Hx H]. apply andb_true_iff in H as [Hy Hz].
    now rewrite (canonical_close_bracket x Hx), (canonical_open_paren y Hy),
      (canonical_hash z Hz).
  - cbn [eqb_nocase]. rewrite !andb_false_r. discriminate.
Qed.

(** Where the direct computation finds a link of length [n], the first [n]
    characters are a skip link. *)
Lemma skip_link_at_sound (s : string) (n : nat) :
  skip_link_at s = Some n ->
  0 < n /\ n <= String.length s /\ SkipLink (take n s).
Proof.
  unfold skip_link_at.
  destruct (starts_nocase s "[Skip to Content](#") eqn:Hp; [|discriminate].
  destruct (after_close (drop 19 s)) as [rest|] eqn:Hc; [|discriminate].
  intros H; injection H as <-.
  destruct (after_close_split _ _ Hc) as [target [Hd Hno]].
  pose proof (starts_nocase_take _ _ Hp) as Hq.
  change (String.length "[Skip to Content](#") with 19 in Hq.
  pose proof (eqb_nocase_length _ _ Hq) as Hlen.
  change (String.length "[Skip to Content](#") with 19 in Hlen.
  assert (Hs : s = take 19 s ++ target ++ String ")" rest).
  { rewrite <- Hd. symmetry. apply length_take_drop. }
  change "[Skip to Content](#" with ("[" ++ "Skip to Content" ++ "](#") in Hq.
  destruct (eqb_nocase_append_inv _ _ _ Hq) as [s1 [s23 [H123 [H1 H23]]]].
  destruct (eqb_nocase_append_inv _ _ _ H23) as [text [s3 [-> [Htext H3]]]].
  apply eqb_nocase_open in H1. apply eqb_nocase_middle in H3. subst s1 s3.
  assert (Hn : String.length s - String.length rest
               = String.length (take 19 s ++ target ++ ")")).
  { rewrite Hs at 1. rewrite !length_append. simpl. lia. }
  split; [rewrite Hn, !length_append; simpl; lia|].
  split; [lia|].
  rewrite Hn. rewrite Hs at 2.
  replace (take 19 s ++ target ++ String ")" rest)
    with ((take 19 s ++ target ++ ")") ++ rest)
    by (rewrite !append_assoc; reflexivity).
  rewrite take_append_length.
  exists text, target. rewrite H123.
  split; [|split; assumption].
  rewrite !append_assoc. reflexivity.
Qed.

(** A skip link at the head of a text is what the direct computation finds. *)
Lemma skip_link_at_complete (l rest : string) :
  SkipLink l -> skip_link_at (l ++ rest) = Some (String.length l).
Proof.
  intros [text [target [-> [Htext Hno]]]].
  assert (Hp : eqb_nocase ("[" ++ text ++ "](#") "[Skip to Content](#" = true).
  { change "[Skip to Content](#" with ("[" ++ "Skip to Content" ++ "](#").
    apply eqb_nocase_append; [reflexivity|].
    apply eqb_nocase_append; [exact Htext | reflexivity]. }
  pose proof (eqb_nocase_length _ _ Hp) as Hlen.
  change (String.length "[Skip to Content](#") with 19 in Hlen.
  assert (Hs : ("[" ++ text ++ "](#" ++ target ++ ")") ++ rest
               = ("[" ++ text ++ "](#") ++ target ++ String ")" rest).
  { rewrite !append_assoc. reflexivity. }
  unfold skip_link_at. rewrite Hs.
  rewrite (starts_nocase_append _ _ _ Hp).
  rewrite <- Hlen, drop_append_length.
  rewrite (after_close_append _ _ Hno).
  f_equal. rewrite <- Hs, length_append. lia.
Qed.

Lemma removeSkipToContentLinks_keep (c : ascii) (s : string) :
  skip_link_at (String c s) = None ->
  removeSkipToContentLinks (String c s) = String c (removeSkipToContentLinks s).
Proof.
  intros H. unfold removeSkipToContentLinks, js_replace_global.
  cbn [replace_scan]. rewrite match_here_skipToContentRegex, H. reflexivity.
Qed.

Lemma removeSkipToContentLinks_drop (s : string) (n : nat) :
  skip_link_at s = Some n ->
  removeSkipToContentLinks s = removeSkipToContentLinks (drop n s).
Proof.
  intros H. destruct (skip_link_at_sound _ _ H) as [Hpos [Hle _]].
  unfold removeSkipToContentLinks, js_replace_global.
  destruct s as [|c s]; [simpl in Hle; lia|].
  cbn [replace_scan]. rewrite match_here_skipToContentRegex, H.
  destruct n as [|k]; [lia|].
  cbn [append drop]. apply replace_scan_skip. simpl in Hle. lia.
Qed.

(** The output is the one the left-to-right reading describes. *)
Lemma removeSkipToContentLinks_removes (n : nat) :
  forall s, String.length s <= n ->
    removes_skip_links s (removeSkipToContentLinks s).
Proof.
  induction n as [|n IH]; intros s Hn.
  - destruct s; [|simpl in Hn; lia]. constructor.
  - destruct s as [|c s]; [constructor|].
    destruct (skip_link_at (String c s)) as [k|] eqn:Hk.
    + destruct (skip_link_at_sound _ _ Hk) as [Hpos [Hle Hlink]].
      rewrite (removeSkipToContentLinks_drop _ _ Hk).
      rewrite <- (length_take_drop k (String c s)) at 1.
      apply rsl_drop; [exact Hlink|].
      apply IH. rewrite length_drop.
      change (String.length (String c s)) with (S (String.length s)) in *. lia.
    + rewrite (removeSkipToContentLinks_keep _ _ Hk).
      apply rsl_keep.
      * intros l rest Hs Hl.
        pose proof (skip_link_at_complete l rest Hl) as Hc.
        rewrite <- Hs, Hk in Hc. discriminate.
      * apply IH. simpl in Hn. lia.
Qed.

(** The left-to-right reading leaves no choice. *)
Lemma removes_skip_links_unique (s out : string) :
  removes_skip_links s out -> out = removeSkipToContentLinks s.
Proof.
  induction 1 as [|c s out Hno _ IH|l rest out Hl _ IH].
  - reflexivity.
  - destruct (skip_link_at (String c s)) as [k|] eqn:Hk.
    + destruct (skip_link_at_sound _ _ Hk) as [_ [_ Hlink]].
      exfalso. apply (Hno (take k (String c s)) (drop k (String c s))).
      * symmetry. apply length_take_drop.
      * exact Hlink.
    + rewrite (removeSkipToContentLinks_keep _ _ Hk). now rewrite IH.
  - rewrite (removeSkipToContentLinks_drop _ _ (skip_link_at_complete l rest Hl)).
    now rewrite drop_append_length.
Qed.

Lemma skip_link_at_not_bracket (c : ascii) (s : string) :
  Ascii.eqb "[" c = false -> skip_link_at (String c s) = None.
Proof.
  intros H. unfold skip_link_at. cbn [starts_nocase].
  destruct (Ascii.eqb (canonicalize c) (canonicalize "[")) eqn:E; [|reflexivity].
  apply canonical_open_bracket in E. subst c. discriminate.
Qed.

Lemma removeSkipToContentLinks_plain_prefix (pre s : string) :
  has_char "[" pre = false ->
  removeSkipToContentLinks (pre ++ s) = pre ++ removeSkipToContentLinks s.
Proof.
  induction pre as [|c pre IH]; intros H; [reflexivity|].
  cbn [has_char] in H. apply orb_false_iff in H as [Hc Hpre].
  cbn [append].
  rewrite (removeSkipToContentLinks_keep _ _ (skip_link_at_not_bracket _ _ Hc)).
  now rewrite IH.
Qed.

Lemma removeSkipToContentLinks_no_link (s : string) :
  forall pre,
    (forall before l after, pre ++ s = before ++ l ++ after -> ~ SkipLink l) ->
    removeSkipToContentLinks s = s.
Proof.
  induction s as [|c s IH]; intros pre H; [reflexivity|].
  destruct (skip_link_at (String c s)) as [k|] eqn:Hk.
  - destruct (skip_link_at_sound _ _ Hk) as [_ [_ Hlink]].
    exfalso.
    apply (H pre (take k (String c s)) (drop k (String c s))); [|exact Hlink].
    now rewrite length_take_drop.
  - rewrite (removeSkipToContentLinks_keep _ _ Hk). f_equal.
    apply (IH (pre ++ str1 c)). intros before l after Hs.
    apply (H before l after). rewrite <- Hs, append_assoc. reflexivity.
Qed.

(** *** Every skip link of the input lies in removed text *)

Lemma length_take (n : nat) (s : string) :
  n <= String.length s -> String.length (take n s) = n.
Proof.
  revert s; induction n as [|n IH]; intros [|c s] H; simpl in *; try reflexivity.
  - lia.
  - f_equal. apply IH. lia.
Qed.

Lemma take_append_le (n : nat) (a b : string) :
  n <= String.length a -> take n (a ++ b) = take n a.
Proof.
  revert a; induction n as [|n IH]; intros [|c a] H; simpl in *; try reflexivity.
  - lia.
  - f_equal. apply IH. lia.
Qed.

Lemma drop_append_le (n : nat) (a b : string) :
  n <= String.length a -> drop n (a ++ b) = drop n a ++ b.
Proof.
  revert a; induction n as [|n IH]; intros [|c a] H; simpl in *; try reflexivity.
  - lia.
  - apply IH. lia.
Qed.

Lemma take_take (j m : nat) (s : string) :
  j <= m -> take j (take m s) = take j s.
Proof.
  revert m s; induction j as [|j IH]; intros [|m] [|c s] H; simpl;
    try reflexivity; try lia.
  f_equal. apply IH. lia.
Qed.

Lemma drop_take (m k : nat) (s : string) :
  drop m (take (m + k) s) = take k (drop m s).
Proof.
  revert s; induction m as [|m IH]; intros s; [reflexivity|].
  destruct s as [|c s]; simpl; [destruct k; reflexivity | apply IH].
Qed.

Lemma has_char_append (c : ascii) (a b : string) :
  has_char c (a ++ b) = has_char c a || has_char c b.
Proof.
  induction a as [|x a IH]; [reflexivity|].
  cbn [append has_char]. now rewrite IH, orb_assoc.
Qed.

Lemma has_char_take (c : ascii) (j : nat) (a : string) :
  has_char c a = false -> has_char c (take j a) = false.
Proof.
  revert a; induction j as [|j IH]; intros [|x a] H; try reflexivity.
  cbn [has_char] in H. apply orb_false_iff in H as [Hx Ha].
  cbn [take has_char]. now rewrite Hx, IH.
Qed.

Lemma canonical_close_paren (x : ascii) :
  Ascii.eqb (canonicalize x) ")" = true -> x = ")"%char.
Proof. intros H. by_cases_on_ascii x H. Qed.

Lemma eqb_nocase_no_close (a b : string) :
  eqb_nocase a b = true -> has_char ")" b = false -> has_char ")" a = false.
Proof.
  revert b; induction a as [|x a IH]; intros [|y b] H Hb; try discriminate;
    [reflexivity|].
  cbn [eqb_nocase] in H. apply andb_true_iff in H as [Hxy H].
  cbn [has_char] in Hb. apply orb_false_iff in Hb as [Hy Hb].
  cbn [has_char]. rewrite (IH b H Hb), orb_false_r.
  destruct (Ascii.eqb ")" x) eqn:Hx; [|reflexivity].
  apply Ascii.eqb_eq in Hx. subst x.
  rewrite Ascii.eqb_sym in Hxy. apply canonical_close_paren in Hxy.
  subst y. discriminate Hy.
Qed.

Lemma after_close_skip (a b : string) :
  has_char ")" a = false -> after_close (a ++ b) = after_close b.
Proof.
  induction a as [|x a IH]; intros H; [reflexivity|].
  cbn [has_char] in H. apply orb_false_iff in H as [Hx Ha].
  cbn [append after_close]. rewrite Hx. now apply IH.
Qed.

(** A skip link has one closing parenthesis, its last character. *)
Lemma SkipLink_body (l : string) :
  SkipLink l -> exists body, l = body ++ ")" /\ has_char ")" body = false.
Proof.
  intros [text [target [-> [Htext Hno]]]].
  exists ("[" ++ text ++ "](#" ++ target). split.
  - rewrite !append_assoc. reflexivity.
  - rewrite !has_char_append, Hno.
    rewrite (eqb_nocase_no_close _ _ Htext eq_refl). reflexivity.
Qed.

Lemma skip_link_at_extend (a b : string) (m : nat) :
  skip_link_at a = Some m -> skip_link_at (a ++ b) = Some m.
Proof.
  intros H. destruct (skip_link_at_sound _ _ H) as [_ [Hle Hlink]].
  rewrite <- (length_take_drop m a), append_assoc.
  rewrite (skip_link_at_complete _ _ Hlink). now rewrite length_take.
Qed.

Lemma take_all (j : nat) (s : string) :
  String.length s <= j -> take j s = s.
Proof.
  revert j; induction s as [|c s IH]; intros [|j] H; simpl in *;
    try reflexivity; try lia.
  f_equal. apply IH. lia.
Qed.

Lemma skip_link_at_prefix (s : string) (m j : nat) :
  skip_link_at s = Some m -> m <= j -> skip_link_at (take j s) = Some m.
Proof.
  intros H Hj. destruct (skip_link_at_sound _ _ H) as [_ [Hle Hlink]].
  destruct (Nat.le_gt_cases j (String.length s)) as [Hjs|Hjs].
  - rewrite <- (length_take_drop m (take j s)), take_take by exact Hj.
    rewrite (skip_link_at_complete _ _ Hlink). now rewrite length_take.
  - rewrite take_all by lia. exact H.
Qed.

(** A match that begins before a skip link and reaches into it ends where
    the link ends. *)
Lemma skip_link_at_reaches_link (pre l post : string) (m : nat) :
  SkipLink l ->
  skip_link_at (pre ++ l ++ post) = Some m ->
  String.length pre < m ->
  m = String.length pre + String.length l.
Proof.
  intros Hl Hm Hlt.
  destruct (skip_link_at_sound _ _ Hm) as [_ [Hle Hlink]].
  destruct (SkipLink_body _ Hlink) as [body [Hbody Hno]].
  destruct (SkipLink_body _ Hl) as [lbody [-> Hlno]].
  set (s := pre ++ (lbody ++ ")") ++ post) in *.
  assert (Hlen : String.length body + 1 = m).
  { rewrite <- (length_take m s Hle), Hbody, length_append. reflexivity. }
  assert (Hpre : has_char ")" pre = false).
  { replace pre with (take (String.length pre) body).
    - now apply has_char_take.
    - rewrite <- (take_append_le _ body ")") by lia.
      rewrite <- Hbody, take_take by lia.
      unfold s. apply take_append_length. }
  assert (H1 : after_close s = Some post).
  { unfold s. rewrite (after_close_skip _ _ Hpre), append_assoc.
    now apply after_close_append. }
  assert (H2 : after_close s = Some (drop m s)).
  { rewrite <- (length_take_drop m s) at 1. rewrite Hbody, append_assoc.
    now apply after_close_append. }
  rewrite H1 in H2. injection H2 as Hpost.
  apply (f_equal String.length) in Hpost. rewrite length_drop in Hpost.
  unfold s in Hpost, Hle. rewrite !length_append in Hpost, Hle.
  rewrite !length_append. lia.
Qed.

(** Whatever stands before a skip link, the link contributes nothing to the
    output and the text after it is processed on its own: the output is that
    of some prefix of the text before the link, followed by the output for
    the text after it. *)
Lemma removeSkipToContentLinks_through_link (n : nat) :
  forall pre, String.length pre <= n ->
  forall l post, SkipLink l ->
    exists k, k <= String.length pre
              /\ removeSkipToContentLinks (pre ++ l ++ post)
                 = removeSkipToContentLinks (take k pre)
                   ++ removeSkipToContentLinks post.
Proof.
  assert (Hbase : forall l post, SkipLink l ->
            removeSkipToContentLinks ("" ++ l ++ post)
            = removeSkipToContentLinks (take 0 "") ++ removeSkipToContentLinks post).
  { intros l post Hl. cbn [append take].
    rewrite (removeSkipToContentLinks_drop _ _ (skip_link_at_complete l post Hl)).
    now rewrite drop_append_length. }
  induction n as [|n IH]; intros pre Hn l post Hl.
  - destruct pre; [|simpl in Hn; lia].
    exists 0. split; [lia|]. now apply Hbase.
  - destruct pre as [|c pre']; [exists 0; split; [lia | now apply Hbase]|].
    destruct (skip_link_at (String c pre' ++ l ++ post)) as [m|] eqn:Hm.
    + destruct (skip_link_at_sound _ _ Hm) as [Hpos [Hle _]].
      destruct (Nat.le_gt_cases m (String.length (String c pre'))) as [Hin|Hout].
      * (* the match lies in the text before the link *)
        rewrite (removeSkipToContentLinks_drop _ _ Hm).
        rewrite drop_append_le by exact Hin.
        destruct (IH (drop m (String c pre'))) with (l := l) (post := post)
          as [k [Hk HR]]; [|exact Hl|].
        { rewrite length_drop.
          change (String.length (String c pre')) with (S (String.length pre')) in *.
          lia. }
        rewrite length_drop in Hk.
        exists (m + k). split; [lia|].
        assert (Hpre : skip_link_at (take (m + k) (String c pre')) = Some m).
        { rewrite <- (take_append_le (m + k) (String c pre') (l ++ post)) by lia.
          apply skip_link_at_prefix; [exact Hm | lia]. }
        rewrite (removeSkipToContentLinks_drop _ _ Hpre), drop_take.
        exact HR.
      * (* the match reaches the link and ends with it *)
        pose proof (skip_link_at_reaches_link _ _ _ _ Hl Hm Hout) as ->.
        rewrite (removeSkipToContentLinks_drop _ _ Hm).
        exists 0. split; [lia|].
        change (removeSkipToContentLinks (take 0 (String c pre'))
                ++ removeSkipToContentLinks post)
          with (removeSkipToContentLinks post).
        f_equal.
        replace (String c pre' ++ l ++ post) with ((String c pre' ++ l) ++ post)
          by apply append_assoc.
        rewrite <- length_append. apply drop_append_length.
    + cbn [append] in Hm |- *.
      rewrite (removeSkipToContentLinks_keep _ _ Hm).
      destruct (IH pre') with (l := l) (post := post) as [k [Hk HR]];
        [simpl in Hn; lia | exact Hl |].
      exists (S k). split; [simpl; lia|]. cbn [take].
      assert (Hnone : skip_link_at (String c (take k pre')) = None).
      { destruct (skip_link_at (String c (take k pre'))) as [j|] eqn:Hj;
          [|reflexivity].
        apply skip_link_at_extend with (b := drop k pre' ++ l ++ post) in Hj.
        cbn [append] in Hj.
        rewrite <- append_assoc, length_take_drop in Hj.
        rewrite Hj in Hm. discriminate. }
      rewrite (removeSkipToContentLinks_keep _ _ Hnone), HR. reflexivity.
Qed.

(** C6, as amended.  [removeSkipToContentLinks] takes out, in any letter
    case and reading from the left, every stretch of text that the pattern
    takes for a skip link (an opening bracket, Skip to Content, [](#], any
    characters other than a closing parenthesis, and the first closing
    parenthesis) and keeps every other character: its output is the one and
    only left-to-right reading that drops such a stretch wherever one begins
    and keeps every other character.  [[Skip to Content](#main)] and
    [[skip to content](#skip)] are removed whole; wherever such a stretch
    stands in the input, nothing of it reaches the output and the text after
    it is processed on its own; a text in which none occurs, such as a
    skip-to-content link whose target has no hash sign, is unchanged. *)
Theorem removeSkipToContentLinks_removes_every_skip_link :
  (forall s out,
      removes_skip_links s out <-> out = removeSkipToContentLinks s)
  /\ removeSkipToContentLinks "[Skip to Content](#main)" = ""
  /\ removeSkipToContentLinks "[skip to content](#skip)" = ""
  /\ (forall pre l post,
        has_char "[" pre = false -> SkipLink l ->
        removeSkipToContentLinks (pre ++ l ++ post)
        = pre ++ removeSkipToContentLinks post)
  /\ (forall pre l post,
        SkipLink l ->
        exists k, k <= String.length pre
                  /\ removeSkipToContentLinks (pre ++ l ++ post)
                     = removeSkipToContentLinks (take k pre)
                       ++ removeSkipToContentLinks post)
  /\ (forall s,
        (forall before l after, s = before ++ l ++ after -> ~ SkipLink l) ->
        removeSkipToContentLinks s = s)
  /\ removeSkipToContentLinks "[Skip to Content](/main)"
     = "[Skip to Content](/main)".
Proof.
  split.
  { intros s out. split.
    - apply removes_skip_links_unique.
    - intros ->. apply (removeSkipToContentLinks_removes (String.length s)). lia. }
  split.
  { rewrite (removeSkipToContentLinks_drop _ 24); reflexivity. }
  split.
  { rewrite (removeSkipToContentLinks_drop _ 24); reflexivity. }
  split.
  { intros pre l post Hpre Hl.
    rewrite (removeSkipToContentLinks_plain_prefix _ _ Hpre).
    rewrite (removeSkipToContentLinks_drop _ _ (skip_link_at_complete l post Hl)).
    now rewrite drop_append_length. }
  split.
  { intros pre l post Hl.
    now apply (removeSkipToContentLinks_through_link (String.length pre)). }
  split.
  { intros s H. apply (removeSkipToContentLinks_no_link s EmptyString). exact H. }
  vm_compute. reflexivity.
Qed.

Lemma removeSkipToContentLinks_removes_every_skip_link_witness :
  has_char "[" "Docs " = false
  /\ SkipLink "[SKIP TO CONTENT](#top)"
  /\ removeSkipToContentLinks ("Docs " ++ "[SKIP TO CONTENT](#top)" ++ " Home")
     = "Docs " ++ removeSkipToContentLinks " Home".
Proof.
  assert (Hl : SkipLink "[SKIP TO CONTENT](#top)").
  { exists "SKIP TO CONTENT", "top". repeat split; reflexivity. }
  split; [reflexivity|]. split; [exact Hl|].
  apply (proj1 (proj2 (proj2 (proj2
           removeSkipToContentLinks_removes_every_skip_link)))).
  - reflexivity.
  - exact Hl.
Defined.

(** C6, as the specification words it, fails.  A Markdown link to an anchor
    with parentheses is a skip link of the specification, and the code leaves
    its last parenthesis behind; and a text that holds no Markdown skip link
    at all, an unclosed one followed on the next line by a remark in
    parentheses, loses all of its characters. *)
Lemma removeSkipToContentLinks_not_markdown_links :
  MarkdownSkipLink "[Skip to Content](#History_(1990))"
  /\ removeSkipToContentLinks "[Skip to Content](#History_(1990))" = ")"
  /\ ~ (forall l, MarkdownSkipLink l -> removeSkipToContentLinks l = "")
  /\ holds_markdown_skip_link
       ("[Skip to Content](#main" ++ str1 LF ++ "Intro (see below)") = false
  /\ removeSkipToContentLinks
       ("[Skip to Content](#main" ++ str1 LF ++ "Intro (see below)") = "".
Proof.
  assert (Hl : MarkdownSkipLink "[Skip to Content](#History_(1990))")
    by reflexivity.
  assert (Hr : removeSkipToContentLinks "[Skip to Content](#History_(1990))"
               = ")") by (vm_compute; reflexivity).
  split; [exact Hl | ]. split; [exact Hr | ]. split.
  - intros H. specialize (H _ Hl). rewrite Hr in H. discriminate H.
  - split; vm_compute; reflexivity.
Qed.

(** ** The leftmost match *)

Lemma search_found (r : regex) (s : string) :
  forall b m cs a,
    search r s = Some (b, m, cs, a) ->
    s = b ++ m ++ a
    /\ (exists n, match_here r (drop (String.length b) s) = Some (n, cs)
                  /\ m = take n (drop (String.length b) s)
                  /\ a = drop n (drop (String.length b) s))
    /\ (forall k, k < String.length b -> match_here r (drop k s) = None).
Proof.
  induction s as [|c s IH]; intros b m cs a H.
  - cbn [search] in H. destruct (match_here r "") as [[n cs']|] eqn:Hm; [|discriminate].
    injection H as <- <- <- <-. cbn [String.length drop].
    split; [destruct n; reflexivity|]. split.
    + exists n. rewrite Hm. repeat split.
    + intros k Hk. simpl in Hk. lia.
  - cbn [search] in H.
    destruct (match_here r (String c s)) as [[n cs']|] eqn:Hm.
    + injection H as <- <- <- <-. cbn [String.length drop append].
      split; [symmetry; apply length_take_drop|]. split.
      * exists n. rewrite Hm. repeat split.
      * intros k Hk. lia.
    + destruct (search r s) as [[[[b' m'] cs'] a']|] eqn:Hs; [|discriminate].
      injection H as <- <- <- <-.
      destruct (IH _ _ _ _ eq_refl) as [Hsplit [Hhere Hleft]].
      cbn [String.length drop append].
      split; [now rewrite <- Hsplit|]. split; [exact Hhere|].
      intros [|k] Hk; [exact Hm|]. cbn [drop]. apply Hleft. lia.
Qed.

Lemma startsWith_split (p s : string) :
  startsWith s p = true -> s = p ++ drop (String.length p) s.
Proof.
  revert s; induction p as [|c p IH]; intros s H; [reflexivity|].
  destruct s as [|x s]; [discriminate|].
  cbn [startsWith] in H. apply andb_true_iff in H as [Hx H].
  apply Ascii.eqb_eq in Hx. subst x.
  cbn [String.length drop append]. f_equal. now apply IH.
Qed.

Lemma take_skip_run (p : ascii -> bool) (s : string) :
  s = take_run p s ++ skip_run p s.
Proof.
  induction s as [|c s IH]; [reflexivity|].
  cbn [take_run skip_run]. destruct (p c); [|reflexivity].
  cbn [append]. now rewrite <- IH.
Qed.

Lemma all_digits_take_run (s : string) : all_digits (take_run is_digit s) = true.
Proof.
  induction s as [|c s IH]; [reflexivity|].
  cbn [take_run]. destruct (is_digit c) eqn:E; [|reflexivity].
  cbn [all_digits]. now rewrite E, IH.
Qed.

Lemma skip_run_stops (s : string) : starts_with_digit (skip_run is_digit s) = false.
Proof.
  induction s as [|c s IH]; [reflexivity|].
  cbn [skip_run]. destruct (is_digit c) eqn:E; [exact IH|].
  cbn [starts_with_digit]. exact E.
Qed.

(** A greedy repetition before a continuation that always succeeds takes the
    whole run. *)
Lemma rep_match_total {R : Type} (p : ascii -> bool) (k : string -> option R) :
  (forall s, k s <> None) ->
  forall s, rep_match p k s = k (skip_run p s).
Proof.
  intros Hk. induction s as [|c s IH]; [reflexivity|].
  cbn [rep_match skip_run]. destruct (p c); [|reflexivity].
  rewrite IH. destruct (k (skip_run p s)) eqn:E; [reflexivity|].
  now apply Hk in E.
Qed.

(** A match of a fragment pattern is the key and the whole run of digits
    after it. *)
Lemma match_here_fragment (key s : string) (n : nat) (cs : captures) :
  match_here (fragmentRegex key) s = Some (n, cs) ->
  exists digits after,
    s = key ++ digits ++ after
    /\ digits <> ""
    /\ all_digits digits = true
    /\ starts_with_digit after = false
    /\ n = String.length key + String.length digits.
Proof.
  unfold match_here, fragmentRegex, plus. cbn [re_match].
  rewrite re_match_lit.
  destruct (startsWith s key) eqn:Hkey; [|discriminate].
  pose proof (startsWith_split _ _ Hkey) as Hs.
  destruct (drop (String.length key) s) as [|c s'] eqn:Hd; [discriminate|].
  destruct (is_digit c) eqn:Hc; [|discriminate].
  rewrite (rep_match_total is_digit
             (fun rest => Some (String.length s - String.length rest,
                                @nil (nat * string))));
    [|discriminate].
  intros H; injection H as <- <-.
  exists (String c (take_run is_digit s')), (skip_run is_digit s').
  assert (Hs' : s = key ++ String c (take_run is_digit s') ++ skip_run is_digit s').
  { rewrite Hs at 1. cbn [append]. now rewrite <- take_skip_run. }
  split; [exact Hs'|]. split; [discriminate|].
  split; [cbn [all_digits]; now rewrite Hc, all_digits_take_run|].
  split; [apply skip_run_stops|].
  rewrite Hs' at 1. rewrite !length_append. lia.
Qed.

(** What [replace] with one of the two fragment patterns and the empty
    replacement does: nothing when the pattern matches nowhere; otherwise it
    takes out the leftmost key that digits follow, with all of those digits. *)
Lemma js_replace_first_fragment (key s : string) :
  (contains_match (fragmentRegex key) s = false
   /\ js_replace_first (fragmentRegex key) "" s = s)
  \/ (exists before digits after,
        s = before ++ key ++ digits ++ after
        /\ digits <> ""
        /\ all_digits digits = true
        /\ starts_with_digit after = false
        /\ (forall k, k < String.length before ->
                      match_here (fragmentRegex key) (drop k s) = None)
        /\ js_replace_first (fragmentRegex key) "" s = before ++ after).
Proof.
  unfold contains_match, js_replace_first.
  destruct (search (fragmentRegex key) s) as [[[[b m] cs] a]|] eqn:Hs.
  - right. destruct (search_found _ _ _ _ _ _ Hs) as [Hsplit [[n [Hm [Htake Hdrop]]] Hleft]].
    destruct (match_here_fragment _ _ _ _ Hm) as [digits [after [Hd [Hne [Hall [Hstop Hn]]]]]].
    exists b, digits, after.
    assert (Ha : a = after).
    { rewrite Hdrop, Hd, Hn.
      replace (key ++ digits ++ after) with ((key ++ digits) ++ after)
        by apply append_assoc.
      rewrite <- length_append. apply drop_append_length. }
    split.
    { rewrite <- (length_take_drop (String.length b) s) at 1.
      rewrite Hd. f_equal.
      rewrite Hsplit at 1. apply take_append_length. }
    repeat split; try assumption.
    now rewrite Ha.
  - left. split; reflexivity.
Qed.

(** ** The custom image rule *)

Lemma scanPossibleAttrs_first_http (node : Node) (attrs : list string) (src : string) :
  scanPossibleAttrs node attrs src
  = match first_http_attribute node attrs with
    | Some v => v
    | None => src
    end.
Proof.
  induction attrs as [|a attrs IH]; [reflexivity|].
  cbn [scanPossibleAttrs first_http_attribute].
  destruct (getAttribute node a) as [[|c v]|]; cbn [truthy or_else andb negb String.eqb].
  - exact IH.
  - unfold begins_with_http.
    destruct (startsWith (String c v) "http"); [reflexivity | exact IH].
  - exact IH.
Qed.

(** The URL the rule resolves is the one the three-step order gives: a
    non-empty [data-src] outright; else, for a [src] that is an SVG data URI,
    the first of the four alternate attributes whose value starts with
    [http]; else [src]. *)
Lemma wechatImages_src_resolves (node : Node) :
  wechatImages_src node
  = js_replace_first wxCoRegex ""
      (js_replace_first wxLazyRegex "" (resolve_spec node)).
Proof.
  unfold wechatImages_src, resolve_spec, is_svg_placeholder.
  destruct (getAttribute node "data-src") as [[|c v]|];
    cbn [or_else truthy negb].
  - rewrite andb_true_r, scanPossibleAttrs_first_http.
    destruct (getAttribute node "src") as [[|c' v']|]; reflexivity.
  - rewrite andb_false_r. reflexivity.
  - rewrite andb_true_r, scanPossibleAttrs_first_http.
    destruct (getAttribute node "src") as [[|c' v']|]; reflexivity.
Qed.

(** The custom image rule resolves the URL in the order of the
    specification and then applies the two clean-up replacements, lazy
    fragment first: each takes out at most one fragment, the leftmost key that
    digits follow together with all of those digits. *)
Theorem wechatImages_resolution_order (node : Node) :
  wxLazyRegex = fragmentRegex "&wx_lazy="
  /\ wxCoRegex = fragmentRegex "&wx_co="
  /\ wechatImages_src node
     = js_replace_first (fragmentRegex "&wx_co=") ""
         (js_replace_first (fragmentRegex "&wx_lazy=") "" (resolve_spec node))
  /\ (forall key s,
        (contains_match (fragmentRegex key) s = false
         /\ js_replace_first (fragmentRegex key) "" s = s)
        \/ (exists before digits after,
              s = before ++ key ++ digits ++ after
              /\ digits <> ""
              /\ all_digits digits = true
              /\ starts_with_digit after = false
              /\ (forall k, k < String.length before ->
                            match_here (fragmentRegex key) (drop k s) = None)
              /\ js_replace_first (fragmentRegex key) "" s = before ++ after)).
Proof.
  split; [reflexivity|]. split; [reflexivity|].
  split; [apply wechatImages_src_resolves|].
  exact js_replace_first_fragment.
Qed.

(** With a non-empty [data-src], writing the resolved URL back into [src]
    does not change what the rule resolves. *)
Theorem wechatImages_src_stable_under_data_src (node : Node) :
  truthy (getAttribute node "data-src") = true ->
  wechatImages_src (setSrc node (wechatImages_src node)) = wechatImages_src node.
Proof.
  intros H. unfold wechatImages_src at 1 3.
  cbn [setSrc getAttribute String.eqb Ascii.eqb Bool.eqb].
  destruct (getAttribute node "data-src") as [[|c v]|]; try discriminate H.
  cbn [or_else truthy negb]. rewrite !andb_false_r. reflexivity.
Qed.

Lemma wechatImages_src_stable_under_data_src_witness :
  truthy (getAttribute
            (img [("data-src", "http://a/1.png?x=1&wx_lazy=1&wx_lazy=2");
                  ("src", "data:image/svg+xml,x")]) "data-src") = true
  /\ wechatImages_src
       (setSrc (img [("data-src", "http://a/1.png?x=1&wx_lazy=1&wx_lazy=2");
                     ("src", "data:image/svg+xml,x")])
               (wechatImages_src
                  (img [("data-src", "http://a/1.png?x=1&wx_lazy=1&wx_lazy=2");
                        ("src", "data:image/svg+xml,x")])))
     = "http://a/1.png?x=1&wx_lazy=2".
Proof.
  split; [reflexivity|].
  rewrite (wechatImages_src_stable_under_data_src
             (img [("data-src", "http://a/1.png?x=1&wx_lazy=1&wx_lazy=2");
                   ("src", "data:image/svg+xml,x")]) eq_refl).
  vm_compute. reflexivity.
Defined.

(** C4, at an image whose URL carries the lazy-load fragment twice: the rule
    applies, the order of resolution keeps [src], and the clean-up takes out
    the first [&wx_lazy=1] only, so the resolved URL still holds a fragment
    the pattern matches. *)
Theorem wechatImages_src_keeps_second_fragment :
  let node :=
    img [("src", "https://mmbiz.qpic.cn/a.png?wx_fmt=png&wx_lazy=1&wx_lazy=1")] in
  wechatImages_filter node = true
  /\ resolve_spec node = "https://mmbiz.qpic.cn/a.png?wx_fmt=png&wx_lazy=1&wx_lazy=1"
  /\ wechatImages_src node = "https://mmbiz.qpic.cn/a.png?wx_fmt=png&wx_lazy=1"
  /\ contains_match wxLazyRegex (wechatImages_src node) = true.
Proof.
  intros node. split; [reflexivity|]. split; [reflexivity|].
  assert (H : wechatImages_src node
              = "https://mmbiz.qpic.cn/a.png?wx_fmt=png&wx_lazy=1").
  { rewrite wechatImages_src_resolves. vm_compute. reflexivity. }
  split; [exact H|]. rewrite H. vm_compute. reflexivity.
Qed.

(** ** The two lazy-image resolutions side by side *)

(** C5, at one image given to both backends: a placeholder [src] with a
    [data-fail-src] and a [data-original].  The fallback rule resolves the
    first, the native pre-pass writes the second into [src].  At an image
    with [data-src] only, the fallback rule resolves its value and the native
    pre-pass leaves the image without a [src]. *)
Theorem lazy_image_resolution_differs :
  let attrs :=
    [("class", "rich_pages"); ("src", "data:image/svg+xml,x");
     ("data-fail-src", "http://a/1.png"); ("data-original", "http://b/2.png")] in
  let attrs' := [("data-src", "http://a/1.png")] in
  (img_markup attrs
   = "<img class='rich_pages' src='data:image/svg+xml,x' data-fail-src='http://a/1.png' data-original='http://b/2.png'>"
   /\ wechatImages_filter (img attrs) = true
   /\ wechatImages_src (img attrs) = "http://a/1.png"
   /\ wechatImages_replacement "" (img attrs)
      = "![" ++ defaultAlt ++ "](http://a/1.png)"
   /\ processWechatLazyImages (img_markup attrs)
      = "<img class='rich_pages' src=" ++ dq "http://b/2.png"
        ++ " data-fail-src='http://a/1.png' data-original='http://b/2.png'>")
  /\ (wechatImages_filter (img attrs') = true
      /\ wechatImages_src (img attrs') = "http://a/1.png"
      /\ processWechatLazyImages (img_markup attrs')
         = "<img data-src=" ++ dq "http://a/1.png" ++ ">").
Proof.
  intros attrs attrs'. split.
  - split; [reflexivity|]. split; [reflexivity|]. split; [|split].
    + rewrite wechatImages_src_resolves. reflexivity.
    + unfold wechatImages_replacement. rewrite wechatImages_src_resolves.
      reflexivity.
    + vm_compute. reflexivity.
  - split; [reflexivity|]. split.
    + rewrite wechatImages_src_resolves. reflexivity.
    + vm_compute. reflexivity.
Qed.

(** C8, at two images: a [data-src] whose lazy-load fragment sits inside
    another one, and a [data-src] with a doubled dollar sign.  A second run of
    the native pre-pass changes what the first run produced.  The same holds
    for the fallback rule when its result is written back to [src]. *)
Theorem processWechatLazyImages_second_pass_differs :
  let html := "<img data-src='http://a/1.png?a&wx_&wx_lazy=1lazy=1' src='p.gif'>" in
  let html' := "<img data-src='http://a/$$b.png' src='p.gif'>" in
  let node := img [("src", "http://a/1.png?a&wx_lazy=1&wx_lazy=2")] in
  (processWechatLazyImages html
   = "<img data-src=" ++ dq "http://a/1.png?a&wx_lazy=1"
     ++ " src=" ++ dq "http://a/1.png?a&wx_lazy=1" ++ ">"
   /\ processWechatLazyImages (processWechatLazyImages html)
      = "<img data-src=" ++ dq "http://a/1.png?a"
        ++ " src=" ++ dq "http://a/1.png?a" ++ ">")
  /\ (processWechatLazyImages html'
      = "<img data-src=" ++ dq "http://a/$b.png"
        ++ " src=" ++ dq "http://a/$b.png" ++ ">"
      /\ processWechatLazyImages (processWechatLazyImages html')
         = "<img data-src=" ++ dq "http://a/.png"
           ++ " src=" ++ dq "http://a/.png" ++ ">")
  /\ (wechatImages_src node = "http://a/1.png?a&wx_lazy=2"
      /\ wechatImages_src (setSrc node (wechatImages_src node)) = "http://a/1.png?a").
Proof.
  intros html html' node.
  split; [split; vm_compute; reflexivity|].
  split; [split; vm_compute; reflexivity|].
  split; vm_compute; reflexivity.
Qed.

(** ** Backend selector *)

Lemma record_record (evs1 evs2 : list Event) (p : Process) :
  record evs2 (record evs1 p) = record (evs1 ++ evs2) p.
Proof. unfold record; simpl. now rewrite app_assoc. Qed.

Lemma fallbackRenderer_total (env : Environment) (html : string) (p : Process) :
  fallbackRenderer env html p
  = (Return (fallback_result env html), record (fallback_events env html) p).
Proof.
  unfold fallbackRenderer, fallback_result, fallback_events,
    try_catch, bind, emit, lift, ret.
  destruct (turndown env html) as [md|e]; [reflexivity|].
  now rewrite record_record.
Qed.

Lemma nativeFailure_events (error : Thrown) (p : Process) :
  nativeFailure error p = (Return tt, record (failure_events error) p).
Proof.
  unfold nativeFailure, failure_events, componentUnavailable.
  destruct (isError error), (String.eqb (message_of error) "Go shared library not found");
    cbn [negb orb andb]; unfold bind, emit; try reflexivity;
    now rewrite record_record.
Qed.

(** The three ways through [parseMarkdown] for a non-empty document. *)
Lemma parseMarkdown_fallback_only (env : Environment) (c : ascii) (s : string)
    (p : Process) :
  go_enabled env = false ->
  parseMarkdown env (Html (String c s)) p = fallbackRenderer env (String c s) p.
Proof.
  intros H. unfold parseMarkdown, bind, try_catch, ret. now rewrite H.
Qed.

Lemma parseMarkdown_native_returns (env : Environment) (c : ascii) (s : string)
    (p p1 : Process) (md : string) :
  go_enabled env = true ->
  nativeAttempt env (String c s) p = (Return md, p1) ->
  parseMarkdown env (Html (String c s)) p = (Return md, p1).
Proof.
  intros H Hn. unfold parseMarkdown, bind, try_catch, ret. now rewrite H, Hn.
Qed.

Lemma parseMarkdown_native_throws (env : Environment) (c : ascii) (s : string)
    (p p1 : Process) (e : Thrown) :
  go_enabled env = true ->
  nativeAttempt env (String c s) p = (Throw e, p1) ->
  parseMarkdown env (Html (String c s)) p
  = fallbackRenderer env (String c s) (record (failure_events e) p1).
Proof.
  intros H Hn. unfold parseMarkdown, bind, try_catch, ret.
  now rewrite H, Hn, nativeFailure_events.
Qed.

(** The native attempt touches the file system and the library only. *)
Lemma nativeAttempt_log (env : Environment) (html : string) (p p1 : Process)
    (o : Outcome string) :
  nativeAttempt env html p = (o, p1) ->
  exists evs, log p1 = (log p ++ evs)%list /\ forallb is_native_event evs = true.
Proof.
  unfold nativeAttempt, getInstance, getInstance_enter, getInstance_resume,
    new_GoMarkdownConverter, convertHTMLToMarkdown, bind, emit, lift, ret, record.
  destruct (instance p) as [h|].
  - destruct (convert_async env html) as [md|e]; intros H; injection H as <- <-;
      exists [NativeCall html]; split; reflexivity.
  - destruct (stat_ok env); cbn [log instance created].
    + destruct (koffi_load env) as [e|]; cbn [log instance created].
      * intros H; injection H as <- <-. exists [Stat; Load]. cbn [log].
        rewrite <- app_assoc. split; reflexivity.
      * destruct (convert_async env html) as [md|e]; intros H;
          injection H as <- <-; exists [Stat; Load; NativeCall html]; cbn [log];
          rewrite <- !app_assoc; split; reflexivity.
    + intros H; injection H as <- <-. exists [Stat]. split; reflexivity.
Qed.

(** The error of the missing library is what a first use throws when [stat]
    fails; nothing is loaded then. *)
Lemma nativeAttempt_missing_library (env : Environment) (html : string)
    (p : Process) :
  instance p = None ->
  stat_ok env = false ->
  nativeAttempt env html p
  = (Throw (ErrorObject "Go shared library not found"), record [Stat] p)
  /\ componentUnavailable (ErrorObject "Go shared library not found") = true.
Proof.
  intros Hi Hs. split; [|reflexivity].
  unfold nativeAttempt, getInstance, getInstance_enter, getInstance_resume, bind.
  now rewrite Hi, Hs.
Qed.

Lemma count_app (f : Event -> bool) (a b : list Event) :
  count f (a ++ b) = count f a + count f b.
Proof. unfold count. now rewrite filter_app, length_app. Qed.

Lemma count_native_events (f : Event -> bool) (evs : list Event) :
  (forall ev, is_native_event ev = true -> f ev = false) ->
  forallb is_native_event evs = true -> count f evs = 0.
Proof.
  intros Hf. induction evs as [|ev evs IH]; intros H; [reflexivity|].
  cbn [forallb] in H. apply andb_true_iff in H as [Hev H].
  unfold count in *. cbn [filter]. rewrite (Hf ev Hev). now apply IH.
Qed.

(** C1. [parseMarkdown] never throws to its caller: for a string, [null] or
    [undefined], in every environment and process state, the call returns a
    string; when the fallback renderer is reached and fails (a total failure
    of the conversion), that string is the empty one. *)
Theorem parseMarkdown_never_throws (env : Environment) (html : HtmlInput)
    (p : Process) :
  exists (markdown : string) (p' : Process),
    parseMarkdown env html p = (Return markdown, p')
    /\ (forall s e,
          html = Html s ->
          falsy html = false ->
          turndown env s = Throw e ->
          (go_enabled env = false
           \/ exists e' p1, nativeAttempt env s p = (Throw e', p1)) ->
          markdown = "").
Proof.
  destruct html as [| |[|c s]];
    try (exists EmptyString, p; split; [reflexivity | intros; reflexivity]).
  destruct (go_enabled env) eqn:Hen.
  - destruct (nativeAttempt env (String c s) p) as [[md|e1] p1] eqn:Hn.
    + exists md, p1. split.
      * now apply parseMarkdown_native_returns.
      * intros s0 e Hs _ _ [Hoff|[e' [p1' Hthrow]]]; [discriminate|].
        injection Hs as <-. rewrite Hn in Hthrow. discriminate.
    + exists (fallback_result env (String c s)),
        (record (fallback_events env (String c s)) (record (failure_events e1) p1)).
      split.
      * rewrite (parseMarkdown_native_throws _ _ _ _ _ _ Hen Hn).
        apply fallbackRenderer_total.
      * intros s0 e Hs _ Ht _. injection Hs as <-.
        unfold fallback_result. now rewrite Ht.
  - exists (fallback_result env (String c s)),
      (record (fallback_events env (String c s)) p).
    split.
    + rewrite (parseMarkdown_fallback_only _ _ _ _ Hen).
      apply fallbackRenderer_total.
    + intros s0 e Hs _ Ht _. injection Hs as <-.
      unfold fallback_result. now rewrite Ht.
Qed.

(** C2. For [null], [undefined] and the empty string, [parseMarkdown] returns
    the empty string at once: the process is left as it was, so neither the
    native backend nor the fallback renderer has run. *)
Theorem parseMarkdown_empty_input (env : Environment) (html : HtmlInput)
    (p : Process) :
  falsy html = true ->
  parseMarkdown env html p = (Return "", p).
Proof.
  destruct html as [| |[|c s]]; intros H; try reflexivity.
  discriminate H.
Qed.

(** C7. With the native backend enabled and its invocation failing with [e]:
    when [e] is the error of the missing library, the failure is answered by
    one warning in the log and nothing else; otherwise by one telemetry report
    and one error-level log entry.  Either way the fallback renderer then runs
    once, and the call ends exactly as a fallback-only call does: with the
    result the fallback renderer alone produces, after the trace it alone
    leaves. *)
Theorem native_failure_falls_back (env : Environment) (html : string)
    (p p1 : Process) (e : Thrown) :
  falsy (Html html) = false ->
  go_enabled env = true ->
  nativeAttempt env html p = (Throw e, p1) ->
  (if componentUnavailable e
   then count is_warn_log (failure_events e) = 1
        /\ count is_telemetry (failure_events e) = 0
        /\ count is_error_log (failure_events e) = 0
   else count is_telemetry (failure_events e) = 1
        /\ count is_error_log (failure_events e) = 1
        /\ count is_warn_log (failure_events e) = 0)
  /\ (exists evs,
        log p1 = (log p ++ evs)%list
        /\ count is_telemetry evs = 0
        /\ count is_error_log evs = 0
        /\ count is_warn_log evs = 0
        /\ count is_turndown evs = 0)
  /\ count is_turndown (failure_events e ++ fallback_events env html) = 1
  /\ parseMarkdown env (Html html) p
     = (Return (fallback_result env html),
        record (failure_events e ++ fallback_events env html) p1)
  /\ (forall q,
        parseMarkdown (fallback_only env) (Html html) q
        = (Return (fallback_result env html),
           record (fallback_events env html) q)).
Proof.
  intros Hhtml Hen Hn.
  destruct html as [|c s]; [discriminate Hhtml|].
  split.
  { unfold failure_events. destruct (componentUnavailable e); repeat split. }
  split.
  { destruct (nativeAttempt_log _ _ _ _ _ Hn) as [evs [Hlog Hnat]].
    exists evs. split; [exact Hlog|].
    repeat split; apply count_native_events; try exact Hnat;
      intros [] Hev; try reflexivity; discriminate Hev. }
  split.
  { rewrite count_app. unfold failure_events, fallback_events.
    destruct (componentUnavailable e), (turndown env (String c s)); reflexivity. }
  split.
  { rewrite (parseMarkdown_native_throws _ _ _ _ _ _ Hen Hn).
    rewrite fallbackRenderer_total. now rewrite record_record. }
  intros q. rewrite parseMarkdown_fallback_only; [|reflexivity].
  rewrite fallbackRenderer_total. reflexivity.
Qed.

Lemma parseMarkdown_never_throws_witness :
  exists (markdown : string) (p' : Process),
    parseMarkdown failing_env (Html "<p>x</p>") fresh_process
    = (Return markdown, p')
    /\ markdown = "".
Proof.
  destruct (parseMarkdown_never_throws failing_env (Html "<p>x</p>") fresh_process)
    as [markdown [p' [Hrun Hfail]]].
  exists markdown, p'. split; [exact Hrun|].
  apply (Hfail "<p>x</p>" (ErrorObject "tree walk failed")); try reflexivity.
  right. eexists. eexists. reflexivity.
Defined.

Lemma parseMarkdown_empty_input_witness :
  falsy Undefined = true
  /\ parseMarkdown library_present_env Undefined fresh_process
     = (Return "", fresh_process).
Proof.
  split; [reflexivity|].
  apply (parseMarkdown_empty_input library_present_env Undefined fresh_process).
  reflexivity.
Defined.

Lemma native_failure_falls_back_witness :
  falsy (Html "<p>x</p>") = false
  /\ go_enabled missing_library_env = true
  /\ nativeAttempt missing_library_env "<p>x</p>" fresh_process
     = (Throw (ErrorObject "Go shared library not found"),
        record [Stat] fresh_process)
  /\ parseMarkdown missing_library_env (Html "<p>x</p>") fresh_process
     = (Return "<p>x</p>",
        mkProcess None 0
          [Stat;
           LoggerWarn
             "Tried to use Go parser, but it doesn't exist in the file system.";
           Turndown "<p>x</p>"]).
Proof.
  split; [reflexivity|]. split; [reflexivity|]. split; [reflexivity|].
  pose proof (native_failure_falls_back missing_library_env "<p>x</p>"
                fresh_process (record [Stat] fresh_process)
                (ErrorObject "Go shared library not found")
                eq_refl eq_refl eq_refl) as H.
  destruct H as [_ [_ [_ [Hrun _]]]].
  rewrite Hrun. vm_compute. reflexivity.
Defined.

(** ** Concurrent first use of [getInstance] *)

Lemma length_set_nth {A : Type} (i : nat) (x : A) (l : list A) :
  List.length (set_nth i x l) = List.length l.
Proof.
  revert i; induction l as [|y l IH]; intros [|i]; simpl; try reflexivity.
  now rewrite IH.
Qed.

Lemma length_calls_run_call (env : Environment) (i : nat) (sys : System) :
  List.length (calls (run_call env i sys)) = List.length (calls sys).
Proof.
  unfold run_call. destruct (nth_error (calls sys) i) as [pc|]; [|reflexivity].
  destruct (step_call env pc (process sys)) as [pc' p']. cbn [calls].
  apply length_set_nth.
Qed.

(** Every schedule over the calls of the system is a run of the event loop. *)
Lemma reachable_run_schedule (env : Environment) (init : System)
    (schedule : list nat) :
  Forall (fun i => i < List.length (calls init)) schedule ->
  reachable env init (run_schedule env schedule init).
Proof.
  unfold run_schedule.
  assert (G : forall sys,
             reachable env init sys ->
             List.length (calls sys) = List.length (calls init) ->
             Forall (fun i => i < List.length (calls init)) schedule ->
             reachable env init (fold_left (fun s i => run_call env i s) schedule sys)).
  { induction schedule as [|i schedule IH]; intros sys Hr Hlen Hs; [exact Hr|].
    inversion Hs as [|? ? Hi Hrest]; subst. cbn [fold_left]. apply IH.
    - apply (reach_step env init sys); [exact Hr|].
      apply step_run. now rewrite Hlen.
    - now rewrite length_calls_run_call.
    - exact Hrest. }
  intros Hs. apply G; [constructor | reflexivity | exact Hs].
Qed.

(** C9, at two calls that both start before either has passed its [await]:
    each finds the static field unset, each goes on to load the library and to
    build a converter, and the two calls return different objects. *)
Theorem getInstance_two_first_calls_create_two :
  let init := mkSystem [Entry; Entry] fresh_process in
  let final := run_schedule library_present_env [0; 1; 0; 1] init in
  reachable library_present_env init final
  /\ calls final = [Resolved 1; Resolved 2]
  /\ created (process final) = 2
  /\ count is_load (log (process final)) = 2
  /\ instance (process final) = Some 2.
Proof.
  intros init final. split.
  - apply reachable_run_schedule. repeat constructor.
  - repeat split.
Qed.

(** What a call that has run so far can have become of a call [pc0] that was
    not suspended: itself, or, for one that had not started, a call that
    returned [h]. *)
Lemma cached_step (env : Environment) (h : Handle) (p : Process) (pc0 pc : Pc) :
  instance p = Some h ->
  pc0 <> AwaitingStat ->
  pc = pc0 \/ (pc0 = Entry /\ pc = Resolved h) ->
  snd (step_call env pc p) = p
  /\ (fst (step_call env pc p) = pc0
      \/ (pc0 = Entry /\ fst (step_call env pc p) = Resolved h)).
Proof.
  intros Hi Hpc0 [-> | [-> ->]].
  - destruct pc0 as [| | h' | e]; cbn [step_call].
    + unfold getInstance_enter. rewrite Hi. split; [reflexivity | ].
      right. split; reflexivity.
    + contradiction Hpc0. reflexivity.
    + split; [reflexivity | left; reflexivity].
    + split; [reflexivity | left; reflexivity].
  - cbn [step_call]. split; [reflexivity | right; split; reflexivity].
Qed.

Lemma Forall2_set_nth {A : Type} (R : A -> A -> Prop) (l0 l : list A) :
  Forall2 R l0 l ->
  forall (i : nat) (x x' : A),
    nth_error l i = Some x ->
    (forall x0, R x0 x -> R x0 x') ->
    Forall2 R l0 (set_nth i x' l).
Proof.
  induction 1 as [| a b la lb Hab Hl IH]; intros i x x' Hnth Hstep.
  - destruct i; discriminate Hnth.
  - destruct i as [| i]; cbn [set_nth].
    + injection Hnth as ->. constructor; [apply Hstep, Hab | exact Hl].
    + constructor; [exact Hab | ]. exact (IH i x x' Hnth Hstep).
Qed.

Lemma Forall2_nth_error_r {A : Type} (R : A -> A -> Prop) (l0 l : list A) :
  Forall2 R l0 l ->
  forall (i : nat) (x : A), nth_error l i = Some x -> exists x0, R x0 x.
Proof.
  induction 1 as [| a b la lb Hab Hl IH]; intros i x Hnth.
  - destruct i; discriminate Hnth.
  - destruct i as [| i].
    + injection Hnth as ->. exists a. exact Hab.
    + exact (IH i x Hnth).
Qed.

(** Once the static field holds a converter and no call is suspended at its
    [await], nothing changes any more: however the calls interleave from
    there on, the process stays as it is, nothing is loaded or built, and
    every call that had not started either still has not or has returned
    that converter.  (A call still suspended at the [await] is what the
    condition rules out: when it resumes it builds and stores a converter of
    its own.) *)
Theorem getInstance_returns_cached_instance (env : Environment) (h : Handle)
    (init sys : System) :
  instance (process init) = Some h ->
  Forall (fun pc => pc <> AwaitingStat) (calls init) ->
  reachable env init sys ->
  process sys = process init
  /\ Forall2 (fun pc0 pc => pc = pc0 \/ (pc0 = Entry /\ pc = Resolved h))
       (calls init) (calls sys).
Proof.
  intros Hinst Hcalls Hreach.
  set (R := fun pc0 pc : Pc =>
              pc0 <> AwaitingStat
              /\ (pc = pc0 \/ (pc0 = Entry /\ pc = Resolved h))).
  assert (Hinv : process sys = process init /\ Forall2 R (calls init) (calls sys)).
  { induction Hreach as [| s s' _ [Hp Hc] Hstep].
    - split; [reflexivity | ].
      induction Hcalls as [| pc l Hpc _ IH]; constructor.
      + split; [exact Hpc | left; reflexivity].
      + exact IH.
    - destruct Hstep as [i s Hi]. unfold run_call.
      destruct (nth_error (calls s) i) as [pc |] eqn:Hnth; [ | split; assumption].
      assert (Hsame : snd (step_call env pc (process s)) = process s
                      /\ forall pc0, R pc0 pc ->
                                     R pc0 (fst (step_call env pc (process s)))).
      { destruct (Forall2_nth_error_r R _ _ Hc i pc Hnth) as [pc1 [Hne1 Hrel1]].
        rewrite Hp. split.
        - exact (proj1 (cached_step env h _ pc1 pc Hinst Hne1 Hrel1)).
        - intros pc0 [Hne0 Hrel0]. split; [exact Hne0 | ].
          exact (proj2 (cached_step env h _ pc0 pc Hinst Hne0 Hrel0)). }
      destruct (step_call env pc (process s)) as [pc' p'] eqn:Hsc.
      cbn [fst snd] in Hsame. destruct Hsame as [-> Hrel].
      cbn [process calls]. split; [exact Hp | ].
      exact (Forall2_set_nth R _ _ Hc i pc pc' Hnth Hrel). }
  destruct Hinv as [Hp Hc]. split; [exact Hp | ].
  clear - Hc. induction Hc as [| a b la lb [_ Hab] _ IH]; constructor; assumption.
Qed.

Lemma getInstance_returns_cached_instance_witness :
  calls (run_schedule library_present_env [1; 0]
           (mkSystem [Entry; Entry] (mkProcess (Some 1) 1 [Stat; Load])))
  = [Resolved 1; Resolved 1]
  /\ process (run_schedule library_present_env [1; 0]
                (mkSystem [Entry; Entry] (mkProcess (Some 1) 1 [Stat; Load])))
     = mkProcess (Some 1) 1 [Stat; Load].
Proof.
  split; [reflexivity | ].
  apply (getInstance_returns_cached_instance library_present_env 1
           (mkSystem [Entry; Entry] (mkProcess (Some 1) 1 [Stat; Load]))).
  - reflexivity.
  - repeat constructor; discriminate.
  - apply reachable_run_schedule. repeat constructor.
Defined.

(** Unless the environment variable is the text [true], a non-empty document
    goes to the fallback renderer alone: the result is the post-processed
    output of Turndown (the empty string when it throws), and nothing of the
    native bridge runs. *)
Theorem parseMarkdown_fallback_by_default (env : Environment) (html : string)
    (p : Process) :
  USE_GO_MARKDOWN_PARSER env <> Some "true" ->
  falsy (Html html) = false ->
  parseMarkdown env (Html html) p
  = (Return (fallback_result env html), record (fallback_events env html) p)
  /\ count is_native_event (fallback_events env html) = 0.
Proof.
  intros Hflag Hhtml. destruct html as [|c s]; [discriminate Hhtml|].
  assert (Hen : go_enabled env = false).
  { unfold go_enabled. destruct (USE_GO_MARKDOWN_PARSER env) as [v|]; [|reflexivity].
    destruct (String.eqb v "true") eqn:E; [|reflexivity].
    apply String.eqb_eq in E. subst v. now elim Hflag. }
  split.
  - rewrite (parseMarkdown_fallback_only _ _ _ _ Hen). apply fallbackRenderer_total.
  - unfold fallback_events. destruct (turndown env (String c s)); reflexivity.
Qed.

Lemma parseMarkdown_fallback_by_default_witness :
  parseMarkdown
    (mkEnvironment (Some "TRUE") true None
       (fun html => Return html)
       (fun html => Return ("[a" ++ str1 LF ++ "b](c)")))
    (Html "<a href='c'>a<br>b</a>") fresh_process
  = (Return ("[a" ++ str1 BACKSLASH ++ str1 LF ++ "b](c)"),
     mkProcess None 0 [Turndown "<a href='c'>a<br>b</a>"]).
Proof.
  refine (eq_trans
            (proj1 (parseMarkdown_fallback_by_default
                      (mkEnvironment (Some "TRUE") true None
                         (fun html => Return html)
                         (fun html => Return ("[a" ++ str1 LF ++ "b](c)")))
                      "<a href='c'>a<br>b</a>" fresh_process _ eq_refl)) _).
  - discriminate.
  - vm_compute. reflexivity.
Defined.

(** With the native backend enabled, the library in place and the native
    conversion returning, the result is the post-processed native output and
    the fallback renderer does not run. *)
Theorem parseMarkdown_native_success (env : Environment) (html raw : string)
    (p : Process) :
  go_enabled env = true ->
  falsy (Html html) = false ->
  stat_ok env = true ->
  koffi_load env = None ->
  convert_async env html = Return raw ->
  exists p',
    parseMarkdown env (Html html) p
    = (Return (removeSkipToContentLinks (processMultiLineLinks raw)), p')
    /\ exists evs, log p' = (log p ++ evs)%list
                   /\ forallb is_native_event evs = true.
Proof.
  intros Hen Hhtml Hstat Hload Hconv.
  destruct html as [|c s]; [discriminate Hhtml|].
  destruct (nativeAttempt env (String c s) p) as [o p1] eqn:Hn.
  assert (Ho : o = Return (removeSkipToContentLinks (processMultiLineLinks raw))).
  { revert Hn.
    unfold nativeAttempt, getInstance, getInstance_enter, getInstance_resume,
      new_GoMarkdownConverter, convertHTMLToMarkdown, bind, emit, lift, ret.
    destruct (instance p); rewrite ?Hstat, ?Hload, Hconv;
      intros H; now injection H as <- _. }
  subst o. exists p1. split.
  - now apply parseMarkdown_native_returns.
  - exact (nativeAttempt_log _ _ _ _ _ Hn).
Qed.

Lemma parseMarkdown_native_success_witness :
  exists p',
    parseMarkdown library_present_env (Html "x[Skip to Content](#a)y") fresh_process
    = (Return "xy", p').
Proof.
  destruct (parseMarkdown_native_success library_present_env
              "x[Skip to Content](#a)y" "x[Skip to Content](#a)y" fresh_process
              eq_refl eq_refl eq_refl eq_refl eq_refl) as [p' [Hrun _]].
  exists p'. exact Hrun.
Defined.

(* ================================================================== *)
(** * Part III: the rest of the code                                   *)
(* ================================================================== *)

(** ** The multi-line-link escape loses nothing *)

Lemma depth_step_backslash (d : Z) : depth_step d BACKSLASH = d.
Proof. reflexivity. Qed.

Lemma depth_step_LF (d : Z) : depth_step d LF = d.
Proof. reflexivity. Qed.

Lemma unescape_escape_scan (s : string) :
  forall d, unescape_scan d (escape_scan d s) = s.
Proof.
  induction s as [|c s IH]; intros d; [reflexivity|].
  cbn [escape_scan].
  destruct ((0 <? depth_step d c)%Z && Ascii.eqb c LF) eqn:E.
  - apply andb_true_iff in E as [Hd Hc]. apply Ascii.eqb_eq in Hc. subst c.
    rewrite depth_step_LF in Hd |- *.
    cbn [unescape_scan]. rewrite Ascii.eqb_refl, Ascii.eqb_refl, Hd.
    cbn [andb]. now rewrite IH.
  - cbn [unescape_scan].
    destruct (escape_scan (depth_step d c) s) as [|c' e'] eqn:Hs.
    + destruct s as [|c2 s2]; [reflexivity|].
      cbn [escape_scan] in Hs.
      destruct ((0 <? depth_step (depth_step d c) c2)%Z && Ascii.eqb c2 LF);
        discriminate Hs.
    + destruct (Ascii.eqb c BACKSLASH && Ascii.eqb c' LF && (0 <? d)%Z) eqn:G.
      * exfalso.
        apply andb_true_iff in G as [G Hd]. apply andb_true_iff in G as [Hc Hc'].
        apply Ascii.eqb_eq in Hc, Hc'. subst c c'.
        rewrite depth_step_backslash in Hs.
        destruct s as [|c2 s2]; [discriminate Hs|].
        cbn [escape_scan] in Hs.
        destruct ((0 <? depth_step d c2)%Z && Ascii.eqb c2 LF) eqn:E2.
        -- injection Hs as Hb _. discriminate Hb.
        -- injection Hs as -> _. rewrite depth_step_LF, Hd in E2.
           discriminate E2.
      * rewrite <- Hs, IH. reflexivity.
Qed.

Lemma length_escape_scan (s : string) :
  forall d,
    String.length (escape_scan d s) = String.length s + escaped_newlines d s.
Proof.
  induction s as [|c s IH]; intros d; [reflexivity|].
  cbn [escape_scan escaped_newlines].
  destruct ((0 <? depth_step d c)%Z && Ascii.eqb c LF); cbn [String.length];
    rewrite IH; lia.
Qed.

(** [processMultiLineLinks] can be undone: one pass gives the input back, so
    two different texts never have the same output, and the output is longer
    than the input by the number of newlines at a positive bracket depth. *)
Theorem processMultiLineLinks_lossless :
  (forall s, unescape_scan 0 (processMultiLineLinks s) = s)
  /\ (forall s1 s2,
        processMultiLineLinks s1 = processMultiLineLinks s2 -> s1 = s2)
  /\ (forall s,
        String.length (processMultiLineLinks s)
        = String.length s + escaped_newlines 0 s).
Proof.
  assert (H : forall s, unescape_scan 0 (processMultiLineLinks s) = s).
  { intros s. rewrite processMultiLineLinks_scan. apply unescape_escape_scan. }
  split; [exact H|]. split.
  - intros s1 s2 E. rewrite <- (H s1), <- (H s2). now rewrite E.
  - intros s. rewrite processMultiLineLinks_scan. apply length_escape_scan.
Qed.

(** ** The matcher against declarative matching *)

Lemma drop_drop (n m : nat) (s : string) : drop n (drop m s) = drop (m + n) s.
Proof.
  revert s; induction m as [|m IH]; intros s; simpl; [reflexivity|].
  destruct s as [|c s]; [destruct n; reflexivity | apply IH].
Qed.

Lemma run_suffix (p : ascii -> bool) (s s' : string) :
  run p s s' -> exists n, s' = drop n s.
Proof.
  induction 1 as [s|c s s' _ _ [n ->]]; [exists 0 | exists (S n)]; reflexivity.
Qed.

Lemma matches_suffix (r : regex) :
  forall s s', matches r s s' -> exists n, s' = drop n s.
Proof.
  induction r as [|p|p|r1 IH1 r2 IH2|n r IH]; intros s s'; cbn [matches].
  - intros <-. now exists 0.
  - intros [c [-> _]]. now exists 1.
  - apply run_suffix.
  - intros [s1 [H1 H2]].
    destruct (IH1 _ _ H1) as [n1 ->]. destruct (IH2 _ _ H2) as [n2 ->].
    exists (n1 + n2). apply drop_drop.
  - apply IH.
Qed.

Lemma matches_lit (p s s' : string) : matches (lit p) s s' <-> s = p ++ s'.
Proof.
  revert s; induction p as [|c p IH]; intros s; cbn [lit matches append].
  - tauto.
  - split.
    + intros [s1 [[x [-> Hx]] H]]. apply Ascii.eqb_eq in Hx. subst x.
      apply IH in H. now subst s1.
    + intros ->. exists (p ++ s'). split.
      * exists c. split; [reflexivity | apply Ascii.eqb_refl].
      * now apply IH.
Qed.

Lemma rep_match_sound {R : Type} (p : ascii -> bool) (k : string -> option R)
    (s : string) (x : R) :
  rep_match p k s = Some x -> exists s', run p s s' /\ k s' = Some x.
Proof.
  induction s as [|c s IH]; cbn [rep_match].
  - intros H. exists EmptyString. split; [constructor | exact H].
  - destruct (p c) eqn:Hc.
    + destruct (rep_match p k s) as [r|] eqn:Hr.
      * intros H. injection H as ->. destruct (IH eq_refl) as [s' [Hrun Hk]].
        exists s'. split; [now constructor | exact Hk].
      * intros H. exists (String c s). split; [constructor | exact H].
    + intros H. exists (String c s). split; [constructor | exact H].
Qed.

(** Whatever the matcher returns comes from a match of the pattern. *)
Lemma re_match_sound {R : Type} (r : regex) :
  forall (s : string) (cs : captures) (k : string -> captures -> option R) (x : R),
    re_match r s cs k = Some x ->
    exists s' cs', matches r s s' /\ k s' cs' = Some x.
Proof.
  induction r as [|p|p|r1 IH1 r2 IH2|n r IH]; intros s cs k x; cbn [re_match matches].
  - intros H. now exists s, cs.
  - destruct s as [|c s]; [discriminate|].
    destruct (p c) eqn:Hc; [|discriminate].
    intros H. exists s, cs. split; [|exact H]. now exists c.
  - intros H. apply rep_match_sound in H as [s' [Hrun Hk]]. now exists s', cs.
  - intros H. apply IH1 in H as [s1 [cs1 [H1 H]]].
    apply IH2 in H as [s2 [cs2 [H2 H]]].
    exists s2, cs2. split; [now exists s1 | exact H].
  - intros H. apply IH in H as [s' [cs' [Hm H]]].
    now exists s', ((n, take (String.length s - String.length s') s) :: cs').
Qed.

Lemma rep_match_complete {R : Type} (p : ascii -> bool) (k : string -> option R)
    (s s' : string) :
  run p s s' -> k s' <> None -> rep_match p k s <> None.
Proof.
  induction 1 as [s|c s s' Hc _ IH]; intros Hk.
  - destruct s as [|c s]; cbn [rep_match]; [exact Hk|].
    destruct (p c); [|exact Hk].
    destruct (rep_match p k s); [discriminate | exact Hk].
  - cbn [rep_match]. rewrite Hc.
    destruct (rep_match p k s) eqn:Hr; [discriminate|]. now elim (IH Hk).
Qed.

(** Where the pattern can match and the continuation accepts every such
    match, the matcher finds a match. *)
Lemma re_match_complete {R : Type} (r : regex) :
  forall (s s' : string) (cs : captures) (k : string -> captures -> option R),
    matches r s s' ->
    (forall cs', k s' cs' <> None) ->
    re_match r s cs k <> None.
Proof.
  induction r as [|p|p|r1 IH1 r2 IH2|n r IH]; intros s s' cs k; cbn [re_match matches].
  - intros <- Hk. apply Hk.
  - intros [c [-> Hc]] Hk. rewrite Hc. apply Hk.
  - intros Hrun Hk. now apply (rep_match_complete _ _ _ _ Hrun).
  - intros [s1 [H1 H2]] Hk. apply (IH1 _ _ _ _ H1).
    intros cs1. now apply (IH2 _ _ _ _ H2).
  - intros Hm Hk. apply (IH _ _ _ _ Hm). intros cs'. apply Hk.
Qed.

Lemma search_complete (r : regex) (s : string) :
  forall n, match_here r (drop n s) <> None -> search r s <> None.
Proof.
  induction s as [|c s IH]; intros n H; cbn [search].
  - destruct n; cbn [drop] in H;
      destruct (match_here r "") as [[m cs]|]; [discriminate| |discriminate|];
      now elim H.
  - destruct (match_here r (String c s)) as [[m cs]|] eqn:Hm; [discriminate|].
    destruct n as [|n]; [cbn [drop] in H; now rewrite Hm in H|].
    cbn [drop] in H. specialize (IH n H).
    destruct (search r s) as [[[[b mm] cs] a]|]; [discriminate | exact IH].
Qed.

Lemma search_no_match (r : regex) (s : string) :
  (forall n, match_here r (drop n s) = None) -> search r s = None.
Proof.
  intros H. destruct (search r s) as [[[[b m] cs] a]|] eqn:Hs; [|reflexivity].
  destruct (search_found _ _ _ _ _ _ Hs) as [_ [[n [Hm _]] _]].
  rewrite H in Hm. discriminate.
Qed.

(** A pass whose pattern matches nowhere changes nothing. *)
Lemma replace_scan_no_match (r : regex) (f : string -> string) (s : string) :
  (forall n, match_here r (drop n s) = None) -> replace_scan r f s 0 = s.
Proof.
  induction s as [|c s IH]; intros H; cbn [replace_scan];
    pose proof (H 0) as H0; cbn [drop] in H0; rewrite H0.
  - reflexivity.
  - f_equal. apply IH. intros n. apply (H (S n)).
Qed.

(** A pass whose function gives every match back changes nothing. *)
Lemma replace_scan_identity (r : regex) (f : string -> string) (s : string) :
  (forall m, f m = m) ->
  forall skip, replace_scan r f s skip = drop skip s.
Proof.
  intros Hf. induction s as [|c s IH]; intros skip; cbn [replace_scan].
  - destruct skip; [|reflexivity].
    destruct (match_here r ""); [apply Hf | reflexivity].
  - destruct skip as [|k]; [|apply IH].
    destruct (match_here r (String c s)) as [[[|k] cs]|].
    + rewrite Hf, IH. reflexivity.
    + rewrite Hf, IH. cbn [take append drop]. f_equal. apply length_take_drop.
    + now rewrite IH.
Qed.

Lemma includes_drop (p s : string) :
  includes s p = false -> forall n, startsWith (drop n s) p = false.
Proof.
  induction s as [|c s IH]; cbn [includes]; intros H n.
  - apply orb_false_iff in H as [H _]. destruct n; exact H.
  - apply orb_false_iff in H as [H0 H]. destruct n as [|n]; [exact H0|].
    cbn [drop]. now apply IH.
Qed.

Lemma includes_of_drop (p s : string) (n : nat) :
  startsWith (drop n s) p = true -> includes s p = true.
Proof.
  revert n; induction s as [|c s IH]; intros n H; cbn [includes].
  - destruct n; cbn [drop] in H; now rewrite H.
  - destruct n as [|n]; cbn [drop] in H; [now rewrite H|].
    rewrite (IH n H). apply orb_true_r.
Qed.

Lemma startsWith_append (p s : string) : startsWith (p ++ s) p = true.
Proof.
  induction p as [|c p IH]; [reflexivity|].
  cbn [append startsWith]. now rewrite Ascii.eqb_refl.
Qed.

(** ** The native pre-pass *)

(** A match of the [data-src] pattern holds, somewhere, [data-src=], a quote,
    a run of one or more other characters and a quote. *)
Lemma dataSrcRegex_match_shape (s : string) (x : nat * captures) :
  match_here dataSrcRegex s = Some x ->
  exists N c t2 t3,
    drop N s = "data-src=" ++ String c t2
    /\ is_quote c = true
    /\ matches (plus not_quote) t2 t3
    /\ exists c' t4, t3 = String c' t4 /\ is_quote c' = true.
Proof.
  unfold match_here. intros H.
  apply re_match_sound in H as [s' [cs' [Hm _]]].
  unfold dataSrcRegex in Hm. cbn [cat_all fold_right matches] in Hm.
  destruct Hm as [s1 [H1 [s2 [H2 [s3 [H3 _]]]]]].
  destruct H3 as [t1 [Hd [t2 [[c [Ht1 Hc]] [t3 [Hp [t4 [[c' [Ht3 Hc']] _]]]]]]]].
  apply matches_lit in H1, Hd. subst s s2 t1.
  destruct (run_suffix _ _ _ H2) as [n Hn].
  exists (4 + n), c, t2, t3.
  split; [|split; [exact Hc | split; [exact Hp | now exists c', t4]]].
  cbn [Nat.add drop append]. now rewrite <- Hn.
Qed.

(** A match of the placeholder pattern holds [data:image/svg]. *)
Lemma svgPlaceholderRegex_match_shape (s : string) (x : nat * captures) :
  match_here svgPlaceholderRegex s = Some x ->
  exists t, drop 5 s = "data:image/svg" ++ t.
Proof.
  unfold match_here. intros H.
  apply re_match_sound in H as [s' [cs' [Hm _]]].
  unfold svgPlaceholderRegex in Hm. cbn [cat_all fold_right matches] in Hm.
  destruct Hm as [s1 [H1 [s2 [[c [-> Hc]] [s3 [H3 _]]]]]].
  apply matches_lit in H1, H3. subst s s2. now exists s3.
Qed.

Lemma no_img_no_match (tail : regex) (html : string) :
  includes html "<img" = false ->
  forall n, match_here (Cat (lit "<img") tail) (drop n html) = None.
Proof.
  intros H n. unfold match_here. cbn [re_match]. rewrite re_match_lit.
  now rewrite (includes_drop _ _ H n).
Qed.

(** The pre-pass changes a document only where images are: a text without
    [<img], and a text with neither [data-src=] nor [data:image/svg], comes
    out as it went in. *)
Theorem processWechatLazyImages_leaves_other_text (html : string) :
  includes html "<img" = false
  \/ (includes html "data-src=" = false /\ includes html "data:image/svg" = false) ->
  processWechatLazyImages html = html.
Proof.
  intros [Himg | [Hdata Hsvg]]; unfold processWechatLazyImages, ReplaceAllStringFunc.
  - assert (H1 : replace_scan dataSrcRegex copyDataSrc html 0 = html).
    { apply replace_scan_no_match. apply (no_img_no_match _ _ Himg). }
    rewrite H1. rewrite replace_scan_identity; [reflexivity|].
    intros m. unfold replaceSvgPlaceholder, FindString.
    cbn [cat_all fold_right].
    rewrite search_no_match; [reflexivity|].
    apply (no_img_no_match _ _ Himg).
  - assert (H1 : replace_scan dataSrcRegex copyDataSrc html 0 = html).
    { apply replace_scan_no_match. intros n.
      destruct (match_here dataSrcRegex (drop n html)) as [x|] eqn:Hm;
        [|reflexivity].
      destruct (dataSrcRegex_match_shape _ _ Hm) as [N [c [t2 [_ [Hd _]]]]].
      rewrite drop_drop in Hd.
      assert (Hin : includes html "data-src=" = true).
      { apply (includes_of_drop _ _ (n + N)). rewrite Hd.
        apply startsWith_append. }
      rewrite Hin in Hdata. discriminate. }
    rewrite H1. apply replace_scan_no_match. intros n.
    destruct (match_here svgPlaceholderRegex (drop n html)) as [x|] eqn:Hm;
      [|reflexivity].
    destruct (svgPlaceholderRegex_match_shape _ _ Hm) as [t Hd].
    rewrite drop_drop in Hd.
    assert (Hin : includes html "data:image/svg" = true).
    { apply (includes_of_drop _ _ (n + 5)). rewrite Hd. apply startsWith_append. }
    rewrite Hin in Hsvg. discriminate.
Qed.

Lemma processWechatLazyImages_leaves_other_text_witness :
  processWechatLazyImages "<p>see <a href='x.png'>the picture</a></p>"
  = "<p>see <a href='x.png'>the picture</a></p>".
Proof.
  apply processWechatLazyImages_leaves_other_text. left. reflexivity.
Defined.

(** Whenever the [data-src] pattern matches a tag, the [src] pattern matches
    it too (inside [data-src=...]): the branch of the first pass that inserts
    a [src] attribute is never taken, and the pass either leaves the tag or
    rewrites every [src=...] in it. *)
Theorem copyDataSrc_never_inserts_src (match_ : string) :
  (MatchString dataSrcRegex match_ = true -> MatchString srcRegex match_ = true)
  /\ copyDataSrc match_
     = if MatchString dataSrcRegex match_
       then ReplaceAllString srcRegex match_
              ("src="
               ++ dq (strings_Replace
                        (strings_Replace
                           (nth 2 (FindStringSubmatch dataSrcRegex 2 match_) "")
                           "&wx_lazy=1" "" (-1))
                        "&wx_co=1" "" (-1)))
       else match_.
Proof.
  assert (H : MatchString dataSrcRegex match_ = true ->
              MatchString srcRegex match_ = true).
  { unfold MatchString.
    destruct (search dataSrcRegex match_) as [[[[b m] cs] a]|] eqn:Hs;
      [intros _|discriminate].
    destruct (search_found _ _ _ _ _ _ Hs) as [_ [[n [Hm _]] _]].
    destruct (dataSrcRegex_match_shape _ _ Hm)
      as [N [c [t2 [t3 [Hd [Hc [Hp [c' [t4 [-> Hc']]]]]]]]]].
    rewrite drop_drop in Hd.
    assert (Hsrc : match_here srcRegex (drop (String.length b + N + 5) match_)
                   <> None).
    { rewrite <- drop_drop, Hd. cbn [drop append].
      unfold match_here. apply (re_match_complete _ _ t4); [|discriminate].
      unfold srcRegex. cbn [cat_all fold_right matches].
      exists (String c t2). split; [now apply matches_lit|].
      exists t2. split; [now exists c|].
      exists (String c' t4). split; [exact Hp|].
      exists t4. split; [now exists c' | reflexivity]. }
    apply search_complete in Hsrc.
    destruct (search srcRegex match_); [reflexivity | now elim Hsrc]. }
  split; [exact H|].
  unfold copyDataSrc.
  destruct (MatchString dataSrcRegex match_) eqn:Hd.
  - rewrite (H eq_refl). unfold MatchString in Hd. unfold FindStringSubmatch.
    destruct (search dataSrcRegex match_) as [[[[b m] cs] a]|]; [|discriminate].
    reflexivity.
  - unfold MatchString in Hd. unfold FindStringSubmatch.
    destruct (search dataSrcRegex match_) as [[[[b m] cs] a]|]; [discriminate|].
    reflexivity.
Qed.

Lemma copyDataSrc_never_inserts_src_witness :
  MatchString dataSrcRegex "<img data-src='http://a/1.png'>" = true
  /\ MatchString srcRegex "<img data-src='http://a/1.png'>" = true.
Proof.
  split; [reflexivity|].
  apply (proj1 (copyDataSrc_never_inserts_src "<img data-src='http://a/1.png'>")).
  reflexivity.
Defined.

(** ** The singleton bridge, call after call *)

(** [getInstance] is a call run alone: its two steps one after the other,
    with no step of another call in between. *)
Lemma getInstance_alone (env : Environment) (p : Process) :
  run_schedule env [0; 0] (mkSystem [Entry] p)
  = mkSystem [match fst (getInstance env p) with
              | Return h => Resolved h
              | Throw e => Rejected e
              end]
      (snd (getInstance env p)).
Proof.
  unfold run_schedule, run_call, getInstance, bind, ret.
  cbn [fold_left calls process nth_error step_call].
  unfold getInstance_enter.
  destruct (instance p) as [h |]; cbn [set_nth calls process nth_error step_call].
  - reflexivity.
  - destruct (getInstance_resume env (record [Stat] p)) as [[h | e] p'];
      reflexivity.
Qed.

(** Calls of [getInstance] that do not overlap, each running from its test
    of the static field to its return before the next one starts: a call
    stores what it built and nothing else.  After a success the static field
    holds the returned converter and the next call returns it without
    touching the process, whatever has become of the library; after a
    failure the field is still unset and no converter was built, so the next
    call checks the file again and, with the library in place by then,
    succeeds.  (Calls that overlap are another matter: one suspended at the
    [await] stores a converter of its own when it resumes.) *)
Theorem getInstance_caches_success_only (env : Environment) (p p' : Process)
    (o : Outcome Handle) :
  getInstance env p = (o, p') ->
  run_schedule env [0; 0] (mkSystem [Entry] p)
  = mkSystem [match o with
              | Return h => Resolved h
              | Throw e => Rejected e
              end] p'
  /\ match o with
     | Return h =>
         instance p' = Some h
         /\ created p' <= S (created p)
         /\ (forall env', getInstance env' p' = (Return h, p'))
     | Throw e =>
         instance p = None
         /\ instance p' = None
         /\ created p' = created p
         /\ (forall env',
               stat_ok env' = true -> koffi_load env' = None ->
               exists p'', getInstance env' p' = (Return (S (created p)), p'')
                           /\ instance p'' = Some (S (created p)))
     end.
Proof.
  intros Hrun. split.
  { rewrite getInstance_alone, Hrun. reflexivity. }
  revert Hrun.
  unfold getInstance, getInstance_enter, getInstance_resume,
    new_GoMarkdownConverter, bind, ret, record.
  destruct (instance p) as [h|] eqn:Hi.
  - intros H; injection H as <- <-. rewrite ?Hi.
    split; [reflexivity|]. split; [lia|]. intros env'. reflexivity.
  - destruct (stat_ok env); cbn [instance created log].
    + destruct (koffi_load env) as [e|]; cbn [instance created log];
        intros H; injection H as <- <-; cbn [instance created log].
      * rewrite ?Hi. repeat split.
        intros env' Hs Hl. rewrite Hs, Hl. cbn [instance created log].
        eexists. split; reflexivity.
      * split; [reflexivity|]. split; [lia|]. reflexivity.
    + intros H; injection H as <- <-. cbn [instance created log]. rewrite ?Hi.
      repeat split.
      intros env' Hs Hl. rewrite Hs, Hl. cbn [instance created log].
      eexists. split; reflexivity.
Qed.

Lemma getInstance_caches_success_only_witness :
  instance (snd (getInstance missing_library_env fresh_process)) = None
  /\ exists p'',
       getInstance library_present_env
         (snd (getInstance missing_library_env fresh_process))
       = (Return 1, p'')
       /\ instance p'' = Some 1.
Proof.
  pose proof (getInstance_caches_success_only missing_library_env fresh_process
                (record [Stat] fresh_process)
                (Throw (ErrorObject "Go shared library not found")) eq_refl)
    as [_ [_ [Hnone [_ Hnext]]]].
  split; [exact Hnone|].
  exact (Hnext library_present_env eq_refl eq_refl).
Defined.

(** ** One call of [parseMarkdown] does each thing at most once *)

Lemma nativeAttempt_events (env : Environment) (html : string) (p p1 : Process)
    (o : Outcome string) :
  nativeAttempt env html p = (o, p1) ->
  exists evs,
    log p1 = (log p ++ evs)%list
    /\ created p1 <= S (created p)
    /\ In evs [[NativeCall html]; [Stat; Load]; [Stat; Load; NativeCall html];
               [Stat]].
Proof.
  unfold nativeAttempt, getInstance, getInstance_enter, getInstance_resume,
    new_GoMarkdownConverter, convertHTMLToMarkdown, bind, emit, lift, ret, record.
  destruct (instance p) as [h|].
  - destruct (convert_async env html) as [md|e]; intros H; injection H as <- <-;
      exists [NativeCall html]; cbn [log created In]; repeat split; auto.
  - destruct (stat_ok env); cbn [log instance created].
    + destruct (koffi_load env) as [e|]; cbn [log instance created].
      * intros H; injection H as <- <-. exists [Stat; Load]. cbn [log created In].
        rewrite <- app_assoc. repeat split; auto.
      * destruct (convert_async env html) as [md|e]; intros H;
          injection H as <- <-; exists [Stat; Load; NativeCall html];
          cbn [log created In]; rewrite <- !app_assoc; repeat split; auto.
    + intros H; injection H as <- <-. exists [Stat]. cbn [log created In].
      repeat split; auto.
Qed.

(** Whatever the input and the environment, one call of [parseMarkdown]
    checks the file, loads the library, calls the native converter and runs
    Turndown at most once each, builds at most one converter, sends at most
    one telemetry report or one warning (never both) and logs at most two
    errors: nothing is retried. *)
Theorem parseMarkdown_does_nothing_twice (env : Environment) (html : HtmlInput)
    (p : Process) :
  exists (markdown : string) (p' : Process) (evs : list Event),
    parseMarkdown env html p = (Return markdown, p')
    /\ log p' = (log p ++ evs)%list
    /\ created p' <= S (created p)
    /\ count is_stat evs <= 1
    /\ count is_load evs <= 1
    /\ count is_native_call evs <= 1
    /\ count is_turndown evs <= 1
    /\ count is_telemetry evs + count is_warn_log evs <= 1
    /\ count is_error_log evs <= 2.
Proof.
  assert (Hfb : forall s q, exists evs,
             evs = fallback_events env s
             /\ count is_stat evs = 0 /\ count is_load evs = 0
             /\ count is_native_call evs = 0 /\ count is_turndown evs = 1
             /\ count is_telemetry evs = 0 /\ count is_warn_log evs = 0
             /\ count is_error_log evs <= 1
             /\ fallbackRenderer env s q
                = (Return (fallback_result env s), record evs q)).
  { intros s q. exists (fallback_events env s).
    split; [reflexivity|]. rewrite fallbackRenderer_total.
    unfold fallback_events. destruct (turndown env s); cbn; repeat split; lia. }
  destruct html as [| |[|c s]];
    try (exists EmptyString, p, []; rewrite app_nil_r; cbn;
         repeat split; lia).
  destruct (go_enabled env) eqn:Hen.
  - destruct (nativeAttempt env (String c s) p) as [[md|e] p1] eqn:Hn;
      destruct (nativeAttempt_events _ _ _ _ _ Hn) as [evs1 [Hlog [Hcr Hin]]].
    + exists md, p1, evs1.
      rewrite (parseMarkdown_native_returns _ _ _ _ _ _ Hen Hn).
      split; [reflexivity|]. split; [exact Hlog|]. split; [exact Hcr|].
      cbn [In] in Hin.
      destruct Hin as [<-|[<-|[<-|[<-|[]]]]]; cbn; repeat split; lia.
    + destruct (Hfb (String c s) (record (failure_events e) p1))
        as [evs3 [_ [F1 [F2 [F3 [F4 [F5 [F6 [F7 Hrun]]]]]]]]].
      exists (fallback_result env (String c s)),
        (record evs3 (record (failure_events e) p1)),
        (evs1 ++ failure_events e ++ evs3)%list.
      rewrite (parseMarkdown_native_throws _ _ _ _ _ _ Hen Hn), Hrun.
      split; [reflexivity|].
      split; [cbn [record log]; rewrite Hlog, <- !app_assoc; reflexivity|].
      split; [exact Hcr|].
      rewrite !count_app, F1, F2, F3, F4, F5, F6.
      assert (He : count is_stat (failure_events e) = 0
                   /\ count is_load (failure_events e) = 0
                   /\ count is_native_call (failure_events e) = 0
                   /\ count is_turndown (failure_events e) = 0
                   /\ count is_telemetry (failure_events e)
                      + count is_warn_log (failure_events e) = 1
                   /\ count is_error_log (failure_events e) <= 1).
      { unfold failure_events. destruct (componentUnavailable e); cbn;
          repeat split; lia. }
      destruct He as [E1 [E2 [E3 [E4 [E5 E6]]]]].
      cbn [In] in Hin.
      destruct Hin as [<-|[<-|[<-|[<-|[]]]]]; cbn [count filter is_stat is_load
        is_native_call is_turndown is_telemetry is_warn_log is_error_log
        List.length]; repeat split; lia.
  - destruct (Hfb (String c s) p)
      as [evs3 [_ [F1 [F2 [F3 [F4 [F5 [F6 [F7 Hrun]]]]]]]]].
    exists (fallback_result env (String c s)), (record evs3 p), evs3.
    rewrite (parseMarkdown_fallback_only _ _ _ _ Hen), Hrun.
    split; [reflexivity|]. split; [reflexivity|].
    cbn [record created]. repeat split; lia.
Qed.

(** ** Request interception *)

Lemma startsWith_append_r (s b p : string) :
  startsWith s p = true -> startsWith (s ++ b) p = true.
Proof.
  revert s; induction p as [|c p IH]; intros s H; [reflexivity|].
  destruct s as [|x s]; [discriminate|].
  cbn [startsWith] in H. apply andb_true_iff in H as [Hx H].
  cbn [append startsWith]. rewrite Hx. now apply IH.
Qed.

Lemma includes_empty (s : string) : includes s "" = true.
Proof. destruct s; reflexivity. Qed.

Lemma includes_append_r (s b p : string) :
  includes s p = true -> includes (s ++ b) p = true.
Proof.
  induction s as [|c s IH]; cbn [includes append]; intros H.
  - rewrite orb_false_r in H. destruct p; [apply includes_empty | discriminate].
  - apply orb_true_iff in H as [H|H].
    + change (String c (s ++ b)) with (String c s ++ b).
      now rewrite (startsWith_append_r _ _ _ H).
    + rewrite (IH H). apply orb_true_r.
Qed.

Lemma includes_append_l (a s p : string) :
  includes s p = true -> includes (a ++ s) p = true.
Proof.
  intros H. induction a as [|c a IH]; [exact H|].
  cbn [append includes]. rewrite IH. apply orb_true_r.
Qed.

Lemma includes_to_drop (p s : string) :
  includes s p = true -> exists n, startsWith (drop n s) p = true.
Proof.
  induction s as [|c s IH]; cbn [includes]; intros H.
  - rewrite orb_false_r in H. now exists 0.
  - apply orb_true_iff in H as [H|H]; [now exists 0|].
    destruct (IH H) as [n Hn]. now exists (S n).
Qed.

Lemma includes_refl (s : string) : includes s s = true.
Proof.
  assert (H : startsWith s s = true).
  { rewrite <- (append_nil_r s) at 1. apply startsWith_append. }
  destruct s; cbn [includes]; now rewrite H.
Qed.

(** A text that holds [a ++ b] holds [b]. *)
Lemma includes_tail_of_pattern (h a b : string) :
  includes h (a ++ b) = true -> includes h b = true.
Proof.
  intros H. destruct (includes_to_drop _ _ H) as [n Hn].
  apply startsWith_split in Hn.
  apply (includes_of_drop _ _ (n + String.length a)).
  rewrite <- drop_drop, Hn, append_assoc, drop_append_length.
  apply startsWith_append.
Qed.

(** The interception goes by substring: a host name is refused as soon as a
    listed name occurs anywhere in it, so every host name built around a
    refused one is refused, sub-domains and unrelated look-alikes alike; and
    the last entry of the list never decides, the name [adsystem.com] being
    part of it. *)
Theorem interceptRequest_by_substring :
  (forall h pre post,
      interceptRequest h = RouteAbort ->
      interceptRequest (pre ++ h ++ post) = RouteAbort)
  /\ (forall d pre post,
        In d AD_SERVING_DOMAINS ->
        interceptRequest (pre ++ d ++ post) = RouteAbort)
  /\ (forall h,
        interceptRequest h = RouteAbort
        <-> existsb (fun domain => includes h domain)
                    (removelast AD_SERVING_DOMAINS) = true).
Proof.
  assert (Hin : forall d pre post, In d AD_SERVING_DOMAINS ->
                                   interceptRequest (pre ++ d ++ post) = RouteAbort).
  { intros d pre post Hd. unfold interceptRequest.
    assert (E : existsb (fun domain => includes (pre ++ d ++ post) domain)
                        AD_SERVING_DOMAINS = true).
    { apply existsb_exists. exists d. split; [exact Hd|].
      apply includes_append_l, includes_append_r, includes_refl. }
    now rewrite E. }
  split; [|split; [exact Hin|]].
  - intros h pre post. unfold interceptRequest.
    destruct (existsb (fun domain => includes h domain) AD_SERVING_DOMAINS) eqn:E;
      [intros _|discriminate].
    apply existsb_exists in E as [d [Hd Hinc]].
    assert (E' : existsb (fun domain => includes (pre ++ h ++ post) domain)
                         AD_SERVING_DOMAINS = true).
    { apply existsb_exists. exists d. split; [exact Hd|].
      now apply includes_append_l, includes_append_r. }
    now rewrite E'.
  - intros h. unfold interceptRequest.
    change AD_SERVING_DOMAINS
      with (removelast AD_SERVING_DOMAINS ++ ["amazon-adsystem.com"])%list at 1.
    rewrite existsb_app. cbn [existsb]. rewrite orb_false_r.
    destruct (existsb (fun domain => includes h domain)
                      (removelast AD_SERVING_DOMAINS)) eqn:E.
    + cbn [orb]. tauto.
    + cbn [orb].
      destruct (includes h "amazon-adsystem.com") eqn:Ha; [|split; discriminate].
      exfalso.
      apply (includes_tail_of_pattern h "amazon-" "adsystem.com") in Ha.
      assert (E' : existsb (fun domain => includes h domain)
                           (removelast AD_SERVING_DOMAINS) = true).
      { apply existsb_exists. exists "adsystem.com". split; [|exact Ha].
        cbn. tauto. }
      rewrite E' in E. discriminate.
Qed.

Lemma interceptRequest_by_substring_witness :
  interceptRequest "notfbcdn.net.example.org" = RouteAbort.
Proof.
  apply (proj1 (proj2 interceptRequest_by_substring) "fbcdn.net" "not"
           ".example.org").
  cbn. tauto.
Defined.

(** ** Scrolling to the bottom *)

Lemma autoScroll_step (h : nat -> Z) (fuel k : nat) :
  autoScroll h (S fuel) k (100 * Z.of_nat k)
  = if (100 * Z.of_nat (S k) >=? h k)%Z
    then Some (S k, (100 * Z.of_nat (S k))%Z)
    else autoScroll h fuel (S k) (100 * Z.of_nat (S k)).
Proof.
  cbn [autoScroll].
  replace (100 * Z.of_nat k + 100)%Z with (100 * Z.of_nat (S k))%Z by lia.
  reflexivity.
Qed.

Lemma autoScroll_reaches (h : nat -> Z) (n : nat) :
  (h n <= 100 * Z.of_nat (S n))%Z ->
  (forall j, j < n -> (100 * Z.of_nat (S j) < h j)%Z) ->
  forall fuel k,
    k <= n -> n - k < fuel ->
    autoScroll h fuel k (100 * Z.of_nat k) = Some (S n, (100 * Z.of_nat (S n))%Z).
Proof.
  intros Hn Hbefore. induction fuel as [|fuel IH]; intros k Hk Hfuel; [lia|].
  rewrite autoScroll_step.
  destruct (Nat.eq_dec k n) as [->|Hne].
  - destruct (100 * Z.of_nat (S n) >=? h n)%Z eqn:E; [reflexivity|].
    rewrite Z.geb_leb in E. apply Z.leb_gt in E. lia.
  - assert (Hlt : k < n) by lia. specialize (Hbefore k Hlt).
    destruct (100 * Z.of_nat (S k) >=? h k)%Z eqn:E.
    + rewrite Z.geb_leb in E. apply Z.leb_le in E. lia.
    + apply IH; lia.
Qed.

Lemma autoScroll_never (h : nat -> Z) :
  (forall k, (100 * Z.of_nat (S k) < h k)%Z) ->
  forall fuel k, autoScroll h fuel k (100 * Z.of_nat k) = None.
Proof.
  intros Hgrow. induction fuel as [|fuel IH]; intros k; [reflexivity|].
  rewrite autoScroll_step. specialize (Hgrow k).
  destruct (100 * Z.of_nat (S k) >=? h k)%Z eqn:E; [|apply IH].
  rewrite Z.geb_leb in E. apply Z.leb_le in E. lia.
Qed.

(** The scrolling stops at the first run of the callback at which the
    distance scrolled so far, 100 pixels a run, reaches the height of the
    page read at that run.  On a page of constant height that is after
    [ceil(height / 100)] runs, and after one run when the page is empty; on a
    page that keeps growing ahead of the scrolling the callback never
    resolves, however long it is run. *)
Theorem autoScroll_stops_at_first_reach :
  (forall (h : nat -> Z) (n fuel : nat),
      (h n <= 100 * Z.of_nat (S n))%Z ->
      (forall j, j < n -> (100 * Z.of_nat (S j) < h j)%Z) ->
      n < fuel ->
      autoScroll h fuel 0 0 = Some (S n, (100 * Z.of_nat (S n))%Z))
  /\ (forall (height : Z) (fuel : nat),
        Z.to_nat (Z.max 1 ((height + 99) / 100)) <= fuel ->
        autoScroll (fun _ => height) fuel 0 0
        = Some (Z.to_nat (Z.max 1 ((height + 99) / 100)),
                (100 * Z.max 1 ((height + 99) / 100))%Z))
  /\ (forall (h : nat -> Z) (fuel : nat),
        (forall k, (100 * Z.of_nat (S k) < h k)%Z) ->
        autoScroll h fuel 0 0 = None).
Proof.
  split; [|split].
  - intros h n fuel Hn Hbefore Hfuel.
    apply (autoScroll_reaches h n Hn Hbefore fuel 0); lia.
  - intros height fuel Hfuel.
    set (q := ((height + 99) / 100)%Z) in *.
    assert (Hq : (100 * q <= height + 99 < 100 * q + 100)%Z).
    { unfold q. pose proof (Z.mul_div_le (height + 99) 100 ltac:(lia)).
      pose proof (Z.mul_succ_div_gt (height + 99) 100 ltac:(lia)). lia. }
    set (n := Z.to_nat (Z.max 1 q)) in *.
    assert (Hn : Z.of_nat n = Z.max 1 q) by (unfold n; lia).
    destruct n as [|m] eqn:En; [lia|].
    rewrite <- Hn.
    apply (autoScroll_reaches (fun _ => height) m); lia.
  - intros h fuel Hgrow. apply (autoScroll_never h Hgrow fuel 0).
Qed.

Lemma autoScroll_stops_at_first_reach_witness :
  autoScroll (fun _ => 250%Z) 10 0 0 = Some (3, 300%Z).
Proof.
  apply (proj1 (proj2 autoScroll_stops_at_first_reach) 250%Z 10).
  vm_compute. repeat constructor.
Defined.

(** ** The scripts run in the page *)


Lemma truthy_value (v : option string) :
  truthy v = true -> exists c d, v = Some (String c d).
Proof. destruct v as [[|c d]|]; try discriminate. intros _. now exists c, d. Qed.





(** ** The custom link rule and the post-processor *)

Lemma no_brackets_has_char (s : string) :
  no_brackets s = true <-> has_char "[" s = false /\ has_char "]" s = false.
Proof.
  induction s as [|c s IH]; cbn [no_brackets has_char]; [tauto|].
  rewrite !andb_true_iff, !negb_true_iff, !orb_false_iff, IH.
  rewrite (Ascii.eqb_sym c "["), (Ascii.eqb_sym c "]"). tauto.
Qed.

Lemma no_brackets_append (a b : string) :
  no_brackets (a ++ b) = no_brackets a && no_brackets b.
Proof.
  induction a as [|c a IH]; [reflexivity|].
  cbn [append no_brackets]. now rewrite IH, andb_assoc.
Qed.

(** Over a stretch without brackets the depth stands still: inside a link
    every newline of the stretch is escaped, outside none is. *)
Lemma escape_scan_plain (a : string) :
  no_brackets a = true ->
  forall d b,
    escape_scan d (a ++ b)
    = (if (0 <? d)%Z then escape_newlines a else a) ++ escape_scan d b.
Proof.
  induction a as [|c a IH]; intros H d b.
  - destruct (0 <? d)%Z; reflexivity.
  - cbn [no_brackets] in H. apply andb_true_iff in H as [H Ha].
    apply andb_true_iff in H as [Ho Hc]. apply negb_true_iff in Ho, Hc.
    cbn [append escape_scan escape_newlines]. unfold depth_step.
    rewrite Ho, Hc, (IH Ha).
    destruct (0 <? d)%Z, (Ascii.eqb c LF); reflexivity.
Qed.

Lemma processMultiLineLinks_plain_link (text rest : string) :
  no_brackets text = true ->
  no_brackets rest = true ->
  processMultiLineLinks ("[" ++ text ++ "]" ++ rest)
  = "[" ++ escape_newlines text ++ "]" ++ rest.
Proof.
  intros Ht Hr. rewrite processMultiLineLinks_scan.
  change ("[" ++ text ++ "]" ++ rest) with (String "[" (text ++ String "]" rest)).
  change (escape_scan 0 (String "[" (text ++ String "]" rest)))
    with (String "[" (escape_scan 1 (text ++ String "]" rest))).
  rewrite (escape_scan_plain _ Ht).
  change (escape_scan 1 (String "]" rest)) with (String "]" (escape_scan 0 rest)).
  rewrite (escape_scan_no_brackets _ Hr). reflexivity.
Qed.

Lemma canonical_LF (x : ascii) :
  Ascii.eqb (canonicalize x) (canonicalize LF) = true -> x = LF.
Proof. intros H. by_cases_on_ascii x H. Qed.

(** A text equal to another up to letter case lacks a character without
    another case whenever the other text lacks it. *)
Lemma eqb_nocase_lacks (c : ascii) (a b : string) :
  (forall y, Ascii.eqb (canonicalize y) (canonicalize c) = true -> y = c) ->
  eqb_nocase a b = true -> has_char c b = false -> has_char c a = false.
Proof.
  intros Hc. revert b; induction a as [|x a IH]; intros [|y b] H Hb;
    try discriminate; [reflexivity|].
  cbn [eqb_nocase] in H. apply andb_true_iff in H as [Hxy H].
  cbn [has_char] in Hb. apply orb_false_iff in Hb as [Hy Hb].
  cbn [has_char]. rewrite (IH b H Hb), orb_false_r.
  destruct (Ascii.eqb c x) eqn:Hx; [|reflexivity].
  apply Ascii.eqb_eq in Hx. subst x.
  rewrite Ascii.eqb_sym in Hxy. apply Hc in Hxy. subst y.
  now rewrite Ascii.eqb_refl in Hy.
Qed.

Lemma escape_newlines_none (s : string) :
  has_char LF s = false -> escape_newlines s = s.
Proof.
  induction s as [|c s IH]; [reflexivity|].
  cbn [has_char]. intros H. apply orb_false_iff in H as [Hc Hs].
  cbn [escape_newlines]. rewrite Ascii.eqb_sym, Hc. now rewrite IH.
Qed.

(** What the link rule emits for a link without brackets in its text, its
    target and its title comes out of the multi-line-link pass with every
    newline of the text escaped and with its closing newline as it was. *)
Theorem inlineLink_text_on_one_line (content linkStyle : string) (node : Node) :
  inlineLink_filter node linkStyle = true ->
  no_brackets (trim content) = true ->
  no_brackets (trim (or_else (getAttribute node "href") "")) = true ->
  no_brackets (title_of node) = true ->
  exists markdown,
    inlineLink_replacement content node = Return markdown
    /\ processMultiLineLinks markdown
       = "[" ++ escape_newlines (trim content) ++ "]("
         ++ trim (or_else (getAttribute node "href") "")
         ++ (if truthy (Some (title_of node))
             then " " ++ str1 DQUOTE ++ title_of node ++ str1 DQUOTE
             else "")
         ++ ")" ++ str1 LF.
Proof.
  intros Hf Hc Hh Ht.
  unfold inlineLink_filter in Hf. apply andb_true_iff in Hf as [_ Hhref].
  destruct (truthy_value _ Hhref) as [c [h Hv]].
  unfold inlineLink_replacement. rewrite Hv in *. cbn [or_else] in *.
  eexists. split; [reflexivity|].
  set (title := if truthy (Some (title_of node))
                then " " ++ str1 DQUOTE ++ title_of node ++ str1 DQUOTE
                else "").
  assert (Htitle : no_brackets title = true).
  { unfold title. destruct (truthy (Some (title_of node))); [|reflexivity].
    rewrite !no_brackets_append, Ht. reflexivity. }
  replace ("[" ++ trim content ++ "](" ++ trim (String c h) ++ title ++ ")"
           ++ str1 LF)
    with ("[" ++ trim content ++ "]"
          ++ ("(" ++ trim (String c h) ++ title ++ ")" ++ str1 LF))
    by reflexivity.
  rewrite processMultiLineLinks_plain_link; [reflexivity | exact Hc |].
  rewrite !no_brackets_append, Hh, Htitle. reflexivity.
Qed.

Lemma inlineLink_text_on_one_line_witness :
  exists markdown,
    inlineLink_replacement
      (" first" ++ str1 LF ++ "caf" ++ bytes [195; 160] ++ bytes [194; 160])
      (mkNode "A" "" (lookup_attr [("href", " /page "); ("title", "T")]))
    = Return markdown
    /\ processMultiLineLinks markdown
       = "[first" ++ str1 BACKSLASH ++ str1 LF ++ "caf" ++ bytes [195; 160]
         ++ "](/page " ++ str1 DQUOTE ++ "T" ++ str1 DQUOTE ++ ")" ++ str1 LF.
Proof.
  exact (inlineLink_text_on_one_line
           (" first" ++ str1 LF ++ "caf" ++ bytes [195; 160] ++ bytes [194; 160])
           "inlined"
           (mkNode "A" "" (lookup_attr [("href", " /page "); ("title", "T")]))
           eq_refl eq_refl eq_refl eq_refl).
Defined.

(** A skip-to-content anchor rendered by the link rule does not survive the
    post-processor: of what the rule emits, only the closing newline is
    left. *)
Theorem inlineLink_skip_link_removed (content linkStyle : string) (node : Node) :
  inlineLink_filter node linkStyle = true ->
  eqb_nocase (trim content) "Skip to Content" = true ->
  startsWith (trim (or_else (getAttribute node "href") "")) "#" = true ->
  has_char ")" (trim (or_else (getAttribute node "href") "")) = false ->
  has_char ")" (title_of node) = false ->
  no_brackets (trim (or_else (getAttribute node "href") "")) = true ->
  no_brackets (title_of node) = true ->
  exists markdown,
    inlineLink_replacement content node = Return markdown
    /\ removeSkipToContentLinks (processMultiLineLinks markdown) = str1 LF.
Proof.
  intros Hf Htext Hhash Hclose Htclose Hh Ht.
  assert (Hbr : no_brackets (trim content) = true).
  { apply no_brackets_has_char. split.
    - apply (eqb_nocase_lacks "[" _ _ canonical_open_bracket Htext). reflexivity.
    - apply (eqb_nocase_lacks "]" _ _ canonical_close_bracket Htext). reflexivity. }
  assert (Hnl : has_char LF (trim content) = false).
  { apply (eqb_nocase_lacks LF _ _ canonical_LF Htext). reflexivity. }
  destruct (inlineLink_text_on_one_line content linkStyle node Hf Hbr Hh Ht)
    as [markdown [Hrun Hpost]].
  exists markdown. split; [exact Hrun|]. rewrite Hpost.
  rewrite (escape_newlines_none _ Hnl).
  apply startsWith_split in Hhash. change (String.length "#") with 1 in Hhash.
  set (href := trim (or_else (getAttribute node "href") "")) in *.
  set (title := if truthy (Some (title_of node))
                then " " ++ str1 DQUOTE ++ title_of node ++ str1 DQUOTE
                else "").
  assert (Htitle : has_char ")" title = false).
  { unfold title. destruct (truthy (Some (title_of node))); [|reflexivity].
    rewrite !has_char_append, Htclose. reflexivity. }
  assert (Htarget : has_char ")" (drop 1 href ++ title) = false).
  { rewrite has_char_append, Htitle, orb_false_r.
    rewrite Hhash in Hclose. cbn [append has_char] in Hclose.
    now apply orb_false_iff in Hclose as [_ Hclose]. }
  assert (Hlink : SkipLink ("[" ++ trim content ++ "](#"
                            ++ (drop 1 href ++ title) ++ ")")).
  { exists (trim content), (drop 1 href ++ title). now repeat split. }
  replace ("[" ++ trim content ++ "](" ++ href ++ title ++ ")" ++ str1 LF)
    with (("[" ++ trim content ++ "](#" ++ (drop 1 href ++ title) ++ ")")
          ++ str1 LF).
  - rewrite (removeSkipToContentLinks_drop _ _
               (skip_link_at_complete _ (str1 LF) Hlink)).
    now rewrite drop_append_length.
  - generalize (drop 1 href) Hhash. intros target ->.
    rewrite !append_assoc. reflexivity.
Qed.

Lemma inlineLink_skip_link_removed_witness :
  exists markdown,
    inlineLink_replacement " Skip to content "
      (mkNode "A" "" (lookup_attr [("href", "#main")]))
    = Return markdown
    /\ removeSkipToContentLinks (processMultiLineLinks markdown) = str1 LF.
Proof.
  exact (inlineLink_skip_link_removed " Skip to content " "inlined"
           (mkNode "A" "" (lookup_attr [("href", "#main")]))
           eq_refl eq_refl eq_refl eq_refl eq_refl eq_refl eq_refl).
Defined.

(** ** The scraping service

    A small logic of the service's computations: which events they add,
    whether they return, and what they throw. *)

Lemma emits_ret {A : Type} (P : ApiEvent -> bool) (a : A) : emits P (api_ret a).
Proof.
  intros st o st' H. inversion H; subst. exists [].
  rewrite app_nil_r. split; reflexivity.
Qed.

Lemma emits_throw {A : Type} (P : ApiEvent -> bool) (e : Thrown) :
  emits P (@api_throw A e).
Proof.
  intros st o st' H. inversion H; subst. exists [].
  rewrite app_nil_r. split; reflexivity.
Qed.

Lemma emits_perform {A : Type} (P : ApiEvent -> bool) (ev : ApiEvent)
    (oracle : list ApiEvent -> Awaited A) :
  P ev = true -> emits P (perform ev oracle).
Proof.
  intros HP st o st' H. inversion H; subst. exists [ev]. simpl.
  rewrite HP. split; reflexivity.
Qed.

Lemma emits_bind {A B : Type} (P : ApiEvent -> bool) (m : Api A)
    (f : A -> Api B) :
  emits P m -> (forall a, emits P (f a)) -> emits P (api_bind m f).
Proof.
  intros Hm Hf st o st' H. unfold api_bind in H.
  destruct (m st) as [[a | e |] st1] eqn:E.
  - destruct (Hm _ _ _ E) as [evs1 [H1 F1]].
    destruct (Hf a _ _ _ H) as [evs2 [H2 F2]].
    exists (evs1 ++ evs2)%list. split.
    + rewrite H2, H1, app_assoc. reflexivity.
    + rewrite forallb_app, F1, F2. reflexivity.
  - inversion H; subst. exact (Hm _ _ _ E).
  - inversion H; subst. exact (Hm _ _ _ E).
Qed.

Lemma emits_try {A : Type} (P : ApiEvent -> bool) (body : Api A)
    (handler : Thrown -> Api A) :
  emits P body -> (forall e, emits P (handler e)) -> emits P (api_try body handler).
Proof.
  intros Hm Hf st o st' H. unfold api_try in H.
  destruct (body st) as [[a | e |] st1] eqn:E.
  - inversion H; subst. exact (Hm _ _ _ E).
  - destruct (Hm _ _ _ E) as [evs1 [H1 F1]].
    destruct (Hf e _ _ _ H) as [evs2 [H2 F2]].
    exists (evs1 ++ evs2)%list. split.
    + rewrite H2, H1, app_assoc. reflexivity.
    + rewrite forallb_app, F1, F2. reflexivity.
  - inversion H; subst. exact (Hm _ _ _ E).
Qed.

Lemma emits_set_browser (P : ApiEvent -> bool) : emits P set_browser.
Proof.
  intros st o st' H. inversion H; subst. exists []. simpl.
  rewrite app_nil_r. split; reflexivity.
Qed.

Lemma emits_set_context (P : ApiEvent -> bool) : emits P set_context.
Proof.
  intros st o st' H. inversion H; subst. exists []. simpl.
  rewrite app_nil_r. split; reflexivity.
Qed.

Ltac emits_steps :=
  repeat first
    [ apply emits_ret
    | apply emits_throw
    | apply emits_set_browser
    | apply emits_set_context
    | apply emits_perform; reflexivity
    | apply emits_bind; [ | intros ? ]
    | apply emits_try; [ | intros ? ]
    | match goal with
      | |- emits _ (if ?b then _ else _) => destruct b
      | |- emits _ (match ?x with _ => _ end) => destruct x
      end ].

Lemma initializeBrowser_emits (env : ApiEnv) :
  emits is_setup (initializeBrowser env).
Proof. unfold initializeBrowser. emits_steps. Qed.

Lemma scrapePage_emits (env : ApiEnv) (url waitUntil : string)
    (waitAfterLoad timeout : Z) (checkSelector : option string) :
  emits is_page_work
    (scrapePage env url waitUntil waitAfterLoad timeout checkSelector).
Proof.
  unfold scrapePage, autoScrollPage, handleWechatLazyImages. emits_steps.
Qed.

Lemma returns_ret {A : Type} (a : A) : returns (api_ret a).
Proof. intros st. exists a, st. reflexivity. Qed.

Lemma returns_perform {A : Type} (ev : ApiEvent)
    (oracle : list ApiEvent -> Awaited A) :
  succeeds oracle ev -> returns (perform ev oracle).
Proof.
  intros H st. destruct (H (history st)) as [a Ha].
  exists a. eexists. unfold perform. rewrite Ha. reflexivity.
Qed.

Lemma returns_bind {A B : Type} (m : Api A) (f : A -> Api B) :
  returns m -> (forall a, returns (f a)) -> returns (api_bind m f).
Proof.
  intros Hm Hf st. destruct (Hm st) as [a [st1 E]].
  destruct (Hf a st1) as [b [st2 E2]].
  exists b, st2. unfold api_bind. rewrite E. exact E2.
Qed.

Lemma returns_try {A : Type} (body : Api A) (handler : Thrown -> Api A) :
  comes_back body -> (forall e, returns (handler e)) ->
  returns (api_try body handler).
Proof.
  intros Hb Hh st. unfold api_try. specialize (Hb st).
  destruct (body st) as [[a | e |] st1].
  - exists a, st1. reflexivity.
  - apply Hh.
  - contradiction Hb. reflexivity.
Qed.

Lemma comes_back_perform {A : Type} (ev : ApiEvent)
    (oracle : list ApiEvent -> Awaited A) :
  settles oracle ev -> comes_back (perform ev oracle).
Proof. intros H st. apply H. Qed.

Lemma comes_back_bind {A B : Type} (m : Api A) (f : A -> Api B) :
  comes_back m -> (forall a, comes_back (f a)) -> comes_back (api_bind m f).
Proof.
  intros Hm Hf st. unfold api_bind. specialize (Hm st).
  destruct (m st) as [[a | e |] st1].
  - apply Hf.
  - discriminate.
  - contradiction Hm. reflexivity.
Qed.

Lemma succeeds_settles {A : Type} (oracle : list ApiEvent -> Awaited A)
    (ev : ApiEvent) :
  succeeds oracle ev -> settles oracle ev.
Proof. intros H h. destruct (H h) as [a ->]. discriminate. Qed.

Lemma hangs_perform {A : Type} (ev : ApiEvent)
    (oracle : list ApiEvent -> Awaited A) :
  (forall h, oracle (h ++ [ev])%list = Hangs) -> hangs (perform ev oracle).
Proof. intros H st. eexists. unfold perform. rewrite H. reflexivity. Qed.

Lemma hangs_bind {A B : Type} (m : Api A) (f : A -> Api B) :
  returns m -> (forall a, hangs (f a)) -> hangs (api_bind m f).
Proof.
  intros Hm Hf st. destruct (Hm st) as [a [st1 E]].
  destruct (Hf a st1) as [st2 E2].
  exists st2. unfold api_bind. rewrite E. exact E2.
Qed.

Lemma hangs_first {A B : Type} (m : Api A) (f : A -> Api B) :
  hangs m -> hangs (api_bind m f).
Proof.
  intros Hm st. destruct (Hm st) as [st1 E].
  exists st1. unfold api_bind. rewrite E. reflexivity.
Qed.

Lemma hangs_try {A : Type} (body : Api A) (handler : Thrown -> Api A) :
  hangs body -> hangs (api_try body handler).
Proof.
  intros Hb st. destruct (Hb st) as [st1 E].
  exists st1. unfold api_try. rewrite E. reflexivity.
Qed.

Lemma returns_guarded {A : Type} (body : Api A) (handler : Thrown -> Api A) :
  returns body -> returns (api_try body handler).
Proof.
  intros Hb st. unfold api_try. destruct (Hb st) as [a [st1 E]].
  rewrite E. exists a, st1. reflexivity.
Qed.




Lemma throws_only_ret {A : Type} (E : Thrown -> Prop) (a : A) :
  throws_only E (api_ret a).
Proof. intros st e st' H. discriminate H. Qed.

Lemma throws_only_throw {A : Type} (E : Thrown -> Prop) (e : Thrown) :
  E e -> throws_only E (@api_throw A e).
Proof. intros He st e' st' H. inversion H; subst. exact He. Qed.

Lemma throws_only_perform {A : Type} (E : Thrown -> Prop) (ev : ApiEvent)
    (oracle : list ApiEvent -> Awaited A) :
  (forall h e, oracle (h ++ [ev])%list = Throws e -> E e) ->
  throws_only E (perform ev oracle).
Proof.
  intros H st e st' Hrun. unfold perform in Hrun.
  inversion Hrun as [[Ho Hst]]. exact (H _ _ Ho).
Qed.

Lemma throws_only_bind {A B : Type} (E : Thrown -> Prop) (m : Api A)
    (f : A -> Api B) :
  throws_only E m -> (forall a, throws_only E (f a)) ->
  throws_only E (api_bind m f).
Proof.
  intros Hm Hf st e st' H. unfold api_bind in H.
  destruct (m st) as [[a | e1 |] st1] eqn:E1.
  - exact (Hf a _ _ _ H).
  - inversion H; subst. exact (Hm _ _ _ E1).
  - discriminate H.
Qed.

Lemma throws_only_try {A : Type} (E : Thrown -> Prop) (body : Api A)
    (handler : Thrown -> Api A) :
  (forall e, throws_only E (handler e)) -> throws_only E (api_try body handler).
Proof.
  intros Hh st e st' H. unfold api_try in H.
  destruct (body st) as [[a | e1 |] st1] eqn:E1.
  - discriminate H.
  - exact (Hh e1 _ _ _ H).
  - discriminate H.
Qed.

Lemma throws_only_silent {A : Type} (E : Thrown -> Prop) (m : Api A) :
  returns m -> throws_only E m.
Proof.
  intros Hm st e st' H. destruct (Hm st) as [a [st1 E1]].
  rewrite E1 in H. discriminate H.
Qed.



(** A [try] whose handler only logs, around one operation that settles. *)
Lemma best_effort_returns (env : ApiEnv) (ev : ApiEvent) :
  settles (does env) ev ->
  returns (api_try (perform ev (does env)) (fun error => api_ret tt)).
Proof.
  intros H. apply returns_try; [apply comes_back_perform, H | ].
  intros e. apply returns_ret.
Qed.

Lemma autoScrollPage_returns (env : ApiEnv) :
  settles (does env) (Evaluate AutoScrollScript) ->
  returns (autoScrollPage env).
Proof. apply best_effort_returns. Qed.

Lemma handleWechatLazyImages_returns (env : ApiEnv) :
  (forall script, settles (does env) (Evaluate script)) ->
  (forall ms, succeeds (does env) (WaitForTimeout ms)) ->
  returns (handleWechatLazyImages env).
Proof.
  intros He Hw. apply returns_try; [ | intros e; apply returns_ret].
  repeat (apply comes_back_bind; [ | intros _ ]);
    apply comes_back_perform; auto using succeeds_settles.
Qed.

(** Neither of them throws. *)
Lemma best_effort_silent (E : Thrown -> Prop) (body : Api unit) :
  throws_only E (api_try body (fun error => api_ret tt)).
Proof. apply throws_only_try. intros e. apply throws_only_ret. Qed.

Lemma truthy_some (v : option string) :
  truthy v = true -> v = Some (or_else v "") /\ or_else v "" <> "".
Proof.
  destruct v as [[| c s] |]; simpl; intros H; try discriminate H.
  split; [reflexivity | discriminate].
Qed.

(** [autoScrollPage], [handleWechatLazyImages], the click on the body, the
    two image scripts: none of them can make [scrapePage] fail.  Whatever
    [page.click] and [page.evaluate] answer, a value or an error, [scrapePage]
    returns a result as long as the navigation, the waits, the required
    selector (when one is asked for) and the reading of the content succeed.
    Nothing bounds the run of a script, though: when the scroll script never
    settles, [scrapePage] never comes back, although nothing throws. *)
Theorem scrapePage_best_effort_steps (env : ApiEnv) (url waitUntil : string)
    (waitAfterLoad timeout : Z) (checkSelector : option string) :
  succeeds (goes env) (Goto url waitUntil timeout) ->
  (forall ms, succeeds (does env) (WaitForTimeout ms)) ->
  (forall selector,
     checkSelector = Some selector -> selector <> "" ->
     succeeds (does env) (WaitForSelector selector timeout)) ->
  succeeds (reads env) PageContent ->
  succeeds (lists env) AllHeaders ->
  succeeds (reads env) ResponseBody ->
  ((forall script, settles (does env) (Evaluate script)) ->
   settles (does env) (Click "body") ->
   returns (scrapePage env url waitUntil waitAfterLoad timeout checkSelector))
  /\ ((forall h, does env (h ++ [Evaluate AutoScrollScript])%list = Hangs) ->
      hangs (scrapePage env url waitUntil waitAfterLoad timeout checkSelector)).
Proof.
  intros Hgoto Hwait Hsel Hcontent Hheaders Hbody. split.
  - intros Heval Hclick. unfold scrapePage.
    apply returns_bind; [apply returns_perform, Hgoto | intros response].
    apply returns_bind; [apply returns_perform, Hwait | intros _].
    apply returns_bind; [apply autoScrollPage_returns, Heval | intros _].
    apply returns_bind;
      [apply handleWechatLazyImages_returns; assumption | intros _].
    apply returns_bind; [apply best_effort_returns, Hclick | intros _].
    apply returns_bind; [apply best_effort_returns, Heval | intros _].
    apply returns_bind; [ | intros _].
    { destruct (0 <? waitAfterLoad)%Z.
      - apply returns_perform, Hwait.
      - apply returns_ret. }
    apply returns_bind; [ | intros _].
    { destruct (truthy checkSelector) eqn:Et.
      - apply returns_guarded, returns_perform.
        destruct (truthy_some _ Et) as [Hs Hne]. exact (Hsel _ Hs Hne).
      - apply returns_ret. }
    apply returns_bind; [apply best_effort_returns, Heval | intros _].
    apply returns_bind; [apply returns_perform, Hcontent | intros content].
    destruct response as [status |]; [ | apply returns_ret].
    apply returns_bind; [apply returns_perform, Hheaders | intros hs].
    destruct (findContentType hs) as [[name value] |]; [ | apply returns_ret].
    destruct (includes value "application/json" || includes value "text/plain").
    + apply returns_bind; [apply returns_perform, Hbody | intros b].
      apply returns_ret.
    + apply returns_ret.
  - intros Hscroll. unfold scrapePage.
    apply hangs_bind; [apply returns_perform, Hgoto | intros response].
    apply hangs_bind; [apply returns_perform, Hwait | intros _].
    apply hangs_first. unfold autoScrollPage.
    apply hangs_try, hangs_perform, Hscroll.
Qed.

Lemma scrapePage_best_effort_steps_witness :
  returns (scrapePage brittle_page "https://example.com" "networkidle" 2000
             30000 (Some "#main"))
  /\ fst (scrapePage brittle_page "https://example.com" "networkidle" 2000
            30000 (Some "#main") fresh_service)
     = Yields (mkScrapeResult "{}" (Some 200%Z)
                 (Some [("Content-Type", "application/json")])).
Proof.
  split; [ | reflexivity].
  apply scrapePage_best_effort_steps.
  - intros h. eexists. reflexivity.
  - intros ms h. exists tt. simpl. rewrite last_last. reflexivity.
  - intros selector _ _ h. exists tt. simpl. rewrite last_last. reflexivity.
  - intros h. eexists. simpl. rewrite last_last. reflexivity.
  - intros h. eexists. reflexivity.
  - intros h. eexists. simpl. rewrite last_last. reflexivity.
  - intros script h. simpl. rewrite last_last. discriminate.
  - intros h. simpl. rewrite last_last. discriminate.
Defined.

(** What [scrapePage] throws is either the fixed error of the selector check
    or an error of one of the operations it runs outside a [try]: the
    navigation, a wait, the reading of the content, of the headers or of the
    body.  An error of a click, of a script or of the selector wait itself
    never reaches the caller. *)
Theorem scrapePage_errors (env : ApiEnv) (url waitUntil : string)
    (waitAfterLoad timeout : Z) (checkSelector : option string)
    (st st' : ApiState) (e : Thrown) :
  scrapePage env url waitUntil waitAfterLoad timeout checkSelector st
  = (Throws e, st') ->
  (e = ErrorObject "Required selector not found"
   /\ truthy checkSelector = true)
  \/ exists h ev, is_unguarded ev = true /\ answer_error env h ev = Some e.
Proof.
  revert st e st'.
  change (throws_only
            (fun e =>
               (e = ErrorObject "Required selector not found"
                /\ truthy checkSelector = true)
               \/ exists h ev,
                    is_unguarded ev = true /\ answer_error env h ev = Some e)
            (scrapePage env url waitUntil waitAfterLoad timeout checkSelector)).
  assert (Hop : forall (A : Type) (oracle : list ApiEvent -> Awaited A) ev,
             is_unguarded ev = true ->
             (forall h, answer_error env h ev = error_of (oracle (h ++ [ev])%list)) ->
             throws_only
               (fun e =>
                  (e = ErrorObject "Required selector not found"
                   /\ truthy checkSelector = true)
                  \/ exists h ev,
                       is_unguarded ev = true /\ answer_error env h ev = Some e)
               (perform ev oracle)).
  { intros A oracle ev Hu Ha. apply throws_only_perform. intros h e He.
    right. exists h, ev. split; [exact Hu | ]. rewrite Ha, He. reflexivity. }
  unfold scrapePage.
  apply throws_only_bind; [apply Hop; [reflexivity | intros h; reflexivity] | intros response].
  apply throws_only_bind; [apply Hop; [reflexivity | intros h; reflexivity] | intros _].
  apply throws_only_bind; [apply best_effort_silent | intros _].
  apply throws_only_bind; [apply best_effort_silent | intros _].
  apply throws_only_bind; [apply best_effort_silent | intros _].
  apply throws_only_bind; [apply best_effort_silent | intros _].
  apply throws_only_bind; [ | intros _].
  { destruct (0 <? waitAfterLoad)%Z.
    - apply Hop; [reflexivity | intros h; reflexivity].
    - apply throws_only_ret. }
  apply throws_only_bind; [ | intros _].
  { destruct (truthy checkSelector) eqn:Et.
    - apply throws_only_try. intros e. apply throws_only_throw.
      left. split; reflexivity.
    - apply throws_only_ret. }
  apply throws_only_bind; [apply best_effort_silent | intros _].
  apply throws_only_bind; [apply Hop; [reflexivity | intros h; reflexivity] | intros content].
  destruct response as [status |]; [ | apply throws_only_ret].
  apply throws_only_bind; [apply Hop; [reflexivity | intros h; reflexivity] | intros hs].
  destruct (findContentType hs) as [[name value] |]; [ | apply throws_only_ret].
  destruct (includes value "application/json" || includes value "text/plain").
  - apply throws_only_bind; [apply Hop; [reflexivity | intros h; reflexivity] | intros b].
    apply throws_only_ret.
  - apply throws_only_ret.
Qed.

Lemma scrapePage_errors_witness :
  exists st',
    scrapePage unreachable_site "https://example.invalid" "networkidle" 2000
      30000 None fresh_service
    = (Throws (ErrorObject "net::ERR_NAME_NOT_RESOLVED"), st')
    /\ ((ErrorObject "net::ERR_NAME_NOT_RESOLVED"
         = ErrorObject "Required selector not found"
         /\ truthy None = true)
        \/ exists h ev,
             is_unguarded ev = true
             /\ answer_error unreachable_site h ev
                = Some (ErrorObject "net::ERR_NAME_NOT_RESOLVED")).
Proof.
  eexists. split; [reflexivity | ].
  eapply (scrapePage_errors unreachable_site "https://example.invalid"
            "networkidle" 2000 30000 None fresh_service).
  reflexivity.
Defined.



Lemma tally_app (f : ApiEvent -> bool) (a b : list ApiEvent) :
  tally f (a ++ b) = tally f a + tally f b.
Proof. unfold tally. rewrite filter_app, length_app. reflexivity. Qed.

Lemma tally_class (P f : ApiEvent -> bool) (evs : list ApiEvent) :
  forallb P evs = true ->
  (forall ev, P ev = true -> f ev = false) ->
  tally f evs = 0.
Proof.
  intros HP Hf. induction evs as [| ev evs IH]; [reflexivity | ].
  simpl in HP. apply andb_prop in HP. destruct HP as [H1 H2].
  unfold tally. simpl. rewrite (Hf _ H1). apply IH. exact H2.
Qed.

Lemma setup_is_no_answer (ev : ApiEvent) :
  is_setup ev = true ->
  is_respond ev = false /\ is_new_page ev = false /\ is_close_page ev = false.
Proof. destruct ev; simpl; intros H; try discriminate H; repeat split. Qed.

Lemma page_work_is_no_answer (ev : ApiEvent) :
  is_page_work ev = true ->
  is_respond ev = false /\ is_new_page ev = false /\ is_close_page ev = false.
Proof. destruct ev; simpl; intros H; try discriminate H; repeat split. Qed.


Lemma scrapeHandler_valid_url (env : ApiEnv) (req : UrlModel)
    (st st' : ApiState) (o : Awaited unit) :
  truthy (url req) = true ->
  isValidUrl env (or_else (url req) "") = true ->
  scrapeHandler env req st = (o, st') ->
  exists evs,
    history st' = (history st ++ evs)%list
    /\ match o with
       | Yields _ =>
           tally is_respond evs = 1
           /\ (exists before code body,
                 evs = (before ++ [Respond code body])%list)
           /\ tally is_close_page evs = 1
           /\ tally is_new_page evs = 1
       | _ => tally is_respond evs = 0
       end.
Proof.
  intros Et Ev H. unfold scrapeHandler in H. rewrite Et, Ev in H.
  cbn [negb] in H. unfold api_bind, api_try in H.
  match type of H with
  | context [if ?c then initializeBrowser env st else ?other] =>
      destruct (if c then initializeBrowser env st else other)
        as [o0 st1] eqn:E0
  end.
  assert (Hinit : exists evs0,
             history st1 = (history st ++ evs0)%list
             /\ forallb is_setup evs0 = true).
  { destruct (negb (browser st) || negb (context st)).
    - exact (initializeBrowser_emits env _ _ _ E0).
    - inversion E0; subst. exists []. rewrite app_nil_r. split; reflexivity. }
  destruct Hinit as [evs0 [H0 F0]].
  pose proof (tally_class is_setup is_respond evs0 F0
                (fun ev Hev => proj1 (setup_is_no_answer ev Hev))) as R0.
  pose proof (tally_class is_setup is_new_page evs0 F0
                (fun ev Hev => proj1 (proj2 (setup_is_no_answer ev Hev)))) as N0.
  pose proof (tally_class is_setup is_close_page evs0 F0
                (fun ev Hev => proj2 (proj2 (setup_is_no_answer ev Hev)))) as C0.
  destruct o0 as [[] | e0 |].
  2, 3: inversion H; subst; exists evs0; split; [exact H0 | exact R0].
  unfold perform, respond, api_ret in H. cbn [history browser context] in H.
  destruct (does env (history st1 ++ [NewPage])%list) as [[] | e1 |].
  2, 3: inversion H; subst; cbn [history]; exists (evs0 ++ [NewPage])%list;
    (split; [rewrite H0, app_assoc; reflexivity | ]);
    rewrite tally_app, R0; reflexivity.
  destruct (headers req) as [hs |]; cbn [history browser context] in H;
  [ destruct (does env ((history st1 ++ [NewPage]) ++ [SetExtraHTTPHeaders hs])%list)
      as [[] | e2 |];
    [ | inversion H; subst; cbn [history];
        exists (evs0 ++ [NewPage] ++ [SetExtraHTTPHeaders hs])%list;
        split; [rewrite H0, <- !app_assoc; reflexivity
               | rewrite !tally_app, R0; reflexivity]
      | inversion H; subst; cbn [history];
        exists (evs0 ++ [NewPage] ++ [SetExtraHTTPHeaders hs])%list;
        split; [rewrite H0, <- !app_assoc; reflexivity
               | rewrite !tally_app, R0; reflexivity] ]
  | ];
  (match type of H with
   | context [scrapePage ?a ?b ?c ?d ?e ?f ?s] =>
       destruct (scrapePage a b c d e f s) as [[result | e3 |] st4] eqn:E3;
       destruct (scrapePage_emits _ _ _ _ _ _ _ _ _ E3) as [evs3 [H3 F3]];
       cbn [history] in H3;
       pose proof (tally_class is_page_work is_respond evs3 F3
                     (fun ev Hev => proj1 (page_work_is_no_answer ev Hev))) as R3;
       pose proof (tally_class is_page_work is_new_page evs3 F3
                     (fun ev Hev => proj1 (proj2 (page_work_is_no_answer ev Hev)))) as N3;
       pose proof (tally_class is_page_work is_close_page evs3 F3
                     (fun ev Hev => proj2 (proj2 (page_work_is_no_answer ev Hev)))) as C3
   end);
  destruct (does env (history st4 ++ [ClosePage])%list) as [[] | e4 |];
  inversion H; subst; cbn [history]; rewrite H3, H0, <- !app_assoc;
  (eexists; split; [reflexivity | ]);
  rewrite ?tally_app, ?R0, ?N0, ?C0, ?R3, ?N3, ?C3.
  all: try reflexivity.
  all: split;
    [ reflexivity
    | split; [rewrite !app_assoc; eexists _, _, _; reflexivity
             | split; reflexivity] ].
Qed.

(** Every run of the handler of [/scrape] that completes answers the client
    exactly once, as the last thing it does, and has closed every page it
    opened: one page for a request with a valid URL, none otherwise.  A run
    that rejects has not answered, and neither has a run that waits for ever.
    A request without a URL, or with a URL that does not parse, is answered
    with status 400 and nothing else is done: no browser is launched and no
    page is opened. *)
Theorem scrapeHandler_answers_once (env : ApiEnv) (req : UrlModel)
    (st : ApiState) :
  let r := scrapeHandler env req st in
  let valid := truthy (url req) && isValidUrl env (or_else (url req) "") in
  exists evs,
    history (snd r) = (history st ++ evs)%list
    /\ match fst r with
       | Yields _ =>
           tally is_respond evs = 1
           /\ (exists before code body,
                 evs = (before ++ [Respond code body])%list)
           /\ tally is_close_page evs = tally is_new_page evs
           /\ tally is_new_page evs = (if valid then 1 else 0)
       | Throws _ => tally is_respond evs = 0
       | Hangs => tally is_respond evs = 0
       end
    /\ (valid = false ->
        fst r = Yields tt
        /\ exists message, evs = [Respond 400 (ErrorBody message)]).
Proof.
  cbv zeta.
  destruct (truthy (url req)) eqn:Et; cbn [andb].
  2:{ unfold scrapeHandler. rewrite Et. cbn [negb].
      eexists. split; [reflexivity | ]. simpl. split.
      - repeat split. exists [], 400%Z, (ErrorBody "URL is required"). reflexivity.
      - intros _. split; [reflexivity | eexists; reflexivity]. }
  destruct (isValidUrl env (or_else (url req) "")) eqn:Ev.
  2:{ unfold scrapeHandler. rewrite Et, Ev. cbn [negb].
      eexists. split; [reflexivity | ]. simpl. split.
      - repeat split. exists [], 400%Z, (ErrorBody "Invalid URL"). reflexivity.
      - intros _. split; [reflexivity | eexists; reflexivity]. }
  destruct (scrapeHandler env req st) as [o st'] eqn:E. cbn [fst snd].
  destruct (scrapeHandler_valid_url env req st st' o Et Ev E) as [evs [Hh Ho]].
  exists evs. split; [exact Hh | ]. split; [ | discriminate].
  destruct o as [[] | e |]; [ | exact Ho | exact Ho].
  destruct Ho as [H1 [H2 [H3 H4]]]. rewrite H3, H4. repeat split; assumption.
Qed.

Lemma respond_returns (statusCode : Z) (body : JsonBody) :
  returns (respond statusCode body).
Proof. intros st. eexists. eexists. reflexivity. Qed.

Lemma set_browser_returns : returns set_browser.
Proof. intros st. eexists. eexists. reflexivity. Qed.

Lemma set_context_returns : returns set_context.
Proof. intros st. eexists. eexists. reflexivity. Qed.

(** What the handler of [/scrape] rejects with is an error of launching the
    browser, of creating the context or its routes, of opening the page, of
    setting its headers or of closing it.  An error of [scrapePage] never
    escapes the handler. *)
Theorem scrapeHandler_errors (env : ApiEnv) (req : UrlModel)
    (st st' : ApiState) (e : Thrown) :
  scrapeHandler env req st = (Throws e, st') ->
  exists h ev,
    is_page_work ev = false /\ is_respond ev = false
    /\ does env (h ++ [ev])%list = Throws e.
Proof.
  revert st e st'.
  set (E := fun e : Thrown =>
              exists h ev,
                is_page_work ev = false /\ is_respond ev = false
                /\ does env (h ++ [ev])%list = Throws e).
  change (throws_only E (scrapeHandler env req)).
  assert (Hop : forall ev,
             is_page_work ev = false -> is_respond ev = false ->
             throws_only E (perform ev (does env))).
  { intros ev H1 H2. apply throws_only_perform. intros h e He.
    exists h, ev. repeat split; assumption. }
  unfold scrapeHandler.
  destruct (negb (truthy (url req)));
    [apply throws_only_silent, respond_returns | ].
  destruct (negb (isValidUrl env (or_else (url req) "")));
    [apply throws_only_silent, respond_returns | ].
  apply throws_only_bind; [ | intros _].
  { intros st e st' H.
    destruct (negb (browser st) || negb (context st)); [ | discriminate H].
    revert st e st' H. unfold initializeBrowser.
    apply throws_only_bind; [apply Hop; reflexivity | intros _].
    apply throws_only_bind;
      [apply throws_only_silent, set_browser_returns | intros _].
    apply throws_only_bind; [apply Hop; reflexivity | intros _].
    apply throws_only_bind;
      [apply throws_only_silent, set_context_returns | intros _].
    apply throws_only_bind; [ | intros _; apply Hop; reflexivity].
    destruct (BLOCK_MEDIA env); [apply Hop; reflexivity | apply throws_only_ret]. }
  apply throws_only_bind; [apply Hop; reflexivity | intros _].
  apply throws_only_bind; [ | intros _].
  { destruct (headers req); [apply Hop; reflexivity | apply throws_only_ret]. }
  apply throws_only_bind; [ | intros scraped].
  { apply throws_only_try. intros error.
    apply throws_only_bind; [apply Hop; reflexivity | intros _].
    apply throws_only_bind;
      [apply throws_only_silent, respond_returns | intros _].
    apply throws_only_ret. }
  destruct scraped as [result |]; [ | apply throws_only_ret].
  apply throws_only_bind; [apply Hop; reflexivity | intros _].
  apply throws_only_silent, respond_returns.
Qed.

Lemma scrapeHandler_errors_witness :
  exists st',
    scrapeHandler browser_without_pages plain_request fresh_service
    = (Throws (ErrorObject "Target closed"), st')
    /\ exists h ev,
         is_page_work ev = false /\ is_respond ev = false
         /\ does browser_without_pages (h ++ [ev])%list
            = Throws (ErrorObject "Target closed").
Proof.
  exists (snd (scrapeHandler browser_without_pages plain_request
                 fresh_service)).
  split; [reflexivity | ].
  apply (scrapeHandler_errors browser_without_pages plain_request
           fresh_service
           (snd (scrapeHandler browser_without_pages plain_request
                   fresh_service))).
  reflexivity.
Defined.

(** ** The native pre-pass on a lazy image tag *)

Lemma every_append (p : ascii -> bool) (a b : string) :
  every p (a ++ b) = every p a && every p b.
Proof.
  induction a as [| c a IH]; [reflexivity | ].
  cbn [append every]. rewrite IH. apply andb_assoc.
Qed.

Lemma every_impl (p q : ascii -> bool) (s : string) :
  (forall c, p c = true -> q c = true) -> every p s = true -> every q s = true.
Proof.
  intros Hpq. induction s as [| c s IH]; [reflexivity | ].
  cbn [every]. intros H. apply andb_prop in H. destruct H as [H1 H2].
  rewrite (Hpq _ H1), (IH H2). reflexivity.
Qed.

Lemma rep_match_run {R : Type} (p : ascii -> bool) (k : string -> option R)
    (a rest : string) (r : R) :
  every p a = true ->
  rep_match p k rest = Some r ->
  rep_match p k (a ++ rest) = Some r.
Proof.
  induction a as [| c a IH]; intros Ha Hr; [exact Hr | ].
  cbn [every] in Ha. apply andb_prop in Ha. destruct Ha as [Hc Ha].
  cbn [append rep_match]. rewrite Hc, (IH Ha Hr). reflexivity.
Qed.

Lemma rep_match_none {R : Type} (p : ascii -> bool) (k : string -> option R)
    (c rest : string) :
  every p c = true ->
  rep_match p k rest = None ->
  (forall j, j < String.length c -> k (drop j (c ++ rest)) = None) ->
  rep_match p k (c ++ rest) = None.
Proof.
  induction c as [| x c IH]; intros Hc Hr Hk; [exact Hr | ].
  cbn [every] in Hc. apply andb_prop in Hc. destruct Hc as [Hx Hc].
  cbn [append rep_match]. rewrite Hx.
  rewrite IH; [ | exact Hc | exact Hr | ].
  - apply (Hk 0). simpl. lia.
  - intros j Hj. apply (Hk (S j)). simpl. lia.
Qed.

Lemma count_chars_append (p : ascii -> bool) (a b : string) :
  count_chars p (a ++ b) = count_chars p a + count_chars p b.
Proof.
  induction a as [| c a IH]; [reflexivity | ].
  cbn [append count_chars]. rewrite IH. lia.
Qed.

Lemma count_chars_drop (p : ascii -> bool) (n : nat) (s : string) :
  count_chars p (drop n s) <= count_chars p s.
Proof.
  revert s. induction n as [| n IH]; intros [| c s]; cbn [drop count_chars];
    try lia.
  specialize (IH s). lia.
Qed.

Lemma count_chars_none (p : ascii -> bool) (s : string) :
  every (fun c => negb (p c)) s = true -> count_chars p s = 0.
Proof.
  induction s as [| c s IH]; [reflexivity | ].
  cbn [every count_chars]. intros H. apply andb_prop in H.
  destruct H as [H1 H2]. apply negb_true_iff in H1. rewrite H1, (IH H2).
  reflexivity.
Qed.

Lemma attr_char_not_quote (s : string) :
  every attr_char s = true -> every not_quote s = true.
Proof.
  apply every_impl. intros c H. unfold attr_char in H.
  apply andb_prop in H. exact (proj1 H).
Qed.

Lemma attr_char_not_gt (s : string) :
  every attr_char s = true -> every (except ">") s = true.
Proof.
  apply every_impl. intros c H. unfold attr_char in H.
  apply andb_prop in H. destruct H as [_ H]. unfold except.
  rewrite Ascii.eqb_sym. exact H.
Qed.


Lemma lazy_img_chars (P X : string) :
  lazy_img P X
  = "<img src=" ++ String DQUOTE (P ++ String DQUOTE (" data-src="
      ++ String DQUOTE (X ++ String DQUOTE ">"))).
Proof.
  unfold lazy_img, dq, str1. cbn [append]. rewrite !append_assoc.
  cbn [append]. reflexivity.
Qed.


Lemma rep_match_step {R : Type} (p : ascii -> bool) (k : string -> option R)
    (x : ascii) (s : string) (r : R) :
  p x = true -> rep_match p k s = Some r -> rep_match p k (String x s) = Some r.
Proof. intros Hx Hs. cbn [rep_match]. rewrite Hx, Hs. reflexivity. Qed.

Lemma rep_match_here {R : Type} (p : ascii -> bool) (k : string -> option R)
    (x : ascii) (s : string) :
  p x = true -> rep_match p k s = None ->
  rep_match p k (String x s) = k (String x s).
Proof. intros Hx Hs. cbn [rep_match]. rewrite Hx, Hs. reflexivity. Qed.

Lemma rep_match_stop {R : Type} (p : ascii -> bool) (k : string -> option R)
    (x : ascii) (s : string) :
  p x = false -> rep_match p k (String x s) = k (String x s).
Proof. intros Hx. cbn [rep_match]. rewrite Hx. reflexivity. Qed.

Lemma take_exact (a b : string) (n : nat) :
  n = String.length a -> take n (a ++ b) = a.
Proof. intros ->. apply take_append_length. Qed.

Lemma take_length_diff (a b : string) :
  take (String.length (a ++ b) - String.length b) (a ++ b) = a.
Proof.
  rewrite length_append.
  replace (String.length a + String.length b - String.length b)
    with (String.length a) by lia.
  apply take_append_length.
Qed.

(** What follows the first run of the [data-src] pattern holds two quotes. *)
Lemma dataSrc_attribute_two_quotes {R : Type} (s : string) (cs : captures)
    (k : string -> captures -> option R) (x : R) :
  re_match
    (Cat (Cap 1
            (Cat (lit "data-src=")
               (Cat (Chr is_quote)
                  (Cat (Cap 2 (plus not_quote)) (Cat (Chr is_quote) Eps)))))
       (Cat (Rep (except ">")) (Cat (Chr (only ">")) Eps)))
    s cs k = Some x ->
  2 <= count_chars is_quote s.
Proof.
  intros H. apply re_match_sound in H as [s' [cs' [Hm _]]].
  cbn [matches] in Hm.
  destruct Hm as [s1 [H1 _]].
  destruct H1 as [t1 [Hd [t2 [[c [Ht1 Hc]] [t3 [Hp [t4 [[c' [Ht3 Hc']] _]]]]]]]].
  apply matches_lit in Hd. subst s t1.
  destruct (matches_suffix _ _ _ Hp) as [n Hn].
  rewrite count_chars_append. cbn [count_chars]. rewrite Hc.
  pose proof (count_chars_drop is_quote n t2) as Hle.
  rewrite <- Hn, Ht3 in Hle. cbn [count_chars] in Hle. rewrite Hc' in Hle.
  lia.
Qed.

Lemma re_match_lazy_img {R : Type} (P X : string)
    (k : string -> captures -> option R) (r : R) :
  X <> "" ->
  every attr_char P = true -> every attr_char X = true ->
  k "" [(1, "data-src=" ++ dq X); (2, X)] = Some r ->
  re_match dataSrcRegex (lazy_img P X) [] k = Some r.
Proof.
  intros HX aP aX Hk.
  rewrite lazy_img_chars. unfold dataSrcRegex.
  cbn [cat_all fold_right].
  change (re_match (Cat (lit "<img") ?r) ?s ?cs ?k)
    with (re_match (lit "<img") s cs (fun s' cs' => re_match r s' cs' k)).
  rewrite re_match_lit.
  cbn [append startsWith Ascii.eqb Bool.eqb String.length drop andb].
  change (re_match (Cat (Rep ?p) ?rt) ?s ?cs ?k)
    with (rep_match p (fun s' => re_match rt s' cs k) s).
  match goal with
  | |- rep_match _ ?f _ = _ => set (K := f)
  end.
  assert (Hnone :
            rep_match (except ">") K
              ("ata-src=" ++ String DQUOTE (X ++ String DQUOTE ">")) = None).
  { replace (X ++ String DQUOTE ">") with ((X ++ String DQUOTE "") ++ ">")
      by (rewrite append_assoc; reflexivity).
    change ("ata-src=" ++ String DQUOTE ((X ++ String DQUOTE "") ++ ">"))
      with (("ata-src=" ++ String DQUOTE (X ++ String DQUOTE "")) ++ ">").
    apply rep_match_none.
    - cbn [append every]. rewrite every_append, (attr_char_not_gt _ aX).
      reflexivity.
    - reflexivity.
    - intros j Hj.
      do 9 (destruct j as [| j]; [reflexivity | ]).
      cbn [append drop].
      destruct (K (drop j ((X ++ String DQUOTE "") ++ ">"))) as [x |] eqn:E;
        [ | reflexivity].
      exfalso. unfold K in E. apply dataSrc_attribute_two_quotes in E.
      pose proof (count_chars_drop is_quote j ((X ++ String DQUOTE "") ++ ">"))
        as Hle.
      rewrite !count_chars_append in Hle.
      rewrite (count_chars_none is_quote X (attr_char_not_quote _ aX)) in Hle.
      cbn in Hle. lia. }
  do 6 (apply rep_match_step; [reflexivity | ]).
  apply rep_match_run; [apply attr_char_not_gt, aP | ].
  do 2 (apply rep_match_step; [reflexivity | ]).
  rewrite rep_match_here; [ | reflexivity | exact Hnone].
  unfold K. clear K Hnone.
  destruct X as [| x0 X1]; [contradiction HX; reflexivity | ].
  pose proof (attr_char_not_quote _ aX) as qX. cbn [every] in qX.
  apply andb_prop in qX. destruct qX as [qx0 qX1].
  cbn [re_match]. rewrite re_match_lit.
  cbn [startsWith String.length drop Ascii.eqb Bool.eqb andb].
  change (is_quote DQUOTE) with true. cbv iota.
  unfold plus. cbn [re_match append]. rewrite qx0.
  apply rep_match_run; [exact qX1 | ].
  rewrite rep_match_stop; [ | reflexivity].
  change (is_quote DQUOTE) with true. cbv iota.
  rewrite rep_match_stop; [ | reflexivity].
  change (only ">" ">") with true. cbv iota.
  rewrite <- Hk. unfold dq, str1.
  replace (X1 ++ String DQUOTE ">") with ((X1 ++ String DQUOTE "") ++ ">")
    by (rewrite append_assoc; reflexivity).
  f_equal. f_equal; [f_equal | f_equal; f_equal].
  - change (take
              (String.length
                 (("data-src=" ++ String DQUOTE (String x0 (X1 ++ String DQUOTE "")))
                  ++ ">") - String.length ">")
              (("data-src=" ++ String DQUOTE (String x0 (X1 ++ String DQUOTE "")))
               ++ ">")
            = "data-src=" ++ String DQUOTE (String x0 (X1 ++ String DQUOTE ""))).
    apply take_length_diff.
  - rewrite append_assoc. cbn [append].
    change (String x0 (X1 ++ String DQUOTE ">"))
      with (String x0 X1 ++ String DQUOTE ">").
    apply take_length_diff.
Qed.

Lemma match_here_lazy_img (P X : string) :
  X <> "" ->
  every attr_char P = true -> every attr_char X = true ->
  match_here dataSrcRegex (lazy_img P X)
  = Some (String.length (lazy_img P X),
          [(1, "data-src=" ++ dq X); (2, X)]).
Proof.
  intros HX aP aX. unfold match_here.
  apply re_match_lazy_img; try assumption.
  cbn [String.length]. rewrite Nat.sub_0_r. reflexivity.
Qed.

Lemma replace_scan_miss (r : regex) (f : string -> string) (c : ascii)
    (s : string) :
  match_here r (String c s) = None ->
  replace_scan r f (String c s) 0 = String c (replace_scan r f s 0).
Proof. intros H. cbn [replace_scan]. rewrite H. reflexivity. Qed.

Lemma replace_scan_hit (r : regex) (f : string -> string) (c : ascii)
    (s : string) (k : nat) (cs : captures) :
  match_here r (String c s) = Some (S k, cs) ->
  k <= String.length s ->
  replace_scan r f (String c s) 0
  = f (take (S k) (String c s)) ++ replace_scan r f (drop k s) 0.
Proof.
  intros H Hk. cbn [replace_scan]. rewrite H.
  rewrite (replace_scan_skip r f s k Hk). reflexivity.
Qed.

Lemma srcRegex_miss (c : ascii) (s : string) :
  Ascii.eqb "s" c = false -> match_here srcRegex (String c s) = None.
Proof.
  intros H. unfold match_here, srcRegex.
  cbn [cat_all fold_right lit re_match]. unfold only. rewrite H. reflexivity.
Qed.

Lemma match_here_src_attribute (V rest : string) :
  V <> "" -> every not_quote V = true ->
  match_here srcRegex
    (String "s" (String "r" (String "c" (String "="
       (String DQUOTE (V ++ String DQUOTE rest))))))
  = Some (6 + String.length V, []).
Proof.
  intros HV qV. unfold match_here, srcRegex.
  cbn [cat_all fold_right].
  change (re_match (Cat (lit "src=") ?r) ?s ?cs ?k)
    with (re_match (lit "src=") s cs (fun s' cs' => re_match r s' cs' k)).
  rewrite re_match_lit.
  cbn [append startsWith String.length drop Ascii.eqb Bool.eqb andb].
  destruct V as [| v0 V1]; [contradiction HV; reflexivity | ].
  cbn [every] in qV. apply andb_prop in qV. destruct qV as [qv0 qV1].
  unfold plus. cbn [re_match append].
  change (is_quote DQUOTE) with true. cbv iota. rewrite qv0.
  erewrite rep_match_run; [reflexivity | exact qV1 | ].
  rewrite rep_match_stop; [ | reflexivity].
  change (is_quote DQUOTE) with true. cbv iota.
  f_equal. f_equal. cbn [String.length]. rewrite length_append.
  cbn [String.length]. lia.
Qed.

Lemma expand_plain (t m : string) :
  every not_dollar t = true -> expand t m 0 = t.
Proof.
  induction t as [| c t IH]; [reflexivity | ].
  cbn [every expand]. intros H. apply andb_prop in H. destruct H as [Hc Ht].
  unfold not_dollar in Hc. apply negb_true_iff in Hc. rewrite Hc.
  rewrite (IH Ht). reflexivity.
Qed.

Lemma every_strings_Replace_scan (p : ascii -> bool) (old s : string) :
  every p s = true ->
  forall n skip, every p (strings_Replace_scan old "" s n skip) = true.
Proof.
  induction s as [| c s IH]; intros Hs n skip.
  - cbn [strings_Replace_scan]. destruct old, skip; try reflexivity.
    destruct (n =? 0)%Z; reflexivity.
  - pose proof Hs as Hs'. cbn [every] in Hs'. apply andb_prop in Hs'.
    destruct Hs' as [Hc Hrest].
    cbn [strings_Replace_scan]. destruct skip as [| k]; [ | apply IH, Hrest].
    destruct (n =? 0)%Z; [exact Hs | ].
    destruct old as [| o old'].
    + cbn [append every]. rewrite Hc. apply IH, Hrest.
    + destruct (startsWith (String c s) (String o old')).
      * cbn [append]. apply IH, Hrest.
      * cbn [every]. rewrite Hc. apply IH, Hrest.
Qed.

Lemma every_cleanDataSrc (p : ascii -> bool) (s : string) :
  every p s = true -> every p (cleanDataSrc s) = true.
Proof.
  intros H. unfold cleanDataSrc, strings_Replace.
  apply every_strings_Replace_scan, every_strings_Replace_scan, H.
Qed.

Lemma cleanDataSrc_http (s : string) :
  startsWith s "http" = true ->
  exists t, cleanDataSrc s = "http" ++ t.
Proof.
  intros H. apply startsWith_split in H. rewrite H.
  generalize (drop (String.length "http") s). intros t.
  unfold cleanDataSrc, strings_Replace. cbn [append].
  eexists. cbn. reflexivity.
Qed.

Lemma search_at_start (r : regex) (s : string) (n : nat) (cs : captures) :
  match_here r s = Some (n, cs) ->
  search r s = Some (EmptyString, take n s, cs, drop n s).
Proof. intros H. destruct s; cbn [search]; rewrite H; reflexivity. Qed.

Lemma drop_past (a : string) (c : ascii) (b : string) :
  drop (S (String.length a)) (a ++ String c b) = b.
Proof. induction a as [| x a IH]; [reflexivity | exact IH]. Qed.

Lemma copyDataSrc_lazy_img (P X : string) :
  P <> "" -> X <> "" ->
  every attr_char P = true -> every attr_char X = true ->
  every not_dollar X = true ->
  copyDataSrc (lazy_img P X) = lazy_img (cleanDataSrc X) (cleanDataSrc X).
Proof.
  intros HP HX aP aX dX.
  unfold copyDataSrc, FindStringSubmatch.
  rewrite (search_at_start _ _ _ _ (match_here_lazy_img P X HX aP aX)).
  cbn [seq map group Nat.eqb List.length Nat.leb nth].
  fold (cleanDataSrc X).
  pose proof (attr_char_not_quote _ aP) as qP.
  pose proof (attr_char_not_quote _ aX) as qX.
  assert (Hm : MatchString srcRegex (lazy_img P X) = true).
  { unfold MatchString.
    destruct (search srcRegex (lazy_img P X)) eqn:E; [reflexivity | ].
    exfalso. revert E. apply (search_complete _ _ 5).
    rewrite lazy_img_chars. cbn [append drop].
    rewrite (match_here_src_attribute P _ HP qP). discriminate. }
  rewrite Hm. unfold ReplaceAllString.
  set (X' := cleanDataSrc X).
  set (f := fun m : string => expand ("src=" ++ dq X') m 0).
  assert (Hf : forall m, f m = "src=" ++ dq X').
  { intros m. unfold f. apply expand_plain.
    unfold dq, str1. cbn [append every]. rewrite every_append.
    unfold X'. rewrite (every_cleanDataSrc _ _ dX). reflexivity. }
  rewrite !lazy_img_chars. cbn [append].
  do 5 (rewrite replace_scan_miss; [ | apply srcRegex_miss; reflexivity]).
  rewrite (replace_scan_hit _ _ _ _ (5 + String.length P) []);
    [ | exact (match_here_src_attribute P _ HP qP)
      | cbn [String.length]; rewrite length_append; cbn [String.length]; lia ].
  rewrite Hf.
  change (drop (5 + String.length P)
            (String ?a (String ?b (String ?c (String ?d ?s)))))
    with (drop (S (String.length P)) s).
  rewrite drop_past.
  do 6 (rewrite replace_scan_miss; [ | apply srcRegex_miss; reflexivity]).
  rewrite (replace_scan_hit _ _ _ _ (5 + String.length X) []);
    [ | exact (match_here_src_attribute X _ HX qX)
      | cbn [String.length]; rewrite length_append; cbn [String.length]; lia ].
  rewrite Hf.
  change (drop (5 + String.length X)
            (String ?a (String ?b (String ?c (String ?d ?s)))))
    with (drop (S (String.length X)) s).
  rewrite drop_past.
  rewrite replace_scan_miss; [ | apply srcRegex_miss; reflexivity].
  cbn [replace_scan]. change (match_here srcRegex "") with (@None (nat * captures)).
  unfold dq, str1. cbn [append]. rewrite !append_assoc. cbn [append].
  reflexivity.
Qed.

Lemma followed_cons (p q : ascii -> bool) (x : ascii) (s : string) :
  followed p q (String x s)
  = (p x && match s with String d _ => q d | EmptyString => false end)
    || followed p q s.
Proof.
  destruct s as [| d s]; [ | reflexivity].
  cbn [followed]. rewrite andb_false_r. reflexivity.
Qed.

Lemma followed_skip (p q : ascii -> bool) (a s : string) :
  every (fun c => negb (p c)) a = true ->
  followed p q (a ++ s) = followed p q s.
Proof.
  induction a as [| x a IH]; intros H; [reflexivity | ].
  cbn [every] in H. apply andb_prop in H. destruct H as [Hx Ha].
  apply negb_true_iff in Hx.
  cbn [append]. rewrite followed_cons, Hx, (IH Ha). reflexivity.
Qed.

Lemma followed_intro (p q : ascii -> bool) (c d : ascii) (rest : string) :
  p c = true -> q d = true ->
  forall pre, followed p q (pre ++ String c (String d rest)) = true.
Proof.
  intros Hc Hd. induction pre as [| x pre IH].
  - cbn [append]. rewrite followed_cons, Hc, Hd. reflexivity.
  - cbn [append]. rewrite followed_cons, IH. apply orb_true_r.
Qed.

(** A match of the placeholder pattern begins with [src=], a quote and
    [data:image/svg]. *)
Lemma svgPlaceholderRegex_match_start (s : string) (x : nat * captures) :
  match_here svgPlaceholderRegex s = Some x ->
  exists c t, s = "src=" ++ String c ("data:image/svg" ++ t)
              /\ is_quote c = true.
Proof.
  unfold match_here. intros H.
  apply re_match_sound in H as [s' [cs' [Hm _]]].
  unfold svgPlaceholderRegex in Hm. cbn [cat_all fold_right matches] in Hm.
  destruct Hm as [s1 [H1 [s2 [[c [-> Hc]] [s3 [H3 _]]]]]].
  apply matches_lit in H1, H3. subst s s2. now exists c, s3.
Qed.

Lemma svg_match_needs_quote_d (s : string) (n : nat) :
  followed is_quote (only "d") s = false ->
  match_here svgPlaceholderRegex (drop n s) = None.
Proof.
  intros H.
  destruct (match_here svgPlaceholderRegex (drop n s)) as [x |] eqn:E;
    [ | reflexivity].
  destruct (svgPlaceholderRegex_match_start _ _ E) as [c [t [Hs Hc]]].
  pose proof (followed_intro is_quote (only "d") c "d" ("ata:image/svg" ++ t)
                Hc eq_refl (take n s ++ "src=")) as Hf.
  rewrite append_assoc in Hf.
  change ("src=" ++ String c (String "d" ("ata:image/svg" ++ t)))
    with ("src=" ++ String c ("data:image/svg" ++ t)) in Hf.
  rewrite <- Hs, length_take_drop in Hf. rewrite Hf in H. discriminate H.
Qed.

Lemma no_placeholder_in_result (V : string) :
  every not_quote V = true -> startsWith V "http" = true ->
  followed is_quote (only "d") (lazy_img V V) = false.
Proof.
  intros qV Hh. rewrite lazy_img_chars.
  assert (Hfirst : match V with String d _ => only "d" d | EmptyString => false end
                   = false).
  { apply startsWith_split in Hh. rewrite Hh. reflexivity. }
  assert (Hstep : forall rest,
             followed is_quote (only "d") (String DQUOTE (V ++ rest))
             = followed is_quote (only "d") rest).
  { intros rest. rewrite followed_cons.
    replace (match V ++ rest with
             | String d _ => only "d" d
             | EmptyString => false
             end) with false.
    - rewrite andb_false_r. apply followed_skip. exact qV.
    - apply startsWith_split in Hh. rewrite Hh. reflexivity. }
  rewrite followed_skip; [ | reflexivity].
  rewrite Hstep. rewrite followed_cons.
  cbn [append]. change (only "d" " ") with false. rewrite andb_false_r.
  change (String " " (String "d" (String "a" (String "t" (String "a"
            (String "-" (String "s" (String "r" (String "c" (String "="
               (String DQUOTE (V ++ String DQUOTE ">"))))))))))))
    with (" data-src=" ++ String DQUOTE (V ++ String DQUOTE ">")).
  rewrite followed_skip; [ | reflexivity].
  rewrite Hstep. reflexivity.
Qed.

Lemma drop_all (s : string) : drop (String.length s) s = "".
Proof. induction s as [| c s IH]; [reflexivity | exact IH]. Qed.

Lemma take_whole (s : string) : take (String.length s) s = s.
Proof.
  induction s as [| c s IH]; [reflexivity | ].
  cbn [String.length take]. now rewrite IH.
Qed.

(** The pre-pass on a lazy image: for a tag [<img src=Q..Q data-src=Q..Q>]
    whose two values hold no quote and no [>], whose [data-src] value begins
    with [http] and holds no dollar sign, the result is the tag with the
    [data-src] value, cleaned of [&wx_lazy=1] and [&wx_co=1], as its [src];
    the [data-src] attribute is rewritten to the cleaned value as well, since
    [src=Q..Q] also matches inside it. *)
Theorem processWechatLazyImages_copies_data_src (P X : string) :
  P <> "" ->
  every attr_char P = true -> every attr_char X = true ->
  every not_dollar X = true ->
  startsWith X "http" = true ->
  processWechatLazyImages (lazy_img P X)
  = lazy_img (cleanDataSrc X) (cleanDataSrc X).
Proof.
  intros HP aP aX dX Hh.
  assert (HX : X <> "") by (intros ->; discriminate Hh).
  unfold processWechatLazyImages, ReplaceAllStringFunc.
  assert (H1 : replace_scan dataSrcRegex copyDataSrc (lazy_img P X) 0
               = lazy_img (cleanDataSrc X) (cleanDataSrc X)).
  { pose proof (match_here_lazy_img P X HX aP aX) as Hm.
    rewrite <- (copyDataSrc_lazy_img P X HP HX aP aX dX).
    destruct (lazy_img P X) as [| c s] eqn:E;
      [rewrite lazy_img_chars in E; discriminate E | ].
    rewrite (replace_scan_hit _ _ _ _ (String.length s) _ Hm (le_n _)).
    rewrite drop_all.
    change (take (S (String.length s)) (String c s))
      with (take (String.length (String c s)) (String c s)).
    rewrite take_whole. cbn [replace_scan].
    change (match_here dataSrcRegex "") with (@None (nat * captures)).
    apply append_nil_r. }
  rewrite H1.
  apply replace_scan_no_match. intros n.
  apply svg_match_needs_quote_d, no_placeholder_in_result.
  - apply every_cleanDataSrc, attr_char_not_quote, aX.
  - destruct (cleanDataSrc_http X Hh) as [t ->]. reflexivity.
Qed.

Lemma processWechatLazyImages_copies_data_src_witness :
  processWechatLazyImages
    (lazy_img "data:image/gif;base64,R0lGODlhAQABAIAAAP"
       "https://mmbiz.qpic.cn/mmbiz_png/abc/640?wx_fmt=png&wx_lazy=1&wx_co=1")
  = lazy_img "https://mmbiz.qpic.cn/mmbiz_png/abc/640?wx_fmt=png"
      "https://mmbiz.qpic.cn/mmbiz_png/abc/640?wx_fmt=png".
Proof.
  apply (processWechatLazyImages_copies_data_src
           "data:image/gif;base64,R0lGODlhAQABAIAAAP"
           "https://mmbiz.qpic.cn/mmbiz_png/abc/640?wx_fmt=png&wx_lazy=1&wx_co=1");
    [discriminate | reflexivity ..].
Defined.
